(** * vermouth.graph_utils: a shallow embedding and its properties

    The module under study (src/vermouth/graph_utils.py) manipulates
    networkx graphs: it builds product graphs, enumerates their cliques,
    runs the VF2 matcher with a seeded state, and contracts partitions.

    Conventions of the embedding.
    - A Python [dict] used as a mapping is a [gmap]; a [set] or
      [frozenset] is a [gset].  Where the order of iteration of a dict is
      observable (the nodes and the adjacency of a graph, the [inout]
      vectors of the matcher) an association list in insertion order is
      used instead.
    - The order in which Python iterates over a [set] of nodes is not
      specified by the language; the embedding iterates such a set in the
      node order of the graph the nodes come from.  No theorem below
      depends on that choice.
    - An exception is a value of [exn]; a function that may raise returns
      a [result]; a generator is the [trace] of what it yields, ended by a
      normal stop or by the exception that escapes from it.
    - [x == y] on attribute values is decidable equality of the value
      type; nodes are any countable type. *)

From stdpp Require Import gmap strings list fin_maps sets sorting.
From Stdlib Require Import Floats.SpecFloat.

Set Default Proof Using "Type".

(** ** Exceptions, results and generators *)

Inductive exn :=
  KeyError | ValueError | IndexError | AttributeError | RecursionError.

Inductive result (A : Type) :=
  | Ok (a : A)
  | Raise (e : exn).
Arguments Ok {A} a.
Arguments Raise {A} e.

#[global] Instance exn_eq_dec : EqDecision exn.
Proof. solve_decision. Defined.

#[global] Instance result_eq_dec {A : Type} `{EqDecision A} : EqDecision (result A).
Proof. solve_decision. Defined.

(** Sequencing: an exception ends the computation. *)
#[global] Instance result_ret : MRet result := @Ok.
#[global] Instance result_bind : MBind result := λ A B k r,
  match r with Ok a => k a | Raise e => Raise e end.

(** What a generator does when it is run to its end. *)
Inductive trace (A : Type) :=
  | Stop
  | Throw (e : exn)
  | Emit (a : A) (t : trace A).
Arguments Stop {A}.
Arguments Throw {A} e.
Arguments Emit {A} a t.

(** Running one generator after another: the second one is never started
    when the first one raises. *)
Fixpoint tapp {A} (t1 t2 : trace A) : trace A :=
  match t1 with
  | Stop => t2
  | Throw e => Throw e
  | Emit a t => Emit a (tapp t t2)
  end.

(** The values yielded before the generator ends. *)
Fixpoint yielded {A} (t : trace A) : list A :=
  match t with
  | Stop | Throw _ => []
  | Emit a t => a :: yielded t
  end.

(** [list(gen)] and [matches.extend(gen)]: the generator is exhausted. *)
Fixpoint exhaust {A} (t : trace A) : result (list A) :=
  match t with
  | Stop => Ok []
  | Throw e => Raise e
  | Emit a t => l ← exhaust t; Ok (a :: l)
  end.

(** [itertools.islice(gen, 1)], consumed: the generator runs up to its
    first [yield] and is then abandoned. *)
Definition islice1 {A} (t : trace A) : result (list A) :=
  match t with
  | Stop => Ok []
  | Throw e => Raise e
  | Emit a _ => Ok [a]
  end.

(** ** itertools *)

(** [itertools.product(xs, ys)] *)
Definition product {X Y} (xs : list X) (ys : list Y) : list (X * Y) :=
  x ← xs; (λ y, (x, y)) <$> ys.

(** [itertools.combinations(xs, 2)] *)
Fixpoint combinations2 {X} (xs : list X) : list (X * X) :=
  match xs with
  | [] => []
  | x :: xs' => ((λ y, (x, y)) <$> xs') ++ combinations2 xs'
  end.

(** ** networkx.Graph

    [g_node] is [G._node]: node identifiers with their attribute
    dictionaries, in insertion order.  [g_edge] lists the undirected edges
    with their attribute dictionaries, in insertion order; networkx keeps
    them as the symmetric dict-of-dicts [G._adj], from which the accessors
    below are read. *)

Record Graph (V A B : Type) := MkGraph {
  g_node : list (V * gmap string A);
  g_edge : list (V * V * gmap string B)
}.
Arguments MkGraph {V A B} g_node g_edge.
Arguments g_node {V A B} g.
Arguments g_edge {V A B} g.

Section Graph.
Context {V : Type} `{Countable V} {A B : Type}.
Implicit Types (G : Graph V A B) (u v n : V).

(** [nx.Graph()] *)
Definition empty_graph : Graph V A B := MkGraph [] [].

(** [for n in G], [G.nodes()] *)
Definition nodes G : list V := fst <$> g_node G.

(** [len(G)] *)
Definition number_of_nodes G : nat := length (g_node G).

(** [n in G] *)
Definition has_node G n : bool := bool_decide (n ∈ nodes G).

(** [G.nodes[n]] (also written [G.node[n]]); [None] stands for the
    [KeyError] of a node that is not in the graph. *)
Definition node_attrs G n : option (gmap string A) :=
  snd <$> (snd <$> list_find (λ p, p.1 = n) (g_node G)).

Definition joins u v (e : V * V * gmap string B) : bool :=
  bool_decide (e.1.1 = u ∧ e.1.2 = v) || bool_decide (e.1.1 = v ∧ e.1.2 = u).

(** [G.has_edge(u, v)] *)
Definition has_edge G u v : bool := existsb (joins u v) (g_edge G).

(** [G.edges[u, v]], [G[u][v]]; [None] stands for the [KeyError] of an
    edge that is not in the graph. *)
Definition edge_attrs G u v : option (gmap string B) :=
  snd <$> (snd <$> list_find (λ e, joins u v e = true) (g_edge G)).

(** [G[n]], [G.neighbors(n)]: the keys of [G._adj[n]]. *)
Definition neighbors G n : list V :=
  omap (λ e : V * V * gmap string B,
          if decide (e.1.1 = n) then Some e.1.2
          else if decide (e.1.2 = n) then Some e.1.1
          else None) (g_edge G).

(** [G.degree(n)]: a self-loop counts twice. *)
Definition degree G n : nat :=
  length (neighbors G n) + (if decide (n ∈ neighbors G n) then 1 else 0).

(** [G.add_node(n, **attrs)] *)
Definition add_node G n (attrs : gmap string A) : Graph V A B :=
  if has_node G n
  then MkGraph ((λ p, if decide (p.1 = n) then (p.1, attrs ∪ p.2) else p)
                  <$> g_node G) (g_edge G)
  else MkGraph (g_node G ++ [(n, attrs)]) (g_edge G).

(** [G.add_nodes_from(ns)] *)
Definition add_nodes_from G (ns : list V) : Graph V A B :=
  foldl (λ g n, add_node g n ∅) G ns.

(** [G.add_edge(u, v, **attrs)] *)
Definition add_edge G u v (attrs : gmap string B) : Graph V A B :=
  let G1 := if has_node G u then G else add_node G u ∅ in
  let G2 := if has_node G1 v then G1 else add_node G1 v ∅ in
  if has_edge G2 u v
  then MkGraph (g_node G2)
         ((λ e, if joins u v e then (e.1, attrs ∪ e.2) else e) <$> g_edge G2)
  else MkGraph (g_node G2) (g_edge G2 ++ [(u, v, attrs)]).

(** [G.subgraph(ns)]: the subgraph induced by the nodes of [ns] that
    are in [G]. *)
Definition subgraph G (ns : list V) : Graph V A B :=
  MkGraph (filter (λ p, p.1 ∈ ns) (g_node G))
          (filter (λ e, e.1.1 ∈ ns ∧ e.1.2 ∈ ns) (g_edge G)).

(** [G.remove_nodes_from(ns)] *)
Definition remove_nodes_from G (ns : list V) : Graph V A B :=
  MkGraph (filter (λ p, p.1 ∉ ns) (g_node G))
          (filter (λ e, (e.1.1 ∉ ns) ∧ (e.1.2 ∉ ns)) (g_edge G)).

(** [G.number_of_edges()] *)
Definition number_of_edges G : nat := length (g_edge G).

(** [G.edges(data=True)]: every node in turn reports the edges to the
    neighbours that have not reported yet. *)
Fixpoint edges_from (ns seen : list V) (es : list (V * V * gmap string B))
  : list (V * V * gmap string B) :=
  match ns with
  | [] => []
  | n :: ns' =>
      omap (λ e : V * V * gmap string B,
              if decide (e.1.1 = n)
              then (if decide (e.1.2 ∈ seen) then None else Some (n, e.1.2, e.2))
              else if decide (e.1.2 = n)
              then (if decide (e.1.1 ∈ seen) then None else Some (n, e.1.1, e.2))
              else None) es
      ++ edges_from ns' (n :: seen) es
  end.

Definition edges G : list (V * V * gmap string B) :=
  edges_from (nodes G) [] (g_edge G).

End Graph.

Arguments empty_graph {V A B}.

(** ** Attribute dictionaries *)

Section Attributes.
Context {A : Type} `{EqDecision A}.

(** [all(attr in node1 and attr in node2 and node1[attr] == node2[attr]
         for attr in attributes)] *)
Definition attrs_agree (attributes : list string)
    (node1 node2 : gmap string A) : bool :=
  forallb (λ attr,
    match node1 !! attr, node2 !! attr with
    | Some x, Some y => bool_decide (x = y)
    | _, _ => false
    end) attributes.

(** [{attr: (d1.get(attr, None), d2.get(attr, None))
      for attr in set(d1.keys()) | set(d2.keys())}] *)
Definition paired {C D : Type} (d1 : gmap string C) (d2 : gmap string D)
  : gmap string (option C * option D) :=
  merge (λ x y, match x, y with
                | None, None => None
                | _, _ => Some (x, y)
                end) d1 d2.

(** [d1.get('atomname') == d2.get('atomname')] *)
Definition same_atomname (d1 d2 : gmap string A) : bool :=
  bool_decide (d1 !! "atomname" = d2 !! "atomname").
End Attributes.

(** ** rate_match *)

Section RateMatch.
Context {V1 V2 : Type} `{Countable V1, Countable V2}.
Context {A B1 B2 : Type} `{EqDecision A}.

(** One term of the sum in [rate_match]; [residue.node[rdx]] raises
    [KeyError] for a key of the match that is not a node. *)
Definition rate_pair (residue : Graph V1 A B1) (bead : Graph V2 A B2)
    (p : V1 * V2) : result nat :=
  match node_attrs residue p.1, node_attrs bead p.2 with
  | Some d1, Some d2 => Ok (if same_atomname d1 d2 then 1 else 0)
  | _, _ => Raise KeyError
  end.

Definition rate_match (residue : Graph V1 A B1) (bead : Graph V2 A B2)
    (match_ : gmap V1 V2) : result nat :=
  foldr (λ p acc, x ← rate_pair residue bead p; s ← acc; Ok (x + s))
        (Ok 0) (map_to_list match_).
End RateMatch.

(** ** Product graphs *)

Section Products.
Context {V1 V2 : Type} `{Countable V1, Countable V2}.
Context {A B : Type} `{EqDecision A}.
Implicit Types (attributes : list string).

(** The nodes of the two graphs are visited with their attribute
    dictionaries, [graph.nodes[idx]] for [idx] in [graph]. *)
Definition categorical_cartesian_product
    (graph1 : Graph V1 A B) (graph2 : Graph V2 A B) attributes
  : Graph (V1 * V2) (option A * option A) (option B * option B) :=
  foldl (λ product '((idx1, node1), (idx2, node2)),
           if attrs_agree attributes node1 node2
           then add_node product (idx1, idx2) (paired node1 node2)
           else product)
        empty_graph (product (g_node graph1) (g_node graph2)).

(** The condition under which two nodes of a product graph are joined;
    it is written three times in the module, with the same text. *)
Definition both_edge (graph1 : Graph V1 A B) (graph2 : Graph V2 A B)
    (p q : V1 * V2) : bool :=
  has_edge graph1 p.1 q.1 && has_edge graph2 p.2 q.2.

Definition neither_edge (graph1 : Graph V1 A B) (graph2 : Graph V2 A B)
    (p q : V1 * V2) : bool :=
  negb (has_edge graph1 p.1 q.1) && negb (has_edge graph2 p.2 q.2).

Definition compatible (graph1 : Graph V1 A B) (graph2 : Graph V2 A B)
    (p q : V1 * V2) : bool :=
  bool_decide (p.1 ≠ q.1) && bool_decide (p.2 ≠ q.2)
  && (both_edge graph1 graph2 p q || neither_edge graph1 graph2 p q).

(** The attributes given to a product edge; the two lookups are made
    under [both_edge], where they succeed. *)
Definition product_edge_attrs
    (graph1 : Graph V1 A B) (graph2 : Graph V2 A B) (p q : V1 * V2)
  : gmap string (option B * option B) :=
  if both_edge graph1 graph2 p q
  then paired (default ∅ (edge_attrs graph1 p.1 q.1))
              (default ∅ (edge_attrs graph2 p.2 q.2))
  else ∅.

Definition categorical_modular_product
    (graph1 : Graph V1 A B) (graph2 : Graph V2 A B) attributes
  : Graph (V1 * V2) (option A * option A) (option B * option B) :=
  let product := categorical_cartesian_product graph1 graph2 attributes in
  foldl (λ product '(p, q),
           if compatible graph1 graph2 p q
           then add_edge product p q (product_edge_attrs graph1 graph2 p q)
           else product)
        product (combinations2 (nodes product)).
End Products.

(** ** networkx.find_cliques

    networkx enumerates the maximal cliques with the algorithm of Bron and
    Kerbosch in the variant of Tomita, Tanaka and Takahashi: the candidates
    that are adjacent to a pivot are skipped, the pivot being the node of
    [subg] with most neighbours in [cand].  The library runs the recursion
    on an explicit stack; here it is a recursion whose depth is bounded by
    the number of candidates.  [ext_u.pop()] takes the candidates in node
    order. *)

Section FindCliques.
Context {V : Type} `{Countable V} {A B : Type}.
Variable G : Graph V A B.

(** [v in adj[u]], where [adj = {u: {v for v in G[u] if v != u} for u in G}] *)
Definition adj (u v : V) : bool := has_edge G u v && bool_decide (v ≠ u).

(** [max(xs, key=key)] for a non-empty [x :: xs]: the first of the
    largest. *)
Definition max_by (key : V → nat) (x : V) (xs : list V) : V :=
  foldl (λ best y, if key best <? key y then y else best) x xs.

(** [len(cand & adj[u])] *)
Definition pivot_key (cand : list V) (u : V) : nat :=
  length (filter (λ v, adj u v = true) cand).

(** The loop [while True: if ext_u: ...] at one level of the search:
    [q] is taken from [ext_u] and removed from [cand]; a clique is
    reported when no node is adjacent to all of [Q + [q]], and the search
    descends ([recur]) when candidates remain. *)
Definition expand_loop (recur : list V → list V → list V → list (list V))
    (Q subg : list V) : list V → list V → list (list V) :=
  fix loop (cand ext_u : list V) {struct ext_u} : list (list V) :=
    match ext_u with
    | [] => []
    | q :: ext_u' =>
        let cand' := filter (λ v, v ≠ q) cand in
        let subg_q := filter (λ v, adj q v = true) subg in
        (if bool_decide (subg_q = [])
         then [Q ++ [q]]
         else
           let cand_q := filter (λ v, adj q v = true) cand' in
           if bool_decide (cand_q = [])
           then []
           else recur (Q ++ [q]) subg_q cand_q)
        ++ loop cand' ext_u'
    end.

(** One level of the search, entered with the pivot still to choose.
    [depth] bounds the height of the stack. *)
Fixpoint expand (depth : nat) (Q subg cand : list V) : list (list V) :=
  match depth, subg with
  | 0, _ | _, [] => []
  | S depth', s :: subg' =>
      let u := max_by (pivot_key cand) s subg' in
      let ext_u := filter (λ v, adj u v = false) cand in
      expand_loop (expand depth') Q subg cand ext_u
  end.

Definition find_cliques : list (list V) :=
  if bool_decide (number_of_nodes G = 0)
  then []
  else expand (number_of_nodes G) [] (nodes G) (nodes G).
End FindCliques.

(** ** vermouth.utils.maxes *)

(** Modelled from the spec: [maxes] of vermouth/utils.py, which this
    module imports and which is not among the sources at hand.  The
    specification says of its use with [key=len]: retain only the cliques
    of maximum cardinality, ties all retained. *)
Definition maxes {X : Type} (key : X → nat) (items : list X) : list X :=
  filter (λ x, key x = max_list (key <$> items)) items.

(** ** Maximum common subgraphs *)

(** [dict(pairs)]: a later pair overrides an earlier one with the same
    key. *)
Definition dict {K W : Type} `{Countable K} (pairs : list (K * W)) : gmap K W :=
  foldl (λ d p, <[p.1 := p.2]> d) ∅ pairs.

Section MCS.
Context {V1 V2 : Type} `{Countable V1, Countable V2}.
Context {A B : Type} `{EqDecision A}.
Implicit Types (attributes : list string).

Definition categorical_maximum_common_subgraph
    (graph1 : Graph V1 A B) (graph2 : Graph V2 A B) attributes
  : list (gmap V1 V2) :=
  let product := categorical_modular_product graph1 graph2 attributes in
  let cliques := find_cliques product in
  let largest := maxes length cliques in
  dict <$> largest.

(** The edges of the two product graphs of [maximum_common_subgraph]. *)
Definition add_compatible_edges
    (graph1 : Graph V1 A B) (graph2 : Graph V2 A B)
    (product : Graph (V1 * V2) () ()) : Graph (V1 * V2) () () :=
  foldl (λ product '(p, q),
           if compatible graph1 graph2 p q
           then add_edge product p q ∅
           else product)
        product (combinations2 (nodes product)).

(** First phase: the pairs of nodes of degree other than one. *)
Definition heavy_product
    (graph1 : Graph V1 A B) (graph2 : Graph V2 A B) attributes
  : Graph (V1 * V2) () () :=
  add_compatible_edges graph1 graph2
    (foldl (λ product '((g1_node, node1), (g2_node, node2)),
              if attrs_agree attributes node1 node2
              then if bool_decide (degree graph1 g1_node ≠ 1)
                      && bool_decide (degree graph2 g2_node ≠ 1)
                   then add_node product (g1_node, g2_node) ∅
                   else product
              else product)
           empty_graph (product (g_node graph1) (g_node graph2))).

(** The test on the neighbours of a pair in the second phase. *)
Definition neighbours_agree
    (graph1 : Graph V1 A B) (graph2 : Graph V2 A B)
    (match_ : gmap V1 V2) (g1_node : V1) (g2_node : V2) : bool :=
  let g1_neighbors := (λ n, match_ !! n) <$> neighbors graph1 g1_node in
  bool_decide (g1_neighbors = [])
  || bool_decide (None ∈ g1_neighbors)
  || existsb (λ n, bool_decide (Some n ∈ g1_neighbors))
             (neighbors graph2 g2_node).

(** Second phase, for one clique of the first. *)
Definition leaf_product
    (graph1 : Graph V1 A B) (graph2 : Graph V2 A B) attributes
    (clique : list (V1 * V2)) : Graph (V1 * V2) () () :=
  let match_ := dict clique in
  add_compatible_edges graph1 graph2
    (foldl (λ product '((g1_node, node1), (g2_node, node2)),
              if (bool_decide (degree graph1 g1_node ≤ 1)
                  || bool_decide (degree graph2 g2_node ≤ 1))
                 && attrs_agree attributes node1 node2
              then if neighbours_agree graph1 graph2 match_ g1_node g2_node
                   then add_node product (g1_node, g2_node) ∅
                   else product
              else product)
           (add_nodes_from empty_graph clique)
           (product (g_node graph1) (g_node graph2))).

(** [all_cliques], chained. *)
Definition all_cliques
    (graph1 : Graph V1 A B) (graph2 : Graph V2 A B) attributes
  : list (list (V1 * V2)) :=
  let cliques := find_cliques (heavy_product graph1 graph2 attributes) in
  let largest := [] :: cliques in
  clique ← largest;
  find_cliques (leaf_product graph1 graph2 attributes clique).

(** [set(frozenset(m) for m in largest)] *)
Definition frozen (cliques : list (list (V1 * V2))) : gset (gset (V1 * V2)) :=
  list_to_set (list_to_set <$> cliques).

Definition maximum_common_subgraph
    (graph1 : Graph V1 A B) (graph2 : Graph V2 A B) attributes
  : list (gmap V1 V2) :=
  let largest := maxes length (all_cliques graph1 graph2 attributes) in
  let matches := frozen largest in
  (λ clique, dict (elements clique)) <$> elements matches.
End MCS.

(** ** Cliques *)

Section Cliques.
Context {V : Type} `{Countable V} {A B : Type}.

(** A list of pairwise adjacent nodes of the graph, each listed once. *)
Definition is_clique (G : Graph V A B) (C : list V) : Prop :=
  NoDup C
  ∧ (∀ x, x ∈ C → x ∈ nodes G)
  ∧ ∀ x y, x ∈ C → y ∈ C → x ≠ y → has_edge G x y = true.

(** A clique that no further node of the graph extends. *)
Definition maximal_clique (G : Graph V A B) (C : list V) : Prop :=
  is_clique G C
  ∧ ∀ v, v ∈ nodes G → v ∉ C → ∃ x, x ∈ C ∧ has_edge G x v = false.
End Cliques.

(** ** blockmodel *)

(** The values of the node attributes of a quotient graph: the subgraph of
    a block ([graph]), its counts ([nnodes], [nedges]), its density (the
    fraction that [nx.density] returns as a float, numerator and
    denominator) and what the caller supplies. *)
Inductive block_attr (V A W X : Type) :=
  | BGraph (bd : Graph V A W)
  | BCount (n : nat)
  | BDensity (num den : nat)
  | BUser (x : X).
Arguments BGraph {V A W X} bd.
Arguments BCount {V A W X} n.
Arguments BDensity {V A W X} num den.
Arguments BUser {V A W X} x.

Section Blockmodel.
Context {V : Type} `{Countable V} {A W X : Type}.
(** The sum of two weights, and the weight [1.0]. *)
Variables (wadd : W → W → W) (wone : W).

#[local] Abbreviation quotient := (Graph nat (block_attr V A W X) W).

(** [nx.density(bd)] *)
Definition density (bd : Graph V A W) : block_attr V A W X :=
  let n := number_of_nodes bd in
  let m := number_of_edges bd in
  if (m =? 0) || (n <=? 1) then BDensity 0 1 else BDensity (2 * m) (n * (n - 1)).

(** The attributes of the node made for [idxs], the partition numbered
    [bead_idx]. *)
Definition block_node (G : Graph V A W) (attrs : list (string * list X))
    (bead_idx : nat) (idxs : list V)
  : result (gmap string (block_attr V A W X)) :=
  let bd := subgraph G idxs in
  node ← foldl (λ acc '(k, vals),
                  node ← acc;
                  match vals !! bead_idx with
                  | Some x => Ok (<[k := BUser x]> node)
                  | None => Raise IndexError
                  end)
               (Ok {["graph" := BGraph bd]}) attrs;
  Ok (<["density" := density bd]>
        (<["nedges" := BCount (number_of_edges bd)]>
           (<["nnodes" := BCount (number_of_nodes bd)]> node))).

(** [for bead_idx, idxs in enumerate(partitions): ...] *)
Fixpoint add_blocks (G : Graph V A W) (attrs : list (string * list X))
    (bead_idx : nat) (partitions : list (list V)) (CG_mol : quotient)
  : result quotient :=
  match partitions with
  | [] => Ok CG_mol
  | idxs :: partitions' =>
      node ← block_node G attrs bead_idx idxs;
      add_blocks G attrs (S bead_idx) partitions' (add_node CG_mol bead_idx node)
  end.

(** [block_mapping]: the block of every node that is in one. *)
Definition block_mapping (CG_mol : quotient) : result (gmap V nat) :=
  foldl (λ acc '(n, d),
           block_mapping ← acc;
           match d !! "graph" with
           | Some (BGraph bd) =>
               Ok (foldl (λ bm u, <[u := n]> bm) block_mapping (nodes bd))
           | Some _ => Raise AttributeError
           | None => Raise KeyError
           end)
        (Ok ∅) (g_node CG_mol).

(** [CG_mol[bmu][bmv]['weight'] += weight] *)
Definition add_weight (CG_mol : quotient) (bmu bmv : nat) (weight : W)
  : quotient :=
  MkGraph (g_node CG_mol)
    ((λ e, if joins bmu bmv e
           then (e.1, alter (λ w, wadd w weight) "weight" e.2)
           else e) <$> g_edge CG_mol).

(** The body of [for u, v, d in G.edges(data=True)]. *)
Definition merge_edge (block_mapping : gmap V nat) (CG_mol : quotient)
    (e : V * V * gmap string W) : quotient :=
  match block_mapping !! e.1.1, block_mapping !! e.1.2 with
  | Some bmu, Some bmv =>
      if decide (bmu = bmv) then CG_mol
      else
        let weight := default wone (e.2 !! "weight") in
        if has_edge CG_mol bmu bmv
        then add_weight CG_mol bmu bmv weight
        else add_edge CG_mol bmu bmv {["weight" := weight]}
  | _, _ => CG_mol
  end.

Definition blockmodel (G : Graph V A W) (partitions : list (list V))
    (attrs : list (string * list X)) : result quotient :=
  CG_mol ← add_blocks G attrs 0 partitions empty_graph;
  block_mapping ← block_mapping CG_mol;
  Ok (foldl (merge_edge block_mapping) CG_mol (edges G)).
End Blockmodel.

(** ** Notions used to state the properties of [blockmodel] *)

Section BlockmodelNotions.
Context {V : Type} `{Countable V} {W : Type}.
Variables (wadd : W → W → W) (wone : W).

(** [d.get('weight', 1.0)] *)
Definition weight_of (e : V * V * gmap string W) : W :=
  default wone (e.2 !! "weight").

(** The edges of [es] between the blocks [i] and [j], in the order of
    [es]. *)
Definition crossing (block_mapping : gmap V nat) (i j : nat)
    (es : list (V * V * gmap string W)) : list (V * V * gmap string W) :=
  filter (λ e, (block_mapping !! e.1.1 = Some i ∧ block_mapping !! e.1.2 = Some j)
               ∨ (block_mapping !! e.1.1 = Some j ∧ block_mapping !! e.1.2 = Some i))
         es.

(** The sum of a sequence of weights, taken from the left; [None] for
    no weight. *)
Definition merged (ws : list W) : option W :=
  match ws with
  | [] => None
  | w :: ws' => Some (foldl wadd w ws')
  end.
End BlockmodelNotions.

(** ** networkx.isomorphism.GraphMatcher (VF2), as [ElementGraphMatcher]

    The matcher looks for the subgraphs of [G1] that are isomorphic to
    [G2].  Its state is the partial mapping [core_1], its inverse [core_2]
    and the vectors [inout_1] and [inout_2], which record for the nodes on
    the border of the mapping the depth at which they were reached.
    [ElementGraphMatcher] initialises the state when it is built and
    turns the later [initialize()] of [subgraph_isomorphisms_iter] into a
    no-operation, so that a search starts from the state the caller has
    put in place. *)

Record GMState (V1 V2 : Type) `{Countable V1, Countable V2} := MkState {
  core_1 : gmap V1 V2;
  core_2 : gmap V2 V1;
  inout_1 : list (V1 * nat);
  inout_2 : list (V2 * nat)
}.
Arguments MkState {V1 V2 _ _ _ _} core_1 core_2 inout_1 inout_2.
Arguments core_1 {V1 V2 _ _ _ _} g.
Arguments core_2 {V1 V2 _ _ _ _} g.
Arguments inout_1 {V1 V2 _ _ _ _} g.
Arguments inout_2 {V1 V2 _ _ _ _} g.

Section Inout.
Context {V W : Type} `{Countable V} {A B : Type}.

(** [if node not in inout: inout[node] = depth] *)
Definition reach (depth : nat) (inout : list (V * nat)) (node : V)
  : list (V * nat) :=
  if decide (node ∈ inout.*1) then inout else inout ++ [(node, depth)].

(** The neighbours of the mapped nodes that are not mapped themselves. *)
Definition new_nodes (G : Graph V A B) (core : gmap V W) : gset V :=
  list_to_set (node ← elements (dom core);
               filter (λ neighbor, core !! neighbor = None) (neighbors G node)).

(** The update of an [inout] vector when [node] enters the mapping
    [core] at [depth]. *)
Definition reach_all (G : Graph V A B) (core : gmap V W) (depth : nat)
    (inout : list (V * nat)) (node : V) : list (V * nat) :=
  foldl (reach depth) (reach depth inout node)
        (filter (λ n, n ∈ new_nodes G core) (nodes G)).

(** [for node in list(vector.keys()): if vector[node] == depth: del vector[node]] *)
Definition unreach (depth : nat) (inout : list (V * nat)) : list (V * nat) :=
  filter (λ nd, nd.2 ≠ depth) inout.

(** [[node for node in inout if node not in core]] *)
Definition terminal (core : gmap V W) (inout : list (V * nat)) : list V :=
  filter (λ node, core !! node = None) inout.*1.

(** [min(xs, key=G2_node_order.__getitem__)]: the first node, in the
    order of the graph, that is in [xs]. *)
Definition min_in_order (order xs : list V) : option V :=
  head (filter (λ n, n ∈ xs) order).
End Inout.

(** [G.nodes[n][name]] *)
Definition attribute {V A B : Type} `{Countable V} (G : Graph V A B) (n : V)
    (name : string) : result A :=
  match node_attrs G n with
  | Some d => match d !! name with Some x => Ok x | None => Raise KeyError end
  | None => Raise KeyError
  end.

Section Matcher.
Context {V1 V2 : Type} `{Countable V1, Countable V2}.
Context {A B1 B2 : Type} `{EqDecision A}.
Variables (G1 : Graph V1 A B1) (G2 : Graph V2 A B2).
Implicit Types (st : GMState V1 V2).

(** [GraphMatcher.initialize] *)
Definition initialize : GMState V1 V2 := MkState ∅ ∅ [] [].

(** [GMState.__init__(GM, G1_node, G2_node)] *)
Definition push st (G1_node : V1) (G2_node : V2) : GMState V1 V2 :=
  let core_1' := <[G1_node := G2_node]> (core_1 st) in
  let core_2' := <[G2_node := G1_node]> (core_2 st) in
  let depth := size core_1' in
  MkState core_1' core_2'
          (reach_all G1 core_1' depth (inout_1 st) G1_node)
          (reach_all G2 core_2' depth (inout_2 st) G2_node).

(** [GMState.restore], for the state made at [depth] with the two
    nodes. *)
Definition restore st (G1_node : V1) (G2_node : V2) (depth : nat)
  : GMState V1 V2 :=
  MkState (delete G1_node (core_1 st)) (delete G2_node (core_2 st))
          (unreach depth (inout_1 st)) (unreach depth (inout_2 st)).

(** [candidate_pairs_iter] *)
Definition candidate_pairs_iter st : result (list (V1 * V2)) :=
  let T1_inout := terminal (core_1 st) (inout_1 st) in
  let T2_inout := terminal (core_2 st) (inout_2 st) in
  if bool_decide (T1_inout ≠ []) && bool_decide (T2_inout ≠ [])
  then
    match min_in_order (nodes G2) T2_inout with
    | Some node_2 => Ok ((λ node_1, (node_1, node_2)) <$> T1_inout)
    | None => Raise KeyError
    end
  else
    match head (filter (λ n, core_2 st !! n = None) (nodes G2)) with
    | Some other_node =>
        Ok ((λ node, (node, other_node))
              <$> filter (λ node, core_1 st !! node = None) (nodes G1))
    | None => Raise ValueError
    end.

(** [G.number_of_edges(u, v)] of a simple graph *)
Definition edge_count {V B : Type} `{Countable V} (G : Graph V A B) (u v : V)
  : nat := if has_edge G u v then 1 else 0.

(** [syntactic_feasibility] for the test [subgraph] *)
Definition syntactic_feasibility st (G1_node : V1) (G2_node : V2) : bool :=
  (* R_self *)
  bool_decide (edge_count G1 G1_node G1_node = edge_count G2 G2_node G2_node)
  (* R_neighbor *)
  && forallb (λ neighbor,
       match core_1 st !! neighbor with
       | Some image =>
           bool_decide (image ∈ neighbors G2 G2_node)
           && bool_decide (edge_count G1 neighbor G1_node
                           = edge_count G2 image G2_node)
       | None => true
       end) (neighbors G1 G1_node)
  && forallb (λ neighbor,
       match core_2 st !! neighbor with
       | Some image =>
           bool_decide (image ∈ neighbors G1 G1_node)
           && bool_decide (edge_count G1 image G1_node
                           = edge_count G2 neighbor G2_node)
       | None => true
       end) (neighbors G2 G2_node)
  (* look ahead 1: R_terminout *)
  && bool_decide
       (length (filter (λ n, n ∈ (inout_2 st).*1 ∧ core_2 st !! n = None)
                       (neighbors G2 G2_node))
        ≤ length (filter (λ n, n ∈ (inout_1 st).*1 ∧ core_1 st !! n = None)
                         (neighbors G1 G1_node)))
  (* look ahead 2: R_new *)
  && bool_decide
       (length (filter (λ n, n ∉ (inout_2 st).*1) (neighbors G2 G2_node))
        ≤ length (filter (λ n, n ∉ (inout_1 st).*1) (neighbors G1 G1_node))).

(** [ElementGraphMatcher.semantic_feasibility] *)
Definition semantic_feasibility (node1 : V1) (node2 : V2) : result bool :=
  elem1 ← attribute G1 node1 "element";
  elem2 ← attribute G2 node2 "element";
  Ok (bool_decide (elem1 = elem2)).

(** The loop of [match] over the candidate pairs.  [recur] is the
    search from the state that a feasible pair leads to; when it is
    over the state is restored ([restore_push] below shows that this
    gives [st] back) and the loop goes on. *)
Definition try_pairs (recur : GMState V1 V2 → trace (gmap V1 V2)) st
  : list (V1 * V2) → trace (gmap V1 V2) :=
  fix loop (pairs : list (V1 * V2)) : trace (gmap V1 V2) :=
    match pairs with
    | [] => Stop
    | (G1_node, G2_node) :: pairs' =>
        if syntactic_feasibility st G1_node G2_node
        then
          match semantic_feasibility G1_node G2_node with
          | Raise e => Throw e
          | Ok true => tapp (recur (push st G1_node G2_node)) (loop pairs')
          | Ok false => loop pairs'
          end
        else loop pairs'
    end.

(** [GraphMatcher.match]; [limit] is the depth of recursion that Python
    allows. *)
Fixpoint match_ (limit : nat) st : trace (gmap V1 V2) :=
  match limit with
  | 0 => Throw RecursionError
  | S limit' =>
      if bool_decide (size (core_1 st) = number_of_nodes G2)
      then Emit (core_1 st) Stop
      else
        match candidate_pairs_iter st with
        | Raise e => Throw e
        | Ok pairs => try_pairs (match_ limit') st pairs
        end
  end.

(** [subgraph_isomorphisms_iter] of [ElementGraphMatcher]: the search
    from the state at hand.  The constructor of the matcher makes sure
    that the recursion may go as deep as [G2] has nodes, and one more. *)
Definition subgraph_isomorphisms_iter st : trace (gmap V1 V2) :=
  match_ (S (number_of_nodes G2)) st.
End Matcher.

(** ** isomorphism *)

(** [sorted(items, key=..., reverse=True)], the keys being given with the
    items: a stable sort, largest key first. *)
Fixpoint insert_desc {X : Type} (k : nat) (x : X) (l : list (nat * X))
  : list (nat * X) :=
  match l with
  | [] => [(k, x)]
  | (k', y) :: l' =>
      if k' <=? k then (k, x) :: l else (k', y) :: insert_desc k x l'
  end.

Definition sorted_desc {X : Type} (l : list (nat * X)) : list (nat * X) :=
  foldr (λ kx acc, insert_desc kx.1 kx.2 acc) [] l.

Section Isomorphism.
Context {V1 V2 : Type} `{Countable V1, Countable V2}.
Context {A B1 B2 : Type} `{Countable A}.
Variables (reference : Graph V1 A B1) (residue : Graph V2 A B2).

(** [H_idxs = [idx for idx in residue if residue.degree(idx) == 1]] *)
Definition H_idxs : list V2 :=
  filter (λ idx, degree residue idx = 1) (nodes residue).

(** [heavy_res]: the residue without the nodes of degree one. *)
Definition heavy_res : Graph V2 A B2 := remove_nodes_from residue H_idxs.

(** [{v: k for k, v in match.items()}] *)
Definition reverse_dict (match_ : gmap V1 V2) : gmap V2 V1 :=
  foldl (λ r kv, <[kv.2 := kv.1]> r) ∅ (map_to_list match_).

(** [H_names]: the neighbours of degree one of [ref_neighbor], by
    atom name. *)
Definition H_names_of (ref_neighbor : V1) : result (gmap A (list V1)) :=
  foldl (λ acc idx,
           H_names ← acc;
           if bool_decide (degree reference idx = 1)
           then name ← attribute reference idx "atomname";
                Ok (<[name := default [] (H_names !! name) ++ [idx]]> H_names)
           else Ok H_names)
        (Ok ∅) (neighbors reference ref_neighbor).

(** The body of [for res_H_idx in H_idxs], on [match] and
    [reverse_match]. *)
Definition extend_leaf (mr : gmap V1 V2 * gmap V2 V1) (res_H_idx : V2)
  : result (gmap V1 V2 * gmap V2 V1) :=
  let '(match_, reverse_match) := mr in
  match head (neighbors residue res_H_idx) with
  | None => Raise IndexError
  | Some res_neighbor =>
      match reverse_match !! res_neighbor with
      | None => Ok mr
      | Some ref_neighbor =>
          H_names ← H_names_of ref_neighbor;
          res_H_name ← attribute residue res_H_idx "atomname";
          match H_names !! res_H_name with
          | Some [ref_H_idx] =>
              if decide (match_ !! ref_H_idx = None)
              then
                elem1 ← attribute reference ref_H_idx "element";
                elem2 ← attribute residue res_H_idx "element";
                if decide (elem1 = elem2)
                then Ok (<[ref_H_idx := res_H_idx]> match_,
                         <[res_H_idx := ref_H_idx]> reverse_match)
                else Ok mr
              else Ok mr
          | _ => Ok mr
          end
      end
  end.

(** [for res_H_idx in H_idxs: ...] *)
Definition extend_leaves (match_ : gmap V1 V2)
  : result (gmap V1 V2 * gmap V2 V1) :=
  foldl (λ acc res_H_idx, mr ← acc; extend_leaf mr res_H_idx)
        (Ok (match_, reverse_dict match_)) H_idxs.

(** The body of [for match in first_matches]: what is added to
    [matches]. *)
Definition completions (match_ : gmap V1 V2) : result (list (gmap V1 V2)) :=
  mr ← extend_leaves match_;
  let GM_large := MkState mr.1 mr.2 [] [] in
  let outcome := subgraph_isomorphisms_iter reference residue GM_large in
  if decide (mr.1 = ∅) then exhaust outcome else islice1 outcome.

Definition isomorphism : result (list (gmap V1 V2)) :=
  first_matches ←
    exhaust (subgraph_isomorphisms_iter reference heavy_res initialize);
  matches ← foldl (λ acc match_,
                     matches ← acc;
                     found ← completions match_;
                     Ok (matches ++ found))
                  (Ok []) first_matches;
  rated ← mapM (λ m, k ← rate_match reference residue m; Ok (k, m)) matches;
  Ok (snd <$> sorted_desc rated).
End Isomorphism.

(** ** Notions used to state the properties of the matches *)

(** No two keys of the mapping have the same value. *)
Definition injective {K W : Type} `{Countable K} (m : gmap K W) : Prop :=
  ∀ k1 k2 v, m !! k1 = Some v → m !! k2 = Some v → k1 = k2.

(** A graph as networkx holds it: every node once, every edge between
    nodes of the graph. *)
Definition wf_graph {V A B : Type} `{Countable V} (G : Graph V A B) : bool :=
  bool_decide (NoDup (nodes G))
  && forallb (λ e, bool_decide (e.1.1 ∈ nodes G) && bool_decide (e.1.2 ∈ nodes G))
             (g_edge G).

(** Every node of the graph has the attribute [name]. *)
Definition populated {V A B : Type} `{Countable V} (G : Graph V A B)
    (name : string) : bool :=
  forallb (λ n, match attribute G n name with Ok _ => true | Raise _ => false end)
          (nodes G).

(** The generator ends without an exception. *)
Fixpoint ends_well {X : Type} (t : trace X) : Prop :=
  match t with
  | Stop => True
  | Throw _ => False
  | Emit _ t' => ends_well t'
  end.

Section MatcherNotions.
Context {V1 V2 : Type} `{Countable V1, Countable V2} {A B1 B2 : Type}.
Variables (G1 : Graph V1 A B1) (G2 : Graph V2 A B2).

(** A mapping with its inverse, between nodes of the two graphs that
    carry the same element. *)
Record sound_core (m : gmap V1 V2) (r : gmap V2 V1) : Prop := {
  sc_inverse : ∀ a b, m !! a = Some b ↔ r !! b = Some a;
  sc_nodes : ∀ a b, m !! a = Some b → a ∈ nodes G1 ∧ b ∈ nodes G2;
  sc_element : ∀ a b, m !! a = Some b →
    ∃ x, attribute G1 a "element" = Ok x ∧ attribute G2 b "element" = Ok x
}.

(** A state of the matcher whose mapping is sound and whose border is
    made of nodes of the graphs. *)
Record consistent (st : GMState V1 V2) : Prop := {
  c_core : sound_core (core_1 st) (core_2 st);
  c_inout_1 : ∀ n, n ∈ (inout_1 st).*1 → n ∈ nodes G1;
  c_inout_2 : ∀ n, n ∈ (inout_2 st).*1 → n ∈ nodes G2
}.

(** The nodes of [G2] that the state leaves unmapped. *)
Definition unmapped (st : GMState V1 V2) : list V2 :=
  filter (λ n, core_2 st !! n = None) (nodes G2).
End MatcherNotions.

(** The depths recorded in the [inout] vectors do not exceed the size of
    the mapping: the states of a search that starts with empty vectors are
    such. *)
Definition shallow {V1 V2 : Type} `{Countable V1, Countable V2}
    (st : GMState V1 V2) : Prop :=
  Forall (λ nd, nd.2 ≤ size (core_1 st)) (inout_1 st)
  ∧ Forall (λ nd, nd.2 ≤ size (core_1 st)) (inout_2 st).

(** ** Notions used to state the properties of [isomorphism] *)

Section IsomorphismNotions.
Context {V1 V2 : Type} `{Countable V1, Countable V2}.
Context {A B1 B2 : Type} `{Countable A}.
Variables (reference : Graph V1 A B1) (residue : Graph V2 A B2).

(** The neighbours of degree one of [ref_neighbor] that are called
    [name]. *)
Definition leaf_candidates (ref_neighbor : V1) (name : A) : list V1 :=
  filter (λ idx, degree reference idx = 1
                 ∧ attribute reference idx "atomname" = Ok name)
         (neighbors reference ref_neighbor).

(** The pair [ref], [res] is one that the extension by leaves adds to the
    heavy match [match0]: [res] is a leaf whose neighbour is heavy and
    mapped; among the neighbours of degree one of the image of that
    neighbour, [ref] is the only one with the atom name of [res]; [ref]
    is not in the match; the two carry the same element. *)
Record leaf_added (match0 : gmap V1 V2) (ref : V1) (res : V2) : Prop := {
  la_leaf : degree residue res = 1;
  la_fresh : match0 !! ref = None;
  la_partner :
    ∃ res_neighbor ref_neighbor name x,
      neighbors residue res = [res_neighbor]
      ∧ degree residue res_neighbor ≠ 1
      ∧ match0 !! ref_neighbor = Some res_neighbor
      ∧ attribute residue res "atomname" = Ok name
      ∧ leaf_candidates ref_neighbor name = [ref]
      ∧ attribute reference ref "element" = Ok x
      ∧ attribute residue res "element" = Ok x
}.

(** What holds of [match] and [reverse_match] while the leaves are
    visited. *)
Record leaves_extended (match0 match_ : gmap V1 V2) (reverse_match : gmap V2 V1)
  : Prop := {
  le_sound : sound_core reference residue match_ reverse_match;
  le_heavy : match0 ⊆ match_;
  le_added : ∀ ref res, match_ !! ref = Some res →
    match0 !! ref = Some res ∨ leaf_added match0 ref res
}.

(** [match] and [reverse_match] once the leaves [visited] have been
    visited: the loop of [extend_leaves] over them. *)
Definition visit_leaves (match_ : gmap V1 V2) (visited : list V2)
  : result (gmap V1 V2 * gmap V2 V1) :=
  foldl (λ acc res_H_idx, mr ← acc; extend_leaf reference residue mr res_H_idx)
        (Ok (match_, reverse_dict match_)) visited.

(** The visit of the leaf [res] adds the pair [ref], [res] to the
    dictionaries [match_] and [reverse_match] as they are when the leaf
    is visited: the neighbour of the leaf is mapped, [ref] is the only
    neighbour of degree one of its image that has the atom name of the
    leaf, [ref] is not in [match_], and the two carry the same
    element. *)
Definition visit_adds (match_ : gmap V1 V2) (reverse_match : gmap V2 V1)
    (ref : V1) (res : V2) : Prop :=
  ∃ res_neighbor ref_neighbor name x,
    head (neighbors residue res) = Some res_neighbor
    ∧ reverse_match !! res_neighbor = Some ref_neighbor
    ∧ attribute residue res "atomname" = Ok name
    ∧ leaf_candidates ref_neighbor name = [ref]
    ∧ match_ !! ref = None
    ∧ attribute reference ref "element" = Ok x
    ∧ attribute residue res "element" = Ok x.
End IsomorphismNotions.

Section HeavyMatch.
Context {V1 V2 : Type} `{Countable V1, Countable V2} {A B1 B2 : Type}.
Variables (reference : Graph V1 A B1) (residue : Graph V2 A B2).

(** A match of heavy atoms, as the first search gives them: injective,
    between nodes of the same element, onto nodes of the residue of
    degree other than one. *)
Definition heavy_match (match0 : gmap V1 V2) : Prop :=
  injective match0
  ∧ ∀ ref res, match0 !! ref = Some res →
      ref ∈ nodes reference ∧ res ∈ nodes residue
      ∧ degree residue res ≠ 1
      ∧ ∃ x, attribute reference ref "element" = Ok x
             ∧ attribute residue res "element" = Ok x.
End HeavyMatch.

Section IsomorphismRun.
Context {V1 V2 : Type} `{Countable V1, Countable V2}.
Context {A B1 B2 : Type} `{Countable A}.
Variables (reference : Graph V1 A B1) (residue : Graph V2 A B2).

(** The search over the whole residue, seeded with [match_] and
    [reverse_match]: what it yields. *)
Definition outcome_of (match_ : gmap V1 V2) (reverse_match : gmap V2 V1)
  : list (gmap V1 V2) :=
  yielded (subgraph_isomorphisms_iter reference residue
             (MkState match_ reverse_match [] [])).

(** [found] is what the heavy match [match0] adds to [matches]: its
    extension by leaves seeds the search over the whole residue, of
    which the first result is taken, or every result when the seed is
    empty. *)
Definition completes (match0 : gmap V1 V2) (found : list (gmap V1 V2))
  : Prop :=
  ∃ match' reverse',
    extend_leaves reference residue match0 = Ok (match', reverse')
    ∧ leaves_extended reference residue match0 match' reverse'
    ∧ found = if decide (match' = ∅)
              then outcome_of match' reverse'
              else take 1 (outcome_of match' reverse').
End IsomorphismRun.

(** ** Small molecules, for the examples *)

(** An atom with its element and its name. *)
Definition atom (n : nat) (el nm : string) : nat * gmap string string :=
  (n, <["element" := el]> (<["atomname" := nm]> ∅)).

Definition molecule (atoms : list (nat * gmap string string))
    (bonds : list (nat * nat)) : Graph nat string () :=
  MkGraph atoms ((λ e, (e, ∅)) <$> bonds).

(** Two carbons without a bond. *)
Definition two_carbons : Graph nat string () :=
  molecule [atom 1 "C" "C1"; atom 2 "C" "C2"] [].

(** A carbon without a neighbour, and a carbon with two hydrogens. *)
Definition lone_carbon : Graph nat string () :=
  molecule [atom 1 "C" "C1"] [].

Definition carbene : Graph nat string () :=
  molecule [atom 1 "C" "C1"; atom 2 "H" "H1"; atom 3 "H" "H2"]
           [(1, 2); (1, 3)].

Definition methyl : Graph nat string () :=
  molecule [atom 1 "C" "C1"; atom 2 "H" "H1"; atom 3 "H" "H2"; atom 4 "H" "H3"]
           [(1, 2); (1, 3); (1, 4)].

Definition ethane : Graph nat string () :=
  molecule [atom 1 "C" "C1"; atom 2 "C" "C2"; atom 3 "H" "H1"; atom 4 "H" "H2";
            atom 5 "H" "H3"; atom 6 "H" "H4"; atom 7 "H" "H5"; atom 8 "H" "H6"]
           [(1, 2); (1, 3); (1, 4); (1, 5); (2, 6); (2, 7); (2, 8)].

(** A carbene next to a carbon without a neighbour. *)
Definition carbene_and_carbon : Graph nat string () :=
  molecule [atom 1 "C" "C1"; atom 2 "H" "H1"; atom 3 "H" "H2"; atom 4 "C" "C2"]
           [(1, 2); (1, 3)].

(** * Notions used to state and prove the properties *)

(** ** The score of a match *)

Section RateNotions.
Context {V1 V2 : Type} `{Countable V1, Countable V2}.
Context {A B1 B2 : Type} `{EqDecision A}.
Variables (residue : Graph V1 A B1) (bead : Graph V2 A B2).

(** [G.node[n].get('atomname')]: [None] when the attribute is missing. *)
Definition atomname_of {V B} `{Countable V} (G : Graph V A B) (n : V) : option A :=
  node_attrs G n ≫= (λ d, d !! "atomname").

Definition names_equal (p : V1 * V2) : Prop :=
  atomname_of residue p.1 = atomname_of bead p.2.

#[global] Instance names_equal_dec p : Decision (names_equal p).
Proof using All. unfold names_equal. apply _. Defined.

(** The number of pairs of the match whose nodes carry the same atom
    name. *)
Definition rate_score (m : gmap V1 V2) : nat :=
  size (filter names_equal m).

Definition rate_sum (ps : list (V1 * V2)) : result nat :=
  foldr (λ p acc, x ← rate_pair residue bead p; s ← acc; Ok (x + s)) (Ok 0) ps.
End RateNotions.

Definition atoms (l : list (nat * option string)) : list (nat * gmap string string) :=
  (λ p, (p.1, match p.2 with Some a => {["atomname" := a]} | None => ∅ end)) <$> l.

Definition rate_residue : Graph nat string () :=
  MkGraph (atoms [(1, Some "CA"); (2, None); (3, Some "N")]) [].
Definition rate_bead : Graph nat string () :=
  MkGraph (atoms [(7, Some "CA"); (8, None); (9, Some "O")]) [].

(** ** The levels of the search for cliques *)

Section CliqueSearchNotions.
Context {V : Type} `{Countable V} {A B : Type}.
Variable G : Graph V A B.
Implicit Types (Q C subg cand ext : list V) (u v q : V).

(** [v] is adjacent to every node of [Q]. *)
Definition common Q v : Prop := ∀ x, x ∈ Q → adj G x v = true.

#[global] Instance common_dec Q v : Decision (common Q v).
Proof.
  refine (cast_if (decide (Forall (λ x, adj G x v = true) Q)));
    unfold common; rewrite Forall_forall in *; done.
Defined.

(** The preconditions of a level of the search. *)
Record level Q subg : Prop := {
  level_clique : is_clique G Q;
  level_subg : ∀ v, v ∈ subg ↔ v ∈ nodes G ∧ common Q v
}.

Definition reports_maximal (Cs : list (list V)) : Prop :=
  ∀ C, C ∈ Cs → maximal_clique G C.

Definition reports (C : list V) (Cs : list (list V)) : Prop :=
  ∃ C', C' ∈ Cs ∧ C' ≡ₚ C.

(** What a level of the search owes to the maximal clique [C]. *)
Record pending Q subg cand C : Prop := {
  pending_nodup : NoDup cand;
  pending_subg : ∀ v, v ∈ cand → v ∈ subg;
  pending_base : ∀ x, x ∈ Q → x ∈ C;
  pending_rest : ∀ v, v ∈ C → v ∉ Q → v ∈ cand
}.
End CliqueSearchNotions.

(** ** The pairs of the two product graphs *)

Section TwoPhaseNotions.
Context {V1 V2 : Type} `{Countable V1, Countable V2}.
Context {A B : Type} `{EqDecision A}.
Variables (graph1 : Graph V1 A B) (graph2 : Graph V2 A B).
Variable attributes : list string.

Definition heavy_pair (it : V1 * gmap string A * (V2 * gmap string A)) : bool :=
  attrs_agree attributes it.1.2 it.2.2
  && (bool_decide (degree graph1 it.1.1 ≠ 1)
      && bool_decide (degree graph2 it.2.1 ≠ 1)).

Definition leaf_pair (clique : list (V1 * V2))
    (it : V1 * gmap string A * (V2 * gmap string A)) : bool :=
  (bool_decide (degree graph1 it.1.1 ≤ 1) || bool_decide (degree graph2 it.2.1 ≤ 1))
  && attrs_agree attributes it.1.2 it.2.2
  && neighbours_agree graph1 graph2 (dict clique) it.1.1 it.2.1.
End TwoPhaseNotions.

(** The pairs that the specification admits to the second-phase product
    besides the seed, in its own terms: a pair of degree at most one
    (read as: one of its nodes is), compatible in the attributes, whose
    neighbour mapped by the seed agrees between the graphs, or without a
    neighbour in a graph. *)
Definition spec_leaf_pair {V1 V2 A B : Type} `{Countable V1, Countable V2}
    `{EqDecision A} (graph1 : Graph V1 A B) (graph2 : Graph V2 A B)
    (attributes : list string) (seed : gmap V1 V2) (a : V1) (b : V2) : Prop :=
  ∃ node1 node2,
    (a, node1) ∈ g_node graph1 ∧ (b, node2) ∈ g_node graph2
    ∧ (degree graph1 a ≤ 1 ∨ degree graph2 b ≤ 1)
    ∧ attrs_agree attributes node1 node2 = true
    ∧ ((∃ n1 n2, n1 ∈ neighbors graph1 a ∧ n2 ∈ neighbors graph2 b
                 ∧ seed !! n1 = Some n2)
       ∨ neighbors graph1 a = [] ∨ neighbors graph2 b = []).

(** Two atoms joined by a bond. *)
Definition bond : Graph nat string () :=
  MkGraph [(1, ∅); (2, ∅)] [(1, 2, ∅)].

(** ** The quotient graph *)

(** The two nodes are [u] and [v], in one order or the other. *)
Definition same_pair {V : Type} (u v x y : V) : Prop :=
  (x = u ∧ y = v) ∨ (x = v ∧ y = u).

Section MergeNotions.
Context {V : Type} `{Countable V} {A W X : Type}.
Variables (wadd : W → W → W) (wone : W).
Variable bm : gmap V nat.

(** What holds of the quotient graph once the edges [es] are merged. *)
Record merged_into (ns : list nat) (CG : Graph nat (block_attr V A W X) W)
    (es : list (V * V * gmap string W)) : Prop := {
  mi_nodes : nodes CG = ns;
  mi_loops : Forall (λ ce, ce.1.1 ≠ ce.1.2) (g_edge CG);
  mi_once : ∀ i j, length (filter (λ ce, joins i j ce = true) (g_edge CG)) ≤ 1;
  mi_weight : ∀ i j, i ≠ j →
    edge_attrs CG i j
    = (λ w : W, ({["weight" := w]} : gmap string W))
        <$> merged wadd (weight_of wone <$> crossing bm i j es)
}.
End MergeNotions.

Section BlockNotions.
Context {V : Type} `{Countable V} {A W : Type}.
Variable G : Graph V A W.
Implicit Types (partitions : list (list V)).
Implicit Types (bm : gmap V nat).

(** [block_mapping.update(dict.fromkeys(us, i))] *)
Definition assign bm (i : nat) (us : list V) : gmap V nat :=
  foldl (λ bm u, <[u := i]> bm) bm us.

(** The block of a node: the last partition that lists it. *)
Definition owned partitions (u : V) (i : nat) : Prop :=
  u ∈ nodes G
  ∧ (∃ idxs, partitions !! i = Some idxs ∧ u ∈ idxs)
  ∧ ∀ j idxs, i < j → partitions !! j = Some idxs → u ∉ idxs.

Definition assign_all partitions (k : nat) bm : gmap V nat :=
  foldl (λ bm ip, assign bm ip.1 (nodes (subgraph G ip.2))) bm
        (zip (seq k (length partitions)) partitions).
End BlockNotions.

Section QuotientNotions.
Context {V : Type} `{Countable V} {A W X : Type}.
Variable G : Graph V A W.

(** The [graph] attribute of a block is its subgraph, unless the caller
    supplies an attribute of that name. *)
Definition holds_graph (idxs : list V) (d : gmap string (block_attr V A W X))
  : Prop :=
  d !! "graph" = Some (BGraph (subgraph G idxs))
  ∨ ∃ x, d !! "graph" = Some (BUser x).

(** The attributes of the caller can be assigned: none is called
    [graph], and each has a value for the blocks up to [n]. *)
Definition assignable (attrs : list (string * list X)) (n : nat) : Prop :=
  Forall (λ kv : string * list X, kv.1 ≠ "graph" ∧ n ≤ length kv.2) attrs.
End QuotientNotions.

(** Python floats are IEEE 754 binary64 numbers. *)
Definition f64_add : spec_float → spec_float → spec_float := SFadd 53 1024.
Definition f64_one : spec_float := S754_finite false (2 ^ 52) (-52).
Definition f64_two : spec_float := S754_finite false (2 ^ 52) (-51).
Definition f64_three : spec_float := S754_finite false (3 * 2 ^ 51) (-51).

(** Four atoms in two blocks: two weighted bonds between the blocks and
    one bond inside the first. *)
Definition two_blocks : Graph nat string spec_float :=
  MkGraph [(1, ∅); (2, ∅); (3, ∅); (4, ∅)]
          [(1, 3, {["weight" := f64_two]}); (2, 3, {["weight" := f64_one]});
           (1, 2, ∅)].

(** ** The searches of [isomorphism] *)

Section SearchNotions.
Context {V1 V2 : Type} `{Countable V1, Countable V2}.
Context {A B1 B2 : Type} `{EqDecision A}.
Variables (G1 : Graph V1 A B1) (G2 : Graph V2 A B2).

(** A mapping that extends the one of [st] and is sound. *)
Definition extends (st : GMState V1 V2) (m : gmap V1 V2) : Prop :=
  core_1 st ⊆ m ∧ ∃ r, sound_core G1 G2 m r.

(** The matches of the heavy atoms of [G2] in [G1]. *)
Definition first_matches : list (gmap V1 V2) :=
  yielded (subgraph_isomorphisms_iter G1 (heavy_res G2) initialize).
End SearchNotions.

(** Largest key first. *)
Definition descending {X : Type} (l : list (nat * X)) : Prop :=
  StronglySorted (λ p q, q.1 ≤ p.1) l.

(** ** The identity among the matches of a graph with a part of itself *)

(** A mapping that sends every key to itself. *)
Definition identical {V : Type} `{Countable V} (m : gmap V V) : Prop :=
  ∀ a b, m !! a = Some b → a = b.

Section IdentityNotions.
Context {V : Type} `{Countable V} {A B1 B2 : Type}.
Variables (G1 : Graph V A B1) (G2 : Graph V A B2).

(** [G2] is the part of [G1] on some of its nodes: the nodes keep their
    neighbours among the nodes that are kept, and their element. *)
Record part_of : Prop := {
  po_nodes : ∀ n, n ∈ nodes G2 → n ∈ nodes G1;
  po_neighbors : ∀ n, n ∈ nodes G2 →
    neighbors G2 n = filter (λ v, v ∈ nodes G2) (neighbors G1 n);
  po_element : ∀ n, n ∈ nodes G2 →
    attribute G2 n "element" = attribute G1 n "element"
}.

(** A state of the search whose mapping is a part of the identity, and
    whose two borders hold the same nodes of [G2]. *)
Record on_identity (st : GMState V V) : Prop := {
  oi_core : identical (core_1 st);
  oi_same : core_2 st = core_1 st;
  oi_in : ∀ v, v ∈ (inout_2 st).*1 → v ∈ (inout_1 st).*1;
  oi_out : ∀ v, v ∈ (inout_1 st).*1 → v ∈ nodes G2 → v ∈ (inout_2 st).*1
}.
End IdentityNotions.

(** ** add_element_attr *)

Section AddElementAttr.
Context {V : Type} `{Countable V} {A B : Type}.
(** [first_alpha] of vermouth/utils.py, which is not among the sources
    at hand: any function from an atom name to an element, or to an
    exception. *)
Variable first_alpha : A → result A.

(** What escapes from the [try] block: a [KeyError] or a [ValueError]
    is replaced by a [ValueError], any other exception passes. *)
Definition guess_error (e : exn) : exn :=
  match e with
  | KeyError | ValueError => ValueError
  | _ => e
  end.

(** The loop over the nodes.  The attribute dictionaries are changed in
    place, so that the nodes visited before an exception keep their new
    element: the function returns the dictionaries as they are when it
    ends, with [Ok] or with the exception. *)
Fixpoint add_element_nodes (ns : list (V * gmap string A))
  : list (V * gmap string A) * result () :=
  match ns with
  | [] => ([], Ok ())
  | (node_idx, node) :: ns' =>
      match node !! "element" with
      | Some _ =>
          let '(rest, r) := add_element_nodes ns' in ((node_idx, node) :: rest, r)
      | None =>
          match node !! "atomname" with
          | None => (ns, Raise ValueError)
          | Some atomname =>
              match first_alpha atomname with
              | Ok element =>
                  let '(rest, r) := add_element_nodes ns' in
                  ((node_idx, <["element" := element]> node) :: rest, r)
              | Raise e => (ns, Raise (guess_error e))
              end
          end
      end
  end.

(** [add_element_attr(molecule)]: the molecule afterwards, and how the
    call ends. *)
Definition add_element_attr (molecule : Graph V A B)
  : Graph V A B * result () :=
  let '(ns, r) := add_element_nodes (g_node molecule) in
  (MkGraph ns (g_edge molecule), r).
End AddElementAttr.

(** Notions used to state the properties of [add_element_attr]. *)

Section AddElementNotions.
Context {V : Type} `{Countable V} {A B : Type}.
Variable first_alpha : A → result A.
Implicit Types (ns : list (V * gmap string A)) (node : gmap string A).

(** The element of a node can be found: it is there, or the name of the
    atom gives it. *)
Definition guessable node : Prop :=
  is_Some (node !! "element")
  ∨ ∃ atomname element,
      node !! "atomname" = Some atomname ∧ first_alpha atomname = Ok element.

(** What the call makes of the attributes of a node that it passes. *)
Definition with_element node node' : Prop :=
  (is_Some (node !! "element") ∧ node' = node)
  ∨ (node !! "element" = None
     ∧ ∃ atomname element,
         node !! "atomname" = Some atomname
         ∧ first_alpha atomname = Ok element
         ∧ node' = <["element" := element]> node).

(** The node at which the call stops with the exception [e]. *)
Definition stops_at node (e : exn) : Prop :=
  node !! "element" = None
  ∧ ((node !! "atomname" = None ∧ e = ValueError)
     ∨ ∃ atomname e0, node !! "atomname" = Some atomname
                      ∧ first_alpha atomname = Raise e0
                      ∧ e = guess_error e0).
End AddElementNotions.

(** ** make_residue_graph *)

Section MakeResidueGraph.
Context {V : Type} `{Countable V} {A W : Type} `{EqDecision A}.
(** Python's [<] on the values of the attributes [chain], [resid] and
    [resname]. *)
Variable lt : A → A → bool.
Variables (wadd : W → W → W) (wone : W).

(** [keyfunc(node_idx)]; a missing attribute raises [KeyError]. *)
Definition keyfunc (mol : Graph V A W) (node_idx : V) : result (A * A * A) :=
  chain ← attribute mol node_idx "chain";
  resid ← attribute mol node_idx "resid";
  resname ← attribute mol node_idx "resname";
  Ok (chain, resid, resname).

(** [<] on tuples: the first components that differ decide. *)
Definition key_lt (k1 k2 : A * A * A) : bool :=
  if decide (k1.1.1 ≠ k2.1.1) then lt k1.1.1 k2.1.1
  else if decide (k1.1.2 ≠ k2.1.2) then lt k1.1.2 k2.1.2
  else if decide (k1.2 ≠ k2.2) then lt k1.2 k2.2
  else false.

(** [sorted(items, key=...)], the keys being given with the items: the
    stable sort, smallest key first.  When [<] is a strict total order
    there is one such arrangement, whatever the algorithm. *)
Fixpoint insert_asc {K X : Type} (klt : K → K → bool) (k : K) (x : X)
    (l : list (K * X)) : list (K * X) :=
  match l with
  | [] => [(k, x)]
  | (k', y) :: l' =>
      if klt k' k then (k', y) :: insert_asc klt k x l' else (k, x) :: l
  end.

Definition sorted_asc {K X : Type} (klt : K → K → bool) (l : list (K * X))
  : list (K * X) :=
  foldr (λ kx acc, insert_asc klt kx.1 kx.2 acc) [] l.

(** [itertools.groupby(items, key)], the keys being given with the
    items: the runs of items with equal keys. *)
Fixpoint groupby {K X : Type} `{EqDecision K} (l : list (K * X))
  : list (K * list X) :=
  match l with
  | [] => []
  | (k, x) :: l' =>
      match groupby l' with
      | (k', grp) :: grps =>
          if decide (k = k') then (k, x :: grp) :: grps
          else (k, [x]) :: (k', grp) :: grps
      | [] => [(k, [x])]
      end
  end.

Definition make_residue_graph (mol : Graph V A W)
  : result (Graph nat (block_attr V A W A) W) :=
  keyed ← mapM (λ node_idx, key ← keyfunc mol node_idx; Ok (key, node_idx))
               (nodes mol);
  let nodes := sorted_asc key_lt keyed in
  let groups := groupby nodes in
  let keys := fst <$> groups in
  let grps := snd <$> groups in
  let chain := (λ k : A * A * A, k.1.1) <$> keys in
  let resids := (λ k : A * A * A, k.1.2) <$> keys in
  let resnames := (λ k : A * A * A, k.2) <$> keys in
  blockmodel wadd wone mol grps
    [("chain", chain); ("resid", resids); ("resname", resnames);
     ("atomname", resnames)].
End MakeResidueGraph.

(** An instance of [first_alpha] for the examples: the first character
    of the name, and [ValueError] for the empty name. *)
Definition first_character (name : string) : result string :=
  match name with
  | EmptyString => Raise ValueError
  | String c _ => Ok (String c EmptyString)
  end.

(** Three atoms: one with its element, one with a name only, one with
    neither. *)
Definition named_atoms : Graph nat string () :=
  MkGraph [(1, {["element" := "C"; "atomname" := "CA"]});
           (2, {["atomname" := "N1"]})] [(1, 2, ∅)].

Definition nameless_atoms : Graph nat string () :=
  MkGraph [(1, {["atomname" := "CA"]}); (2, ∅); (3, {["atomname" := "N1"]})] [].

(** Notions used to state the properties of [make_residue_graph]. *)

(** [klt] is a strict total order. *)
Record strict_total {K : Type} (klt : K → K → bool) : Prop := {
  st_irrefl : ∀ k, klt k k = false;
  st_trans : ∀ k1 k2 k3, klt k1 k2 = true → klt k2 k3 = true → klt k1 k3 = true;
  st_total : ∀ k1 k2, k1 ≠ k2 → klt k1 k2 = true ∨ klt k2 k1 = true
}.

(** No item is followed by one with a smaller key. *)
Definition ascending {K X : Type} (klt : K → K → bool) (l : list (K * X)) : Prop :=
  StronglySorted (λ p q, klt q.1 p.1 = false) l.

(** The items of the groups, each with the key of its group. *)
Definition ungroup {K X : Type} (groups : list (K * list X)) : list (K * X) :=
  groups ≫= (λ kg, (λ x, (kg.1, x)) <$> kg.2).

(** Four atoms of two residues, the attributes being numbers: a chain
    (1), residue numbers (1 and 2) and residue names (7 and 8). *)
Definition residue_atom (n chain resid resname : nat) : nat * gmap string nat :=
  (n, {["chain" := chain; "resid" := resid; "resname" := resname]}).

Definition two_residues : Graph nat nat nat :=
  MkGraph [residue_atom 1 1 2 8; residue_atom 2 1 1 7;
           residue_atom 3 1 2 8; residue_atom 4 1 1 7]
          [(1, 3, ∅); (2, 4, ∅); (3, 4, ∅)].

(** An atom without a residue name. *)
Definition unnamed_residue : Graph nat nat nat :=
  MkGraph [residue_atom 1 1 1 7; (2, {["chain" := 1; "resid" := 1]})] [].

(** A state of the matcher seeded with the carbon of the methyl on the
    first carbon of ethane and a hydrogen on a hydrogen of that carbon. *)
Definition seeded_methyl : GMState nat nat :=
  MkState {[1 := 1; 3 := 2]} {[1 := 1; 2 := 3]} [] [].

(** * Facts about the graph operations *)

Section GraphFacts.
Context {V : Type} `{Countable V} {A B : Type}.
Implicit Types (G : Graph V A B) (u v n x y : V).

Lemma joins_sym u v (e : V * V * gmap string B) : joins u v e = joins v u e.
Proof. unfold joins. apply orb_comm. Qed.

Lemma joins_spec u v (e : V * V * gmap string B) :
  joins u v e = true ↔ (e.1.1 = u ∧ e.1.2 = v) ∨ (e.1.1 = v ∧ e.1.2 = u).
Proof.
  unfold joins. rewrite orb_true_iff, !bool_decide_eq_true. done.
Qed.

Lemma has_edge_sym G u v : has_edge G u v = has_edge G v u.
Proof.
  unfold has_edge. induction (g_edge G) as [|e es IH]; [done|].
  simpl. by rewrite IH, joins_sym.
Qed.

Lemma has_edge_spec G u v :
  has_edge G u v = true ↔ ∃ e, e ∈ g_edge G ∧ joins u v e = true.
Proof.
  unfold has_edge. rewrite existsb_exists.
  by setoid_rewrite list_elem_of_In.
Qed.

Lemma edge_attrs_sym G u v : edge_attrs G u v = edge_attrs G v u.
Proof.
  unfold edge_attrs. f_equal. f_equal.
  apply list_find_ext. intros e. by rewrite joins_sym.
Qed.

Lemma has_node_spec G n : has_node G n = true ↔ n ∈ nodes G.
Proof. unfold has_node. apply bool_decide_eq_true. Qed.

Lemma nodes_add_node G n attrs :
  nodes (add_node G n attrs)
  = if has_node G n then nodes G else nodes G ++ [n].
Proof.
  unfold add_node, nodes. destruct (has_node G n); simpl.
  - rewrite <- list_fmap_compose. apply list_fmap_ext.
    intros i [m d] _. simpl. by case_decide.
  - by rewrite fmap_app.
Qed.

Lemma elem_of_nodes_add_node G n attrs x :
  x ∈ nodes (add_node G n attrs) ↔ x ∈ nodes G ∨ x = n.
Proof.
  rewrite nodes_add_node. destruct (has_node G n) eqn:E.
  - apply has_node_spec in E. naive_solver.
  - rewrite elem_of_app, list_elem_of_singleton. done.
Qed.

Lemma NoDup_nodes_add_node G n attrs :
  NoDup (nodes G) → NoDup (nodes (add_node G n attrs)).
Proof.
  intros HG. rewrite nodes_add_node. destruct (has_node G n) eqn:E; [done|].
  apply NoDup_app. split_and!; [done| |apply NoDup_singleton].
  intros x Hx ->%list_elem_of_singleton.
  apply has_node_spec in Hx. congruence.
Qed.

Lemma g_edge_add_node G n attrs : g_edge (add_node G n attrs) = g_edge G.
Proof. unfold add_node. by destruct (has_node G n). Qed.

Lemma has_edge_add_node G n attrs x y :
  has_edge (add_node G n attrs) x y = has_edge G x y.
Proof. unfold has_edge. by rewrite g_edge_add_node. Qed.

(** Adding an edge between two nodes of the graph leaves the nodes as
    they are. *)
Lemma nodes_add_edge G u v attrs :
  u ∈ nodes G → v ∈ nodes G → nodes (add_edge G u v attrs) = nodes G.
Proof.
  intros Hu%has_node_spec Hv%has_node_spec. unfold add_edge.
  rewrite Hu, Hv. by destruct (has_edge G u v).
Qed.

Lemma has_edge_add_edge G u v attrs x y :
  has_edge (add_edge G u v attrs) x y = true
  ↔ has_edge G x y = true ∨ (x = u ∧ y = v) ∨ (x = v ∧ y = u).
Proof.
  unfold add_edge.
  set (G1 := if has_node G u then G else add_node G u ∅).
  set (G2 := if has_node G1 v then G1 else add_node G1 v ∅).
  assert (HE : g_edge G2 = g_edge G).
  { unfold G2, G1. destruct (has_node G u);
      repeat (destruct (has_node _ v)); by rewrite ?g_edge_add_node. }
  assert (HE2 : ∀ a b, has_edge G2 a b = has_edge G a b).
  { intros. unfold has_edge. by rewrite HE. }
  destruct (has_edge G2 u v) eqn:Euv.
  - rewrite !has_edge_spec. simpl. rewrite HE. split.
    + intros (e & He & Hj). apply list_elem_of_fmap in He as (e0 & -> & He0).
      left. exists e0. split; [done|].
      destruct (joins u v e0); [|done]. rewrite joins_spec in Hj |- *. done.
    + intros [(e & He & Hj)|Hxy].
      * exists (if joins u v e then (e.1, attrs ∪ e.2) else e). split.
        -- apply list_elem_of_fmap. by exists e.
        -- destruct (joins u v e); [|done]. rewrite joins_spec in Hj |- *. done.
      * rewrite HE2 in Euv. apply has_edge_spec in Euv as (e & He & Hj).
        exists (e.1, attrs ∪ e.2). split.
        -- apply list_elem_of_fmap. exists e. by rewrite Hj.
        -- rewrite joins_spec in Hj |- *. simpl. naive_solver.
  - rewrite !has_edge_spec. simpl. rewrite HE.
    setoid_rewrite elem_of_app. setoid_rewrite list_elem_of_singleton. split.
    + intros (e & [He| ->] & Hj); [left; eauto|].
      right. rewrite joins_spec in Hj. simpl in Hj. naive_solver.
    + intros [(e & He & Hj)|Hxy]; [eauto|].
      exists (u, v, attrs). split; [by right|].
      rewrite joins_spec. simpl. naive_solver.
Qed.

Lemma add_edge_Forall (Φ : V * V * gmap string B → Prop) G u v attrs :
  Forall Φ (g_edge G) → Φ (u, v, attrs) →
  (∀ e, Φ e → joins u v e = true → Φ (e.1, attrs ∪ e.2)) →
  Forall Φ (g_edge (add_edge G u v attrs)).
Proof.
  intros HG Hnew Hupd. unfold add_edge.
  set (G1 := if has_node G u then G else add_node G u ∅).
  set (G2 := if has_node G1 v then G1 else add_node G1 v ∅).
  assert (HE : g_edge G2 = g_edge G).
  { unfold G2, G1. destruct (has_node G u);
      repeat (destruct (has_node _ v)); by rewrite ?g_edge_add_node. }
  destruct (has_edge G2 u v); simpl; rewrite HE.
  - apply Forall_fmap. eapply Forall_impl; [exact HG|].
    intros e He. simpl. destruct (joins u v e) eqn:Ej; [by apply Hupd|done].
  - apply Forall_app. split; [done|]. by apply Forall_singleton.
Qed.

Lemma edge_attrs_Some G u v d :
  edge_attrs G u v = Some d →
  ∃ e, e ∈ g_edge G ∧ joins u v e = true ∧ e.2 = d.
Proof.
  unfold edge_attrs. simpl.
  destruct (list_find _ (g_edge G)) as [[i e]|] eqn:E; [|done].
  intros [= <-]. apply list_find_Some in E as (Hi & Hj & _).
  exists e. split_and!; [|done..]. by eapply list_elem_of_lookup_2.
Qed.

Lemma has_edge_attrs G u v :
  has_edge G u v = true ↔ is_Some (edge_attrs G u v).
Proof.
  split.
  - intros (e & He & Hj)%has_edge_spec. unfold edge_attrs. simpl.
    destruct (list_find _ (g_edge G)) as [[i e']|] eqn:E; [by eexists|].
    apply list_find_None in E. rewrite Forall_forall in E. by destruct (E e He).
  - intros [d (e & He & Hj & _)%edge_attrs_Some]. apply has_edge_spec. eauto.
Qed.
End GraphFacts.

Section FoldFacts.
Context {V : Type} `{Countable V} {A B : Type} {X : Type}.
Implicit Types (G : Graph V A B) (l : list X).

Lemma foldl_pointwise {S : Type} (f g : S → X → S) l s :
  (∀ s x, f s x = g s x) → foldl f s l = foldl g s l.
Proof. intros E. revert s. induction l as [|x l IH]; simpl; intros; [done|]. by rewrite E, IH. Qed.

Variables (c : X → bool) (k : X → V) (a : X → gmap string A).

#[local] Abbreviation add_nodes_where G l :=
  (foldl (λ g it, if c it then add_node g (k it) (a it) else g) G l).

Lemma add_nodes_where_nodes l G x :
  x ∈ nodes (add_nodes_where G l)
  ↔ x ∈ nodes G ∨ ∃ it, it ∈ l ∧ c it = true ∧ k it = x.
Proof.
  revert G. induction l as [|it l IH]; intros G; simpl.
  - split; [by left|]. intros [?|(it & Hit & _)]; [done|]. by apply elem_of_nil in Hit.
  - simpl. rewrite IH. destruct (c it) eqn:Ec.
    + rewrite elem_of_nodes_add_node. split.
      * intros [[?| ->]|(it' & ? & ? & ?)]; [by left| |].
        -- right. exists it. split_and!; [left|done|done].
        -- right. exists it'. split_and!; [by right|done|done].
      * intros [?|(it' & [->|?]%elem_of_cons & ? & ?)]; [left; by left| |].
        -- left. by right.
        -- right. by exists it'.
    + split.
      * intros [?|(it' & ? & ? & ?)]; [by left|].
        right. exists it'. split_and!; [by right|done|done].
      * intros [?|(it' & [->|?]%elem_of_cons & ? & ?)]; [by left|congruence|].
        right. by exists it'.
Qed.

Lemma add_nodes_where_edges l G : g_edge (add_nodes_where G l) = g_edge G.
Proof.
  revert G. induction l as [|it l IH]; intros G; [done|].
  simpl. rewrite IH.
  destruct (c it); by rewrite ?g_edge_add_node.
Qed.

Lemma add_nodes_where_NoDup l G :
  NoDup (nodes G) → NoDup (nodes (add_nodes_where G l)).
Proof.
  revert G. induction l as [|it l IH]; intros G HG; [done|].
  simpl. apply IH.
  destruct (c it); [by apply NoDup_nodes_add_node|done].
Qed.

Variables (p q : X → V) (b : X → gmap string B).

#[local] Abbreviation add_edges_where G l :=
  (foldl (λ g it, if c it then add_edge g (p it) (q it) (b it) else g) G l).

Lemma add_edges_where_nodes l G :
  (∀ it, it ∈ l → p it ∈ nodes G ∧ q it ∈ nodes G) →
  nodes (add_edges_where G l) = nodes G.
Proof.
  revert G. induction l as [|it l IH]; intros G Hl; [done|].
  simpl.
  destruct (Hl it) as [Hp Hq]; [by left|].
  assert (HN : nodes (if c it then add_edge G (p it) (q it) (b it) else G) = nodes G).
  { destruct (c it); [by apply nodes_add_edge|done]. }
  rewrite IH; [done|]. intros it' Hit'. rewrite HN. apply Hl. by right.
Qed.

Lemma add_edges_where_Forall (Φ : V * V * gmap string B → Prop) l G :
  Forall Φ (g_edge G) →
  (∀ it, it ∈ l → Φ (p it, q it, b it)) →
  (∀ it e, it ∈ l → Φ e → joins (p it) (q it) e = true → Φ (e.1, b it ∪ e.2)) →
  Forall Φ (g_edge (add_edges_where G l)).
Proof.
  revert G. induction l as [|it l IH]; intros G HG Hnew Hupd; [done|].
  simpl. apply IH.
  - destruct (c it); [|done]. apply add_edge_Forall; [done|apply Hnew; left|].
    intros e. apply Hupd. left.
  - intros it' Hit'. apply Hnew. by right.
  - intros it' e Hit'. apply Hupd. by right.
Qed.

Lemma add_edges_where_has_edge l G x y :
  has_edge (add_edges_where G l) x y = true
  ↔ has_edge G x y = true
    ∨ ∃ it, it ∈ l ∧ c it = true
            ∧ ((x = p it ∧ y = q it) ∨ (x = q it ∧ y = p it)).
Proof.
  revert G. induction l as [|it l IH]; intros G.
  - simpl. split; [by left|]. intros [?|(it & Hit & _)]; [done|].
    by apply elem_of_nil in Hit.
  - simpl. rewrite IH. destruct (c it) eqn:Ec.
    + rewrite has_edge_add_edge. split.
      * intros [[?|?]|(it' & ? & ? & ?)]; [by left| |].
        -- right. exists it. split_and!; [left|done|done].
        -- right. exists it'. split_and!; [by right|done|done].
      * intros [?|(it' & [->|?]%elem_of_cons & ? & ?)]; [left; by left| |].
        -- left. by right.
        -- right. by exists it'.
    + split.
      * intros [?|(it' & ? & ? & ?)]; [by left|].
        right. exists it'. split_and!; [by right|done|done].
      * intros [?|(it' & [->|?]%elem_of_cons & ? & ?)]; [by left|congruence|].
        right. by exists it'.
Qed.
End FoldFacts.

Section IterFacts.
Context {X Y : Type}.

Lemma elem_of_product (xs : list X) (ys : list Y) x y :
  (x, y) ∈ product xs ys ↔ x ∈ xs ∧ y ∈ ys.
Proof.
  unfold product. rewrite list_elem_of_bind. split.
  - intros (x' & Hin & Hx). apply list_elem_of_fmap in Hin as (y' & [= -> ->] & Hy). done.
  - intros [Hx Hy]. exists x. split; [|done]. apply list_elem_of_fmap. by exists y.
Qed.

Lemma elem_of_combinations2 (xs : list X) x y :
  (x, y) ∈ combinations2 xs → x ∈ xs ∧ y ∈ xs.
Proof.
  induction xs as [|z xs IH]; simpl; [by intros ?%elem_of_nil|].
  rewrite elem_of_app. intros [Hin|Hin].
  - apply list_elem_of_fmap in Hin as (y' & [= -> ->] & Hy). split; [left|by right].
  - destruct (IH Hin). split; by right.
Qed.

Lemma combinations2_complete (xs : list X) x y :
  x ∈ xs → y ∈ xs → x ≠ y →
  (x, y) ∈ combinations2 xs ∨ (y, x) ∈ combinations2 xs.
Proof.
  induction xs as [|z xs IH]; simpl; [by intros ?%elem_of_nil|].
  intros [->|Hx]%elem_of_cons [->|Hy]%elem_of_cons Hne; [done|..].
  - left. apply elem_of_app. left. apply list_elem_of_fmap. by exists y.
  - right. apply elem_of_app. left. apply list_elem_of_fmap. by exists x.
  - destruct (IH Hx Hy Hne); [left|right]; apply elem_of_app; by right.
Qed.
End IterFacts.

Section RateMatchFacts.
Context {V1 V2 : Type} `{Countable V1, Countable V2}.
Context {A B1 B2 : Type} `{EqDecision A}.
Variables (residue : Graph V1 A B1) (bead : Graph V2 A B2).

#[local] Abbreviation names_equal := (names_equal residue bead).
#[local] Abbreviation rate_sum := (rate_sum residue bead).

Lemma has_node_attrs {V B} `{Countable V} (G : Graph V A B) n :
  n ∈ nodes G → ∃ d, node_attrs G n = Some d.
Proof.
  intros Hn. unfold node_attrs.
  apply list_elem_of_fmap in Hn as ([n' d] & -> & Hin).
  simpl. destruct (list_find (λ p, p.1 = n') (g_node G)) as [[i p]|] eqn:E.
  - eexists. reflexivity.
  - apply list_find_None in E. rewrite Forall_forall in E.
    exfalso. by apply (E _ Hin).
Qed.

Lemma rate_pair_counts p :
  p.1 ∈ nodes residue → p.2 ∈ nodes bead →
  rate_pair residue bead p = Ok (if decide (names_equal p) then 1 else 0).
Proof.
  intros [d1 E1]%has_node_attrs [d2 E2]%has_node_attrs.
  case_decide as Hd; unfold names_equal, atomname_of in Hd;
    rewrite E1, E2 in Hd; simpl in Hd;
    unfold rate_pair, same_atomname; rewrite E1, E2;
    by case_bool_decide.
Qed.

Lemma rate_sum_counts ps :
  Forall (λ p, p.1 ∈ nodes residue ∧ p.2 ∈ nodes bead) ps →
  rate_sum ps = Ok (length (filter names_equal ps)).
Proof.
  induction 1 as [|p ps [H1 H2] _ IH]; [done|].
  unfold rate_sum in *. simpl. rewrite IH, rate_pair_counts by done.
  simpl. rewrite filter_cons. by case_decide.
Qed.
End RateMatchFacts.

Section RateMatchClaim.
Context {V1 V2 : Type} `{Countable V1, Countable V2}.
Context {A B1 B2 : Type} `{EqDecision A}.

Lemma size_filter_map_to_list (P : V1 * V2 → Prop) `{!∀ x, Decision (P x)}
    (m : gmap V1 V2) :
  size (filter P m) = length (filter P (map_to_list m)).
Proof.
  rewrite map_filter_alt, map_size_list_to_map; [done|].
  eapply NoDup_fmap_fst.
  - intros k v1 v2 [_ Hv1]%list_elem_of_filter [_ Hv2]%list_elem_of_filter.
    apply elem_of_map_to_list in Hv1, Hv2. congruence.
  - apply NoDup_filter, NoDup_map_to_list.
Qed.

Lemma rate_match_ok (residue : Graph V1 A B1) (bead : Graph V2 A B2)
    (m : gmap V1 V2) :
  (∀ r b, m !! r = Some b → r ∈ nodes residue ∧ b ∈ nodes bead) →
  rate_match residue bead m = Ok (size (filter (names_equal residue bead) m)).
Proof.
  intros Hm. rewrite size_filter_map_to_list.
  apply rate_sum_counts, Forall_forall. intros [r b] Hin.
  apply elem_of_map_to_list in Hin. by apply Hm.
Qed.

(** C10. [rate_match] returns the number of pairs of the match whose
    two nodes carry the same [atomname], a missing attribute reading as
    [None]; so a pair of nodes that both lack the attribute adds one to
    the score. *)
Theorem rate_match_counts (residue : Graph V1 A B1) (bead : Graph V2 A B2)
    (match_ : gmap V1 V2) :
  (∀ rdx bdx, match_ !! rdx = Some bdx →
              rdx ∈ nodes residue ∧ bdx ∈ nodes bead) →
  rate_match residue bead match_
    = Ok (size (filter (names_equal residue bead) match_))
  ∧ ∀ rdx bdx,
      match_ !! rdx = None →
      rdx ∈ nodes residue → bdx ∈ nodes bead →
      atomname_of residue rdx = None → atomname_of bead bdx = None →
      rate_match residue bead (<[rdx := bdx]> match_)
        = Ok (S (size (filter (names_equal residue bead) match_))).
Proof.
  intros Hm. split; [by apply rate_match_ok|].
  intros r b Hfresh Hr Hb Nr Nb. rewrite rate_match_ok.
  - rewrite map_filter_insert_True by (unfold names_equal; simpl; congruence).
    rewrite map_size_insert_None; [done|].
    apply map_lookup_filter_None. by left.
  - intros r' b'. rewrite lookup_insert. case_decide; [|by apply Hm].
    intros [= <-]. by subst.
Qed.
End RateMatchClaim.

Lemma rate_match_counts_witness :
  rate_match rate_residue rate_bead (<[1 := 7]> (<[3 := 9]> ∅)) = Ok 1
  ∧ rate_match rate_residue rate_bead (<[2 := 8]> (<[1 := 7]> (<[3 := 9]> ∅))) = Ok 2.
Proof.
  pose proof (rate_match_counts rate_residue rate_bead (<[1 := 7]> (<[3 := 9]> ∅))) as Hw.
  destruct Hw as [H1 H2].
  - intros r b Hl. apply elem_of_map_to_list in Hl.
    revert Hl. vm_compute map_to_list. vm_compute nodes.
    rewrite !elem_of_cons, elem_of_nil. intros [[= <- <-]|[[= <- <-]|[]]]; split; set_solver.
  - split.
    + rewrite H1. reflexivity.
    + rewrite (H2 2 8); [reflexivity|reflexivity|..].
      * vm_compute nodes. set_solver.
      * vm_compute nodes. set_solver.
      * reflexivity.
      * reflexivity.
Defined.

Section ProductFacts.
Context {V1 V2 : Type} `{Countable V1, Countable V2}.
Context {A B : Type} `{EqDecision A}.
Variables (graph1 : Graph V1 A B) (graph2 : Graph V2 A B).
Implicit Types (p q : V1 * V2).

Lemma attrs_agree_spec attributes (node1 node2 : gmap string A) :
  attrs_agree attributes node1 node2 = true
  ↔ ∀ attr, attr ∈ attributes →
      ∃ x, node1 !! attr = Some x ∧ node2 !! attr = Some x.
Proof.
  unfold attrs_agree. rewrite forallb_forall.
  setoid_rewrite <- list_elem_of_In. split; intros Hall attr Hin.
  - specialize (Hall attr Hin).
    destruct (node1 !! attr) as [x|], (node2 !! attr) as [y|]; try done.
    apply bool_decide_eq_true in Hall as ->. eauto.
  - destruct (Hall attr Hin) as (x & -> & ->). by apply bool_decide_eq_true.
Qed.

Lemma lookup_paired {C D} (d1 : gmap string C) (d2 : gmap string D) attr :
  paired d1 d2 !! attr
  = match d1 !! attr, d2 !! attr with
    | None, None => None
    | x, y => Some (x, y)
    end.
Proof. unfold paired. rewrite lookup_merge. by destruct (d1 !! attr), (d2 !! attr). Qed.

Lemma compatible_sym p q :
  compatible graph1 graph2 p q = compatible graph1 graph2 q p.
Proof.
  unfold compatible, both_edge, neither_edge.
  rewrite (has_edge_sym graph1 p.1), (has_edge_sym graph2 p.2).
  f_equal. f_equal; apply bool_decide_ext; naive_solver.
Qed.

Lemma compatible_spec p q :
  compatible graph1 graph2 p q = true
  ↔ p.1 ≠ q.1 ∧ p.2 ≠ q.2
    ∧ has_edge graph1 p.1 q.1 = has_edge graph2 p.2 q.2.
Proof.
  unfold compatible, both_edge, neither_edge.
  rewrite !andb_true_iff, !bool_decide_eq_true.
  destruct (has_edge graph1 p.1 q.1), (has_edge graph2 p.2 q.2); simpl; naive_solver.
Qed.

Lemma product_edge_attrs_sym p q :
  product_edge_attrs graph1 graph2 p q = product_edge_attrs graph1 graph2 q p.
Proof.
  unfold product_edge_attrs, both_edge.
  by rewrite (has_edge_sym graph1 p.1), (has_edge_sym graph2 p.2),
    (edge_attrs_sym graph1 p.1), (edge_attrs_sym graph2 p.2).
Qed.

(** The node pairs admitted to the cartesian product. *)
Lemma cartesian_product_nodes attributes a b :
  (a, b) ∈ nodes (categorical_cartesian_product graph1 graph2 attributes)
  ↔ ∃ node1 node2, (a, node1) ∈ g_node graph1 ∧ (b, node2) ∈ g_node graph2
                   ∧ attrs_agree attributes node1 node2 = true.
Proof.
  unfold categorical_cartesian_product.
  erewrite (foldl_pointwise _
    (λ g it, if attrs_agree attributes it.1.2 it.2.2
             then add_node g (it.1.1, it.2.1) (paired it.1.2 it.2.2) else g));
    [|by intros g [[i1 n1] [i2 n2]]].
  rewrite (add_nodes_where_nodes (λ it, attrs_agree attributes it.1.2 it.2.2)
             (λ it, (it.1.1, it.2.1)) (λ it, paired it.1.2 it.2.2)).
  split.
  - intros [Hin|([[i1 n1] [i2 n2]] & Hin & Hc & [= <- <-])].
    + by apply elem_of_nil in Hin.
    + apply elem_of_product in Hin as [? ?]. by exists n1, n2.
  - intros (n1 & n2 & Hi1 & Hi2 & Hc). right. exists ((a, n1), (b, n2)).
    split; [by apply elem_of_product|done].
Qed.

Lemma cartesian_product_no_edges attributes :
  g_edge (categorical_cartesian_product graph1 graph2 attributes) = [].
Proof.
  unfold categorical_cartesian_product.
  erewrite (foldl_pointwise _
    (λ g it, if attrs_agree attributes it.1.2 it.2.2
             then add_node g (it.1.1, it.2.1) (paired it.1.2 it.2.2) else g));
    [|by intros g [[i1 n1] [i2 n2]]].
  by rewrite (add_nodes_where_edges (λ it, attrs_agree attributes it.1.2 it.2.2)
             (λ it, (it.1.1, it.2.1)) (λ it, paired it.1.2 it.2.2)).
Qed.
End ProductFacts.

Section ModularProduct.
Context {V1 V2 : Type} `{Countable V1, Countable V2}.
Context {A B : Type} `{EqDecision A}.
Variables (graph1 : Graph V1 A B) (graph2 : Graph V2 A B).
Variable attributes : list string.
Implicit Types (p q : V1 * V2).

Let cart := categorical_cartesian_product graph1 graph2 attributes.
Let prod := categorical_modular_product graph1 graph2 attributes.

Lemma modular_product_unfold :
  prod = foldl (λ g it, if compatible graph1 graph2 it.1 it.2
                        then add_edge g it.1 it.2
                               (product_edge_attrs graph1 graph2 it.1 it.2)
                        else g)
               cart (combinations2 (nodes cart)).
Proof.
  unfold prod, categorical_modular_product. apply foldl_pointwise.
  by intros g [p q].
Qed.

Lemma modular_product_nodes : nodes prod = nodes cart.
Proof.
  rewrite modular_product_unfold.
  apply (add_edges_where_nodes (λ it, compatible graph1 graph2 it.1 it.2)
           fst snd (λ it, product_edge_attrs graph1 graph2 it.1 it.2)).
  intros [p q] Hin. by apply elem_of_combinations2 in Hin.
Qed.

Lemma modular_product_has_edge p q :
  has_edge prod p q = true
  ↔ p ∈ nodes prod ∧ q ∈ nodes prod ∧ compatible graph1 graph2 p q = true.
Proof.
  rewrite modular_product_nodes, modular_product_unfold.
  rewrite (add_edges_where_has_edge (λ it, compatible graph1 graph2 it.1 it.2)
             fst snd (λ it, product_edge_attrs graph1 graph2 it.1 it.2)).
  split.
  - intros [He|([p' q'] & Hin & Hc & Hpq)].
    + apply has_edge_spec in He as (e & He & _).
      unfold cart in He. rewrite cartesian_product_no_edges in He.
      by apply elem_of_nil in He.
    + apply elem_of_combinations2 in Hin as [? ?]. simpl in *.
      destruct Hpq as [[-> ->]|[-> ->]]; [done|].
      by rewrite compatible_sym.
  - intros (Hp & Hq & Hc). right.
    assert (p ≠ q) as Hne.
    { apply compatible_spec in Hc as (Hne & _). congruence. }
    destruct (combinations2_complete _ _ _ Hp Hq Hne) as [Hin|Hin].
    + exists (p, q). naive_solver.
    + exists (q, p). rewrite compatible_sym. naive_solver.
Qed.

Lemma modular_product_edge_attrs p q :
  has_edge prod p q = true →
  edge_attrs prod p q = Some (product_edge_attrs graph1 graph2 p q).
Proof.
  intros [d Hd]%has_edge_attrs. rewrite Hd. f_equal.
  apply edge_attrs_Some in Hd as (e & He & Hj & <-).
  assert (Hall : Forall (λ e, e.2 = product_edge_attrs graph1 graph2 e.1.1 e.1.2)
                   (g_edge prod)).
  { rewrite modular_product_unfold.
    apply (add_edges_where_Forall (λ it, compatible graph1 graph2 it.1 it.2)
             fst snd (λ it, product_edge_attrs graph1 graph2 it.1 it.2)).
    - unfold cart. by rewrite cartesian_product_no_edges.
    - by intros [p' q'] _.
    - intros [p' q'] e' _ -> Hj'. simpl in *.
      apply joins_spec in Hj' as [[-> ->]|[-> ->]].
      + apply (idemp_L (∪)).
      + rewrite (product_edge_attrs_sym _ _ q' p'). apply (idemp_L (∪)). }
  rewrite Forall_forall in Hall. rewrite (Hall e He).
  apply joins_spec in Hj as [[-> ->]|[-> ->]]; [done|apply product_edge_attrs_sym].
Qed.

(** C2. The nodes of the categorical modular product are the pairs whose
    selected attributes are present on both sides and equal; two of them
    are joined exactly when they differ in both components and the two
    source graphs agree on the adjacency of the components; the
    attributes of an edge that exists in both sources are the pairs of
    the source values. *)
Theorem categorical_modular_product_spec :
  (∀ a b,
     (a, b) ∈ nodes prod
     ↔ ∃ node1 node2,
         (a, node1) ∈ g_node graph1 ∧ (b, node2) ∈ g_node graph2
         ∧ ∀ attr, attr ∈ attributes →
             ∃ x, node1 !! attr = Some x ∧ node2 !! attr = Some x)
  ∧ (∀ p q,
       has_edge prod p q = true
       ↔ p ∈ nodes prod ∧ q ∈ nodes prod ∧ p.1 ≠ q.1 ∧ p.2 ≠ q.2
         ∧ (has_edge graph1 p.1 q.1 = true ↔ has_edge graph2 p.2 q.2 = true))
  ∧ (∀ p q d1 d2,
       has_edge prod p q = true →
       edge_attrs graph1 p.1 q.1 = Some d1 →
       edge_attrs graph2 p.2 q.2 = Some d2 →
       ∃ d, edge_attrs prod p q = Some d
            ∧ ∀ attr, d !! attr
                      = match d1 !! attr, d2 !! attr with
                        | None, None => None
                        | x, y => Some (x, y)
                        end).
Proof.
  split_and!.
  - intros a b. rewrite modular_product_nodes. unfold cart.
    rewrite cartesian_product_nodes.
    by setoid_rewrite attrs_agree_spec.
  - intros p q. rewrite modular_product_has_edge, compatible_spec.
    destruct (has_edge graph1 p.1 q.1), (has_edge graph2 p.2 q.2); naive_solver.
  - intros p q d1 d2 He Hd1 Hd2.
    rewrite (modular_product_edge_attrs _ _ He). eexists. split; [done|].
    intros attr. unfold product_edge_attrs, both_edge.
    assert (has_edge graph1 p.1 q.1 = true) as -> by (apply has_edge_attrs; eauto).
    assert (has_edge graph2 p.2 q.2 = true) as -> by (apply has_edge_attrs; eauto).
    simpl. rewrite Hd1, Hd2. apply lookup_paired.
Qed.
End ModularProduct.

(** * The clique enumeration is correct *)

Section BronKerbosch.
Context {V : Type} `{Countable V} {A B : Type}.
Variable G : Graph V A B.
Implicit Types (Q C subg cand ext : list V) (u v q : V).

#[local] Abbreviation adjG := (adj G).

Lemma adj_sym u v : adjG u v = adjG v u.
Proof.
  unfold adj. rewrite has_edge_sym. f_equal.
  apply bool_decide_ext. naive_solver.
Qed.

Lemma adj_irrefl u : adjG u u = false.
Proof. unfold adj. rewrite bool_decide_eq_false_2; [apply andb_false_r|]. naive_solver. Qed.

Lemma adj_spec u v : adjG u v = true ↔ has_edge G u v = true ∧ u ≠ v.
Proof. unfold adj. rewrite andb_true_iff, bool_decide_eq_true. naive_solver. Qed.

#[local] Abbreviation common := (common G).
#[local] Abbreviation level := (level G).
#[local] Abbreviation reports_maximal := (reports_maximal G).

Lemma common_snoc Q q v : common (Q ++ [q]) v ↔ common Q v ∧ adjG q v = true.
Proof.
  unfold common. setoid_rewrite elem_of_app.
  setoid_rewrite list_elem_of_singleton. naive_solver.
Qed.

Lemma common_not_elem Q v : common Q v → v ∉ Q.
Proof. intros Hc Hv. specialize (Hc v Hv). by rewrite adj_irrefl in Hc. Qed.

Lemma is_clique_adj C x y :
  is_clique G C → x ∈ C → y ∈ C → x ≠ y → adjG x y = true.
Proof. intros (_ & _ & HC) ???. apply adj_spec. split; [by apply HC|done]. Qed.

Lemma level_snoc Q subg q :
  level Q subg → q ∈ subg →
  level (Q ++ [q]) (filter (λ v, adjG q v = true) subg).
Proof.
  intros [(HND & HN & HE) HS] Hq. apply HS in Hq as [Hqn Hqc].
  split.
  - split_and!.
    + apply NoDup_app. split_and!; [done| |apply NoDup_singleton].
      intros x Hx ->%list_elem_of_singleton. by apply common_not_elem in Hqc.
    + intros x [?| ->%list_elem_of_singleton]%elem_of_app; [by apply HN|done].
    + intros x y [Hx| ->%list_elem_of_singleton]%elem_of_app
        [Hy| ->%list_elem_of_singleton]%elem_of_app Hne.
      * by apply HE.
      * by apply adj_spec, Hqc.
      * rewrite has_edge_sym. by apply adj_spec, Hqc.
      * done.
  - intros v. rewrite list_elem_of_filter, HS, common_snoc. naive_solver.
Qed.

Lemma max_by_elem (key : V → nat) (x : V) (xs : list V) :
  max_by key x xs ∈ x :: xs.
Proof.
  unfold max_by. revert x. induction xs as [|y xs IH]; intros x; simpl; [left|].
  destruct (key x <? key y).
  - right. apply IH.
  - specialize (IH x). apply elem_of_cons in IH as [->|?]; [left|right; by right].
Qed.

(** ** Every list reported is a maximal clique *)

Lemma maximal_of_level Q : level Q [] → maximal_clique G Q.
Proof.
  intros [HQ HS]. split; [done|]. intros v Hv Hnot.
  destruct (decide (Exists (λ x, has_edge G x v = false) Q)) as [HEx|HEx].
  - apply Exists_exists in HEx. naive_solver.
  - exfalso. apply (elem_of_nil v). apply HS. split; [done|].
    intros x Hx. apply adj_spec. split; [|naive_solver].
    destruct (has_edge G x v) eqn:E; [done|].
    exfalso. apply HEx, Exists_exists. eauto.
Qed.

Lemma expand_loop_sound recur Q subg cand ext :
  level Q subg →
  (∀ Q' subg' cand', level Q' subg' → (∀ v, v ∈ cand' → v ∈ subg') →
     reports_maximal (recur Q' subg' cand')) →
  (∀ v, v ∈ cand → v ∈ subg) →
  (∀ q, q ∈ ext → q ∈ subg) →
  reports_maximal (expand_loop G recur Q subg cand ext).
Proof.
  intros HL Hrec. revert cand. induction ext as [|q ext IH]; intros cand Hcand Hext; simpl.
  - by intros C ?%elem_of_nil.
  - intros C [HC|HC]%elem_of_app.
    + assert (level (Q ++ [q]) (filter (λ v, adjG q v = true) subg)) as HL'.
      { apply level_snoc; [done|]. apply Hext. left. }
      case_bool_decide as Es.
      * apply list_elem_of_singleton in HC as ->. rewrite Es in HL'.
        by apply maximal_of_level.
      * case_bool_decide; [by apply elem_of_nil in HC|].
        eapply Hrec; [exact HL'| |done].
        intros v [Hv [_ Hvc]%list_elem_of_filter]%list_elem_of_filter.
        apply list_elem_of_filter. auto.
    + eapply IH; [| |done].
      * intros v [_ Hv]%list_elem_of_filter. by apply Hcand.
      * intros q' Hq'. apply Hext. by right.
Qed.

Lemma expand_sound depth Q subg cand :
  level Q subg → (∀ v, v ∈ cand → v ∈ subg) →
  reports_maximal (expand G depth Q subg cand).
Proof.
  revert Q subg cand. induction depth as [|depth IH]; intros Q subg cand HL Hc.
  - simpl. by intros C ?%elem_of_nil.
  - destruct subg as [|s subg']; [by intros C ?%elem_of_nil|].
    simpl. apply expand_loop_sound; [done|done|done|].
    intros q [_ Hq]%list_elem_of_filter. by apply Hc.
Qed.

(** ** Every maximal clique is reported *)

Lemma nonempty_elem (l : list V) : l ≠ [] → ∃ x, x ∈ l.
Proof. destruct l as [|x l]; [done|]. exists x. left. Qed.

Lemma maximal_no_common C v : maximal_clique G C → v ∈ nodes G → ¬ common C v.
Proof.
  intros [HC Hmax] Hv Hcom.
  destruct (Hmax v Hv) as (x & Hx & Hno); [by apply common_not_elem|].
  apply Hcom, adj_spec in Hx as [Hx _]. congruence.
Qed.

Lemma common_mono Q1 Q2 v : (∀ x, x ∈ Q1 → x ∈ Q2) → common Q2 v → common Q1 v.
Proof. intros Hsub Hc x Hx. by apply Hc, Hsub. Qed.

Lemma expand_loop_complete recur depth Q subg cand ext C :
  level Q subg → maximal_clique G C →
  (∀ Q' subg' cand', level Q' subg' → subg' ≠ [] → length cand' ≤ depth →
     pending Q' subg' cand' C → reports C (recur Q' subg' cand')) →
  pending Q subg cand C → length cand ≤ S depth →
  NoDup ext → (∀ q, q ∈ ext → q ∈ cand) →
  (∃ q, q ∈ ext ∧ q ∈ C) →
  reports C (expand_loop G recur Q subg cand ext).
Proof.
  intros HL HC Hrec. revert cand.
  induction ext as [|q ext IH]; intros cand HP Hlen HND Hext (q0 & Hq0 & Hq0C).
  { by apply elem_of_nil in Hq0. }
  simpl. apply NoDup_cons in HND as [Hq_ext HND].
  assert (Hqc : q ∈ cand) by (apply Hext; left).
  assert (Hqs : q ∈ subg) by by apply HP.
  destruct (decide (q ∈ C)) as [HqC|HqC].
  - (* the clique is found under [q] *)
    pose proof (level_snoc _ _ _ HL Hqs) as HL'.
    set (subg_q := filter (λ v, adjG q v = true) subg) in *.
    set (cand_q := filter (λ v, adjG q v = true) (filter (λ v, v ≠ q) cand)).
    assert (HP' : pending (Q ++ [q]) subg_q cand_q C).
    { split.
      - apply NoDup_filter, NoDup_filter, HP.
      - intros v [Hv [_ Hvc]%list_elem_of_filter]%list_elem_of_filter.
        apply list_elem_of_filter. split; [done|]. by apply HP.
      - intros x [?| ->%list_elem_of_singleton]%elem_of_app; [by apply HP|done].
      - intros v Hv Hnot. rewrite elem_of_app, list_elem_of_singleton in Hnot.
        assert (v ≠ q) by naive_solver.
        apply list_elem_of_filter. split.
        + eapply is_clique_adj; [apply HC|done..].
        + apply list_elem_of_filter. split; [done|]. apply HP; naive_solver. }
    assert (Hfull : cand_q = [] → Q ++ [q] ≡ₚ C).
    { intros Ecq. apply NoDup_Permutation; [apply HL'|apply HC|].
      intros v. split; [by apply HP'|]. intros Hv.
      destruct (decide (v ∈ Q ++ [q])) as [|Hn]; [done|].
      pose proof (pending_rest _ _ _ _ HP' v Hv Hn) as Hin.
      rewrite Ecq in Hin. by apply elem_of_nil in Hin. }
    assert (Hlen' : length cand_q ≤ depth).
    { unfold cand_q. etrans; [apply length_filter|].
      pose proof (length_filter_lt (λ v, v ≠ q) cand q Hqc) as Hlt.
      assert (¬ q ≠ q) as Hqq by naive_solver. specialize (Hlt Hqq). lia. }
    destruct (decide (subg_q = [])) as [Es|Es].
    + rewrite bool_decide_eq_true_2 by done.
      exists (Q ++ [q]). split; [apply elem_of_app; left; left|].
      apply Hfull, elem_of_nil_inv. intros v Hv%HP'.
      rewrite Es in Hv. by apply elem_of_nil in Hv.
    + rewrite bool_decide_eq_false_2 by done.
      destruct (decide (cand_q = [])) as [Ec|Ec].
      * exfalso. destruct (nonempty_elem _ Es) as [w Hw'].
        assert (w ∈ nodes G ∧ common (Q ++ [q]) w) as [Hw Hwc] by by apply HL'.
        apply (maximal_no_common C w HC Hw).
        eapply common_mono; [|exact Hwc]. intros x Hx.
        by rewrite (Hfull Ec).
      * rewrite bool_decide_eq_false_2 by done.
        destruct (Hrec _ _ _ HL' Es Hlen' HP') as (C' & HC' & Hperm).
        exists C'. split; [|done]. apply elem_of_app. by left.
  - (* the clique is found later in the loop *)
    destruct (IH (filter (λ v, v ≠ q) cand)) as (C' & HC' & Hperm).
    + split.
      * apply NoDup_filter, HP.
      * intros v [_ Hv]%list_elem_of_filter. by apply HP.
      * apply HP.
      * intros v Hv Hn. apply list_elem_of_filter. split; [congruence|].
        by apply HP.
    + etrans; [apply length_filter|done].
    + done.
    + intros q' Hq'. apply list_elem_of_filter. split; [congruence|].
      apply Hext. by right.
    + exists q0. split; [|done].
      apply elem_of_cons in Hq0 as [->|?]; done.
    + exists C'. split; [|done]. apply elem_of_app. by right.
Qed.

Lemma expand_complete depth Q subg cand C :
  level Q subg → maximal_clique G C → subg ≠ [] → length cand ≤ depth →
  pending Q subg cand C → reports C (expand G depth Q subg cand).
Proof.
  revert Q subg cand.
  induction depth as [|depth IH]; intros Q subg cand HL HC Hs Hlen HP.
  - (* no candidate is left, yet some node extends [Q] *)
    exfalso. destruct cand; [|simpl in Hlen; lia].
    destruct subg as [|w subg'] eqn:E; [done|].
    assert (w ∈ nodes G ∧ common Q w) as [Hw Hwc] by (apply HL; left).
    apply (maximal_no_common C w HC Hw).
    eapply common_mono; [|exact Hwc]. intros x Hx.
    destruct (decide (x ∈ Q)) as [|Hn]; [done|].
    pose proof (pending_rest _ _ _ _ HP x Hx Hn) as Hin.
    by apply elem_of_nil in Hin.
  - destruct subg as [|s subg'] eqn:E; [done|]. simpl.
    set (u := max_by (pivot_key G cand) s subg').
    assert (Hu : u ∈ nodes G ∧ common Q u) by (apply HL, max_by_elem).
    apply (expand_loop_complete _ depth); try done.
    + intros Q' subg'' cand' ????. by apply IH.
    + apply NoDup_filter, HP.
    + by intros q [_ ?]%list_elem_of_filter.
    + (* some node of the clique is not adjacent to the pivot *)
      destruct (decide (Exists (λ q, q ∈ C) (filter (λ v, adjG u v = false) cand)))
        as [HEx|HEx].
      { apply Exists_exists in HEx. naive_solver. }
      exfalso. destruct Hu as [Hun Huc].
      apply (maximal_no_common C u HC Hun). intros x Hx.
      destruct (decide (x ∈ Q)) as [|Hn]; [by apply Huc|].
      rewrite adj_sym. destruct (adjG u x) eqn:Eux; [done|].
      exfalso. apply HEx, Exists_exists. exists x. split; [|done].
      apply list_elem_of_filter. split; [done|]. by apply HP.
Qed.

(** ** The contract of [find_cliques] *)

Lemma level_start : level [] (nodes G).
Proof.
  split.
  - split_and!; [apply NoDup_nil_2|by intros x ?%elem_of_nil|by intros x y ?%elem_of_nil].
  - intros v. split; [|naive_solver]. intros Hv. split; [done|].
    by intros x ?%elem_of_nil.
Qed.

Lemma find_cliques_sound C : C ∈ find_cliques G → maximal_clique G C.
Proof.
  unfold find_cliques. case_bool_decide; [by intros ?%elem_of_nil|].
  by apply expand_sound; [apply level_start|].
Qed.

Lemma find_cliques_complete C :
  NoDup (nodes G) → maximal_clique G C → C ≠ [] →
  ∃ C', C' ∈ find_cliques G ∧ C' ≡ₚ C.
Proof.
  intros HND HC Hne. unfold find_cliques.
  assert (nodes G ≠ []) as Hn.
  { destruct C as [|x C]; [done|]. intros E.
    assert (x ∈ nodes G) as Hx by (apply HC; left).
    rewrite E in Hx. by apply elem_of_nil in Hx. }
  rewrite bool_decide_eq_false_2.
  - apply expand_complete; [apply level_start|done|done| |].
    + unfold number_of_nodes, nodes. by rewrite length_fmap.
    + split; [done|done|by intros x ?%elem_of_nil|]. intros v Hv _. by apply HC.
  - unfold number_of_nodes. unfold nodes in Hn. by destruct (g_node G).
Qed.
End BronKerbosch.

(** * [maxes], [dict] and the extension of cliques *)

Section Maxes.
Context {X : Type}.
Implicit Types (key : X → nat) (l : list X).

Lemma elem_of_maxes key l x :
  x ∈ maxes key l ↔ x ∈ l ∧ ∀ y, y ∈ l → key y ≤ key x.
Proof.
  unfold maxes. rewrite list_elem_of_filter. split.
  - intros [E Hx]. split; [done|]. intros y Hy. rewrite E.
    apply max_list_elem_of_le, list_elem_of_fmap. eauto.
  - intros [Hx Hmax]. split; [|done].
    apply Nat.le_antisymm.
    + apply max_list_elem_of_le, list_elem_of_fmap. eauto.
    + assert (key <$> l ≠ []) as Hne by (destruct l; [by apply elem_of_nil in Hx|done]).
      apply max_list_elem_of, list_elem_of_fmap in Hne as (y & -> & Hy). auto.
Qed.

Lemma maxes_nil key l : maxes key l = [] ↔ l = [].
Proof.
  split; [|by intros ->]. intros E. destruct l as [|x l]; [done|]. exfalso.
  assert (key <$> x :: l ≠ []) as Hne by done.
  apply max_list_elem_of, list_elem_of_fmap in Hne as (y & Hy & Hin).
  assert (y ∈ maxes key (x :: l)) as Hm.
  { unfold maxes. apply list_elem_of_filter. done. }
  rewrite E in Hm. by apply elem_of_nil in Hm.
Qed.

Lemma maxes_same_key key l x y :
  x ∈ maxes key l → y ∈ maxes key l → key x = key y.
Proof.
  rewrite !elem_of_maxes. intros [Hx Hmx] [Hy Hmy].
  apply Nat.le_antisymm; auto.
Qed.
End Maxes.

Section Dict.
Context {K W : Type} `{Countable K}.
Implicit Types (pairs : list (K * W)).

Lemma dict_list_to_map pairs : NoDup pairs.*1 → dict pairs = list_to_map pairs.
Proof.
  unfold dict.
  enough (Hgen : ∀ d0 : gmap K W, NoDup pairs.*1 →
            foldl (λ d p, <[p.1 := p.2]> d) d0 pairs = list_to_map pairs ∪ d0).
  { intros HND. rewrite Hgen by done. apply (right_id_L ∅ (∪)). }
  induction pairs as [|[k w] pairs IH]; intros d0 HND; simpl.
  - by rewrite (left_id_L ∅ (∪)).
  - apply NoDup_cons in HND as [Hk HND]. rewrite IH by done.
    rewrite <- insert_union_l. symmetry. apply insert_union_r.
    by apply not_elem_of_list_to_map_1.
Qed.

Lemma lookup_dict pairs k w :
  NoDup pairs.*1 → dict pairs !! k = Some w ↔ (k, w) ∈ pairs.
Proof.
  intros HND. rewrite dict_list_to_map by done.
  symmetry. by apply elem_of_list_to_map.
Qed.

Lemma size_dict pairs : NoDup pairs.*1 → size (dict pairs) = length pairs.
Proof. intros HND. rewrite dict_list_to_map by done. by apply map_size_list_to_map. Qed.

Lemma dict_perm pairs pairs' :
  NoDup pairs.*1 → pairs ≡ₚ pairs' → dict pairs = dict pairs'.
Proof.
  intros HND Hp. rewrite !dict_list_to_map; [by apply list_to_map_proper|..]; [|done].
  by rewrite <- Hp.
Qed.
End Dict.

Section CliqueFacts.
Context {V : Type} `{Countable V} {A B : Type}.
Variable G : Graph V A B.
Implicit Types (C M : list V).

Lemma is_clique_cons C v :
  is_clique G C → v ∈ nodes G → v ∉ C →
  (∀ x, x ∈ C → has_edge G x v = true) → is_clique G (v :: C).
Proof.
  intros (HND & HN & HE) Hv Hnot Hadj. split_and!.
  - by apply NoDup_cons.
  - intros x [->|?]%elem_of_cons; auto.
  - intros x y [->|Hx]%elem_of_cons [->|Hy]%elem_of_cons Hne; try done.
    + rewrite has_edge_sym. auto.
    + auto.
    + auto.
Qed.

Lemma clique_extends_aux n C :
  length (filter (λ v, v ∉ C) (nodes G)) ≤ n → is_clique G C →
  ∃ M, maximal_clique G M ∧ (∀ x, x ∈ C → x ∈ M) ∧ length C ≤ length M.
Proof.
  revert C. induction n as [|n IH]; intros C Hlen HC.
  - exists C. split_and!; [|done..]. split; [done|]. intros v Hv Hnot. exfalso.
    assert (v ∈ filter (λ v, v ∉ C) (nodes G)) as Hin by by apply list_elem_of_filter.
    destruct (filter _ (nodes G)); [by apply elem_of_nil in Hin|simpl in Hlen; lia].
  - destruct (decide (Exists (λ v, (v ∉ C) ∧ Forall (λ x, has_edge G x v = true) C)
                        (nodes G))) as [HEx|HEx].
    + apply Exists_exists in HEx as (v & Hv & Hnot & Hadj).
      rewrite Forall_forall in Hadj.
      destruct (IH (v :: C)) as (M & HM & Hsub & HlenM).
      * assert (filter (λ w, w ∉ v :: C) (nodes G)
                = filter (λ w, w ≠ v) (filter (λ w, w ∉ C) (nodes G))) as ->.
        { rewrite list_filter_filter. apply list_filter_iff.
          intros w. rewrite not_elem_of_cons. naive_solver. }
        assert (length (filter (λ w, w ≠ v) (filter (λ w, w ∉ C) (nodes G)))
                < length (filter (λ w, w ∉ C) (nodes G))); [|lia].
        apply (length_filter_lt _ _ v); [by apply list_elem_of_filter|naive_solver].
      * by apply is_clique_cons.
      * exists M. split_and!; [done| |simpl in HlenM; lia].
        intros x Hx. apply Hsub. by right.
    + exists C. split_and!; [|done..]. split; [done|]. intros v Hv Hnot.
      destruct (decide (Exists (λ x, has_edge G x v = false) C)) as [HE2|HE2].
      * apply Exists_exists in HE2. naive_solver.
      * exfalso. apply HEx, Exists_exists. exists v. split_and!; [done..|].
        apply Forall_forall. intros x Hx.
        destruct (has_edge G x v) eqn:E; [done|].
        exfalso. apply HE2, Exists_exists. eauto.
Qed.

Lemma clique_extends C :
  is_clique G C →
  ∃ M, maximal_clique G M ∧ (∀ x, x ∈ C → x ∈ M) ∧ length C ≤ length M.
Proof. by apply (clique_extends_aux (length (filter (λ v, v ∉ C) (nodes G))) C). Qed.

(** No clique is longer than the longest that [find_cliques] reports. *)
Lemma find_cliques_longest C M :
  NoDup (nodes G) → is_clique G C → M ∈ maxes length (find_cliques G) →
  length C ≤ length M.
Proof.
  intros HND HC [HM Hmax]%elem_of_maxes.
  destruct (clique_extends C HC) as (M' & HM' & _ & Hlen).
  destruct (decide (M' = [])) as [->|Hne].
  { simpl in Hlen. lia. }
  destruct (find_cliques_complete G M' HND HM' Hne) as (M'' & Hin & Hperm).
  specialize (Hmax M'' Hin). rewrite Hperm in Hmax. lia.
Qed.
End CliqueFacts.

(** * Cliques of a product graph as matches *)

Section MatchOfClique.
Context {V1 V2 : Type} `{Countable V1, Countable V2} {A B : Type}.
Variable P : Graph (V1 * V2) A B.
Hypothesis edges_distinct :
  ∀ p q, has_edge P p q = true → p.1 ≠ q.1 ∧ p.2 ≠ q.2.
Implicit Types (C : list (V1 * V2)).

Lemma clique_keys_NoDup C : is_clique P C → NoDup C.*1.
Proof using edges_distinct.
  intros (HND & _ & HE). apply NoDup_fmap_2_strong; [|done].
  intros p q Hp Hq Epq. destruct (decide (p = q)) as [|Hne]; [done|].
  by destruct (edges_distinct p q (HE p q Hp Hq Hne)).
Qed.

Lemma clique_values_NoDup C : is_clique P C → NoDup C.*2.
Proof using edges_distinct.
  intros (HND & _ & HE). apply NoDup_fmap_2_strong; [|done].
  intros p q Hp Hq Epq. destruct (decide (p = q)) as [|Hne]; [done|].
  by destruct (edges_distinct p q (HE p q Hp Hq Hne)).
Qed.

Lemma clique_dict_injective C k1 k2 v :
  is_clique P C →
  dict C !! k1 = Some v → dict C !! k2 = Some v → k1 = k2.
Proof using edges_distinct.
  intros HC. pose proof (clique_keys_NoDup C HC) as HK.
  rewrite !lookup_dict by done. intros H1 H2.
  destruct (decide (k1 = k2)) as [|Hne]; [done|]. exfalso.
  destruct HC as (_ & _ & HE).
  assert ((k1, v) ≠ (k2, v)) as Hpq by congruence.
  destruct (edges_distinct _ _ (HE _ _ H1 H2 Hpq)) as [_ Hv]. by apply Hv.
Qed.
End MatchOfClique.

Section CategoricalMCS.
Context {V1 V2 : Type} `{Countable V1, Countable V2}.
Context {A B : Type} `{EqDecision A}.
Variables (graph1 : Graph V1 A B) (graph2 : Graph V2 A B).
Variable attributes : list string.

Let prod := categorical_modular_product graph1 graph2 attributes.
Let result := categorical_maximum_common_subgraph graph1 graph2 attributes.

Lemma modular_product_NoDup : NoDup (nodes prod).
Proof.
  unfold prod. rewrite modular_product_nodes.
  unfold categorical_cartesian_product.
  erewrite (foldl_pointwise _
    (λ g it, if attrs_agree attributes it.1.2 it.2.2
             then add_node g (it.1.1, it.2.1) (paired it.1.2 it.2.2) else g));
    [|by intros g [[i1 n1] [i2 n2]]].
  apply (add_nodes_where_NoDup (λ it, attrs_agree attributes it.1.2 it.2.2)
             (λ it, (it.1.1, it.2.1)) (λ it, paired it.1.2 it.2.2)).
  apply NoDup_nil_2.
Qed.

Lemma modular_product_distinct p q :
  has_edge prod p q = true → p.1 ≠ q.1 ∧ p.2 ≠ q.2.
Proof.
  intros (_ & _ & Hc)%modular_product_has_edge.
  apply compatible_spec in Hc. naive_solver.
Qed.

(** C3. The matches of [categorical_maximum_common_subgraph] are maximal
    cliques of the modular product that no clique exceeds in size; they
    all have the same size; every maximal clique of that size is among
    them; and the list is empty exactly when the product has no node, as
    when no pair of nodes agrees on the attributes. *)
Theorem categorical_maximum_common_subgraph_spec :
  (∀ m, m ∈ result →
     ∃ C, m = dict C ∧ maximal_clique prod C ∧ size m = length C
          ∧ ∀ C', is_clique prod C' → length C' ≤ length C)
  ∧ (∀ m m', m ∈ result → m' ∈ result → size m = size m')
  ∧ (∀ C, maximal_clique prod C → C ≠ [] →
          (∀ C', is_clique prod C' → length C' ≤ length C) →
          dict C ∈ result)
  ∧ (result = [] ↔ nodes prod = [])
  ∧ ((∀ a node1 b node2,
        (a, node1) ∈ g_node graph1 → (b, node2) ∈ g_node graph2 →
        attrs_agree attributes node1 node2 = false) →
     result = []).
Proof.
  assert (Hres : ∀ m, m ∈ result →
     ∃ C, m = dict C ∧ C ∈ maxes length (find_cliques prod)
          ∧ maximal_clique prod C ∧ size m = length C).
  { intros m (C & -> & HC)%list_elem_of_fmap. exists C.
    assert (maximal_clique prod C) as HM.
    { apply find_cliques_sound. by apply elem_of_maxes in HC as [? _]. }
    split_and!; [done..|]. apply size_dict.
    eapply clique_keys_NoDup; [apply modular_product_distinct|apply HM]. }
  assert (Hempty : result = [] ↔ nodes prod = []).
  { unfold result, categorical_maximum_common_subgraph. fold prod.
    assert (∀ l : list (list (V1 * V2)), dict <$> l = [] ↔ l = []) as ->.
    { intros l. split; [apply fmap_nil_inv|by intros ->]. }
    rewrite maxes_nil. split.
    - intros E. destruct (nodes prod) as [|p ps] eqn:En; [done|]. exfalso.
      assert (is_clique prod [p]) as Hp.
      { split_and!; [apply NoDup_singleton| |].
        - intros x ->%list_elem_of_singleton. rewrite En. left.
        - intros x y ->%list_elem_of_singleton ->%list_elem_of_singleton. done. }
      destruct (clique_extends prod [p] Hp) as (M & HM & Hsub & Hlen).
      destruct (find_cliques_complete prod M modular_product_NoDup HM)
        as (M' & HM' & _).
      { intros ->. simpl in Hlen. lia. }
      rewrite E in HM'. by apply elem_of_nil in HM'.
    - intros En. unfold find_cliques, number_of_nodes.
      unfold nodes in En. apply fmap_nil_inv in En. by rewrite En. }
  split_and!.
  - intros m (C & -> & HC & HM & Hsize)%Hres. exists C. split_and!; [done..|].
    intros C' HC'. eapply find_cliques_longest; [apply modular_product_NoDup|done..].
  - intros m m' (C & -> & HC & _ & ->)%Hres (C' & -> & HC' & _ & ->)%Hres.
    by eapply maxes_same_key.
  - intros C HM Hne Hbig.
    destruct (find_cliques_complete prod C modular_product_NoDup HM Hne)
      as (C' & HC' & Hperm).
    apply list_elem_of_fmap. exists C'. split.
    + symmetry. apply dict_perm; [|done].
      eapply clique_keys_NoDup; [apply modular_product_distinct|].
      by apply find_cliques_sound.
    + apply elem_of_maxes. split; [done|]. intros D HD%find_cliques_sound.
      rewrite Hperm. apply Hbig, HD.
  - done.
  - intros Hno. apply Hempty.
    destruct (nodes prod) as [|[a b] ps] eqn:En; [done|]. exfalso.
    assert ((a, b) ∈ nodes prod) as Hin by (rewrite En; left).
    unfold prod in Hin. rewrite modular_product_nodes in Hin.
    apply cartesian_product_nodes in Hin as (n1 & n2 & H1 & H2 & Hag).
    by rewrite (Hno _ _ _ _ H1 H2) in Hag.
Qed.
End CategoricalMCS.

(** * The two-phase maximum common subgraph *)

Section TwoPhase.
Context {V1 V2 : Type} `{Countable V1, Countable V2}.
Context {A B : Type} `{EqDecision A}.
Variables (graph1 : Graph V1 A B) (graph2 : Graph V2 A B).
Variable attributes : list string.
Implicit Types (p q : V1 * V2) (P : Graph (V1 * V2) () ()).
Implicit Types (clique C : list (V1 * V2)).

Lemma add_compatible_edges_unfold P :
  add_compatible_edges graph1 graph2 P
  = foldl (λ g it, if compatible graph1 graph2 it.1 it.2
                   then add_edge g it.1 it.2 ∅ else g)
          P (combinations2 (nodes P)).
Proof. unfold add_compatible_edges. apply foldl_pointwise. by intros g [p q]. Qed.

Lemma add_compatible_edges_nodes P :
  nodes (add_compatible_edges graph1 graph2 P) = nodes P.
Proof.
  rewrite add_compatible_edges_unfold.
  apply (add_edges_where_nodes (λ it, compatible graph1 graph2 it.1 it.2)
           fst snd (λ _, ∅)).
  intros [p q] Hin. by apply elem_of_combinations2 in Hin.
Qed.

Lemma add_compatible_edges_has_edge P p q :
  g_edge P = [] →
  has_edge (add_compatible_edges graph1 graph2 P) p q = true
  ↔ p ∈ nodes P ∧ q ∈ nodes P ∧ compatible graph1 graph2 p q = true.
Proof.
  intros HE. rewrite add_compatible_edges_unfold.
  rewrite (add_edges_where_has_edge (λ it, compatible graph1 graph2 it.1 it.2)
             fst snd (λ _, ∅)).
  split.
  - intros [He|([p' q'] & Hin & Hc & Hpq)].
    + apply has_edge_spec in He as (e & He & _). rewrite HE in He.
      by apply elem_of_nil in He.
    + apply elem_of_combinations2 in Hin as [? ?]. simpl in *.
      destruct Hpq as [[-> ->]|[-> ->]]; [done|].
      by rewrite compatible_sym.
  - intros (Hp & Hq & Hc). right.
    assert (p ≠ q) as Hne.
    { apply compatible_spec in Hc as (Hne & _). congruence. }
    destruct (combinations2_complete _ _ _ Hp Hq Hne) as [Hin|Hin].
    + exists (p, q). naive_solver.
    + exists (q, p). rewrite compatible_sym. naive_solver.
Qed.

(** ** First phase *)

#[local] Abbreviation heavy_pair := (heavy_pair graph1 graph2 attributes).
#[local] Abbreviation leaf_pair := (leaf_pair graph1 graph2 attributes).

Lemma heavy_product_unfold :
  heavy_product graph1 graph2 attributes
  = add_compatible_edges graph1 graph2
      (foldl (λ g it, if heavy_pair it then add_node g (it.1.1, it.2.1) ∅ else g)
             empty_graph (product (g_node graph1) (g_node graph2))).
Proof.
  unfold heavy_product. f_equal. apply foldl_pointwise.
  intros g [[i1 n1] [i2 n2]]. unfold heavy_pair. simpl.
  by destruct (attrs_agree attributes n1 n2).
Qed.

Lemma heavy_product_nodes a b :
  (a, b) ∈ nodes (heavy_product graph1 graph2 attributes)
  ↔ ∃ node1 node2,
      (a, node1) ∈ g_node graph1 ∧ (b, node2) ∈ g_node graph2
      ∧ attrs_agree attributes node1 node2 = true
      ∧ degree graph1 a ≠ 1 ∧ degree graph2 b ≠ 1.
Proof.
  rewrite heavy_product_unfold, add_compatible_edges_nodes.
  rewrite (add_nodes_where_nodes heavy_pair (λ it, (it.1.1, it.2.1)) (λ _, ∅)).
  unfold heavy_pair. split.
  - intros [Hin|([[i1 n1] [i2 n2]] & Hin & Hc & [= <- <-])].
    + by apply elem_of_nil in Hin.
    + apply elem_of_product in Hin as [? ?]. simpl in Hc.
      rewrite !andb_true_iff, !bool_decide_eq_true in Hc.
      exists n1, n2. naive_solver.
  - intros (n1 & n2 & Hi1 & Hi2 & Hc & Hd1 & Hd2). right.
    exists ((a, n1), (b, n2)). split; [by apply elem_of_product|].
    simpl. rewrite Hc, !bool_decide_eq_true_2 by done. done.
Qed.

Lemma heavy_product_NoDup : NoDup (nodes (heavy_product graph1 graph2 attributes)).
Proof.
  rewrite heavy_product_unfold, add_compatible_edges_nodes.
  apply (add_nodes_where_NoDup heavy_pair (λ it, (it.1.1, it.2.1)) (λ _, ∅)).
  apply NoDup_nil_2.
Qed.

Lemma heavy_product_has_edge p q :
  has_edge (heavy_product graph1 graph2 attributes) p q = true
  ↔ p ∈ nodes (heavy_product graph1 graph2 attributes)
    ∧ q ∈ nodes (heavy_product graph1 graph2 attributes)
    ∧ compatible graph1 graph2 p q = true.
Proof.
  rewrite heavy_product_unfold, add_compatible_edges_nodes.
  apply add_compatible_edges_has_edge.
  by rewrite (add_nodes_where_edges heavy_pair (λ it, (it.1.1, it.2.1)) (λ _, ∅)).
Qed.

(** ** Second phase *)

Lemma leaf_product_unfold clique :
  leaf_product graph1 graph2 attributes clique
  = add_compatible_edges graph1 graph2
      (foldl (λ g it, if leaf_pair clique it
                      then add_node g (it.1.1, it.2.1) ∅ else g)
             (add_nodes_from empty_graph clique)
             (product (g_node graph1) (g_node graph2))).
Proof.
  unfold leaf_product. f_equal. apply foldl_pointwise.
  intros g [[i1 n1] [i2 n2]]. unfold leaf_pair. simpl.
  by destruct (_ && attrs_agree attributes n1 n2).
Qed.

Lemma add_nodes_from_spec (G : Graph (V1 * V2) () ()) clique :
  (∀ p, p ∈ nodes (add_nodes_from G clique) ↔ p ∈ nodes G ∨ p ∈ clique)
  ∧ g_edge (add_nodes_from G clique) = g_edge G
  ∧ (NoDup (nodes G) → NoDup (nodes (add_nodes_from G clique))).
Proof.
  unfold add_nodes_from.
  pose proof (add_nodes_where_nodes (λ _ : V1 * V2, true) id (λ _, ∅) clique G) as Hn.
  pose proof (add_nodes_where_edges (B:=()) (λ _ : V1 * V2, true) id (λ _, ∅) clique G) as He.
  pose proof (add_nodes_where_NoDup (B:=()) (λ _ : V1 * V2, true) id (λ _, ∅) clique G) as Hd.
  simpl in *. split_and!; [|done..].
  intros p. rewrite Hn. naive_solver.
Qed.

Lemma neighbours_agree_spec (match_ : gmap V1 V2) g1_node g2_node :
  neighbours_agree graph1 graph2 match_ g1_node g2_node = true
  ↔ neighbors graph1 g1_node = []
    ∨ (∃ n, n ∈ neighbors graph1 g1_node ∧ match_ !! n = None)
    ∨ (∃ n1 n2, n1 ∈ neighbors graph1 g1_node ∧ n2 ∈ neighbors graph2 g2_node
                ∧ match_ !! n1 = Some n2).
Proof.
  unfold neighbours_agree.
  rewrite !orb_true_iff, !bool_decide_eq_true, existsb_exists.
  setoid_rewrite bool_decide_eq_true. setoid_rewrite <- list_elem_of_In.
  setoid_rewrite list_elem_of_fmap.
  assert ((λ n, match_ !! n) <$> neighbors graph1 g1_node = []
          ↔ neighbors graph1 g1_node = []) as ->.
  { split; [apply fmap_nil_inv|by intros ->]. }
  naive_solver.
Qed.

Lemma leaf_product_nodes clique a b :
  (a, b) ∈ nodes (leaf_product graph1 graph2 attributes clique)
  ↔ (a, b) ∈ clique
    ∨ ∃ node1 node2,
        (a, node1) ∈ g_node graph1 ∧ (b, node2) ∈ g_node graph2
        ∧ (degree graph1 a ≤ 1 ∨ degree graph2 b ≤ 1)
        ∧ attrs_agree attributes node1 node2 = true
        ∧ neighbours_agree graph1 graph2 (dict clique) a b = true.
Proof.
  rewrite leaf_product_unfold, add_compatible_edges_nodes.
  rewrite (add_nodes_where_nodes (leaf_pair clique) (λ it, (it.1.1, it.2.1)) (λ _, ∅)).
  destruct (add_nodes_from_spec empty_graph clique) as (-> & _ & _).
  unfold leaf_pair. split.
  - intros [[Hin|Hin]|([[i1 n1] [i2 n2]] & Hin & Hc & [= <- <-])].
    + by apply elem_of_nil in Hin.
    + by left.
    + apply elem_of_product in Hin as [? ?]. simpl in Hc.
      rewrite !andb_true_iff, orb_true_iff, !bool_decide_eq_true in Hc.
      right. exists n1, n2. naive_solver.
  - intros [Hin|(n1 & n2 & Hi1 & Hi2 & Hd & Hc & Hn)]; [left; by right|]. right.
    exists ((a, n1), (b, n2)). split; [by apply elem_of_product|].
    simpl. rewrite Hc, Hn, !andb_true_r. split; [|done].
    apply orb_true_iff. rewrite !bool_decide_eq_true. done.
Qed.

Lemma leaf_product_NoDup clique :
  NoDup (nodes (leaf_product graph1 graph2 attributes clique)).
Proof.
  rewrite leaf_product_unfold, add_compatible_edges_nodes.
  apply (add_nodes_where_NoDup (leaf_pair clique) (λ it, (it.1.1, it.2.1)) (λ _, ∅)).
  apply add_nodes_from_spec, NoDup_nil_2.
Qed.

Lemma leaf_product_has_edge clique p q :
  has_edge (leaf_product graph1 graph2 attributes clique) p q = true
  ↔ p ∈ nodes (leaf_product graph1 graph2 attributes clique)
    ∧ q ∈ nodes (leaf_product graph1 graph2 attributes clique)
    ∧ compatible graph1 graph2 p q = true.
Proof.
  rewrite leaf_product_unfold, add_compatible_edges_nodes.
  apply add_compatible_edges_has_edge.
  rewrite (add_nodes_where_edges (leaf_pair clique) (λ it, (it.1.1, it.2.1)) (λ _, ∅)).
  by destruct (add_nodes_from_spec empty_graph clique) as (_ & -> & _).
Qed.

Lemma leaf_product_distinct clique p q :
  has_edge (leaf_product graph1 graph2 attributes clique) p q = true →
  p.1 ≠ q.1 ∧ p.2 ≠ q.2.
Proof.
  intros (_ & _ & Hc)%leaf_product_has_edge.
  apply compatible_spec in Hc. naive_solver.
Qed.
End TwoPhase.

Section TwoPhaseClaims.
Context {V1 V2 : Type} `{Countable V1, Countable V2}.
Context {A B : Type} `{EqDecision A}.
Variables (graph1 : Graph V1 A B) (graph2 : Graph V2 A B).
Variable attributes : list string.
Implicit Types (C seed : list (V1 * V2)) (m : gmap V1 V2).

Let heavy := heavy_product graph1 graph2 attributes.
Let collected := all_cliques graph1 graph2 attributes.
Let result := maximum_common_subgraph graph1 graph2 attributes.

Lemma elem_of_all_cliques C :
  C ∈ collected
  ↔ ∃ seed, (seed = [] ∨ seed ∈ find_cliques heavy)
            ∧ C ∈ find_cliques (leaf_product graph1 graph2 attributes seed).
Proof.
  unfold collected, all_cliques. rewrite list_elem_of_bind.
  setoid_rewrite elem_of_cons. naive_solver.
Qed.

Lemma all_cliques_keys C : C ∈ collected → NoDup C ∧ NoDup C.*1.
Proof.
  intros (seed & _ & HC%find_cliques_sound)%elem_of_all_cliques.
  split; [apply HC|].
  apply (clique_keys_NoDup (leaf_product graph1 graph2 attributes seed));
    [apply leaf_product_distinct|apply HC].
Qed.

Lemma all_cliques_injective C k1 k2 v :
  C ∈ collected → dict C !! k1 = Some v → dict C !! k2 = Some v → k1 = k2.
Proof.
  intros (seed & _ & HC%find_cliques_sound)%elem_of_all_cliques.
  apply (clique_dict_injective (leaf_product graph1 graph2 attributes seed));
    [apply leaf_product_distinct|apply HC].
Qed.

Lemma dict_frozen C :
  C ∈ collected →
  dict (elements (list_to_set C : gset (V1 * V2))) = dict C
  ∧ (list_to_set C : gset (V1 * V2)) = list_to_set (map_to_list (dict C)).
Proof.
  intros [HND HK]%all_cliques_keys. split.
  - symmetry. apply dict_perm; [done|]. symmetry. by apply elements_list_to_set.
  - apply set_eq. intros p. rewrite !elem_of_list_to_set.
    destruct p as [k v]. by rewrite elem_of_map_to_list, lookup_dict.
Qed.

Lemma elem_of_maximum_common_subgraph m :
  m ∈ result
  ↔ ∃ C, C ∈ collected ∧ (∀ C', C' ∈ collected → length C' ≤ length C)
         ∧ m = dict C.
Proof.
  unfold result, maximum_common_subgraph, frozen. fold collected.
  rewrite list_elem_of_fmap. setoid_rewrite elem_of_elements.
  setoid_rewrite elem_of_list_to_set. setoid_rewrite list_elem_of_fmap.
  setoid_rewrite elem_of_maxes. split.
  - intros (c & -> & C & -> & HC & Hmax). exists C. split_and!; [done..|].
    by apply dict_frozen.
  - intros (C & HC & Hmax & ->). exists (list_to_set C). split.
    + symmetry. by apply dict_frozen.
    + by exists C.
Qed.

Lemma maximum_common_subgraph_NoDup : NoDup result.
Proof.
  unfold result, maximum_common_subgraph, frozen. fold collected.
  apply NoDup_fmap_2_strong; [|apply NoDup_elements].
  intros c1 c2 Hc1 Hc2 E.
  apply elem_of_elements, elem_of_list_to_set, list_elem_of_fmap in Hc1
    as (C1 & -> & [HC1 _]%elem_of_maxes).
  apply elem_of_elements, elem_of_list_to_set, list_elem_of_fmap in Hc2
    as (C2 & -> & [HC2 _]%elem_of_maxes).
  destruct (dict_frozen C1 HC1) as [E1 ->], (dict_frozen C2 HC2) as [E2 ->].
  rewrite E1, E2 in E. by rewrite E.
Qed.

(** C4. [maximum_common_subgraph] runs the second phase for the empty
    seed and for every maximal clique of the first-phase product, of any
    size; it returns the collected cliques of greatest length, each node
    set once: the matches have one size and are pairwise different. *)
Theorem maximum_common_subgraph_spec :
  (∀ C, C ∈ collected
        ↔ ∃ seed, (seed = [] ∨ seed ∈ find_cliques heavy)
                  ∧ C ∈ find_cliques (leaf_product graph1 graph2 attributes seed))
  ∧ (∀ seed, seed ∈ find_cliques heavy → maximal_clique heavy seed)
  ∧ (∀ M, maximal_clique heavy M → M ≠ [] →
          ∃ seed, seed ∈ find_cliques heavy ∧ seed ≡ₚ M)
  ∧ (∀ m, m ∈ result
          ↔ ∃ C, C ∈ collected
                 ∧ (∀ C', C' ∈ collected → length C' ≤ length C)
                 ∧ m = dict C)
  ∧ (∀ m C, C ∈ collected → m = dict C →
            ∀ a b, m !! a = Some b ↔ (a, b) ∈ C)
  ∧ (∀ m m', m ∈ result → m' ∈ result → size m = size m')
  ∧ NoDup result.
Proof.
  split_and!.
  - apply elem_of_all_cliques.
  - intros seed. apply find_cliques_sound.
  - intros M HM Hne. apply find_cliques_complete; [|done..].
    apply heavy_product_NoDup.
  - apply elem_of_maximum_common_subgraph.
  - intros m C HC -> a b. apply lookup_dict. by apply all_cliques_keys.
  - intros m m' (C & HC & Hmax & ->)%elem_of_maximum_common_subgraph
      (C' & HC' & Hmax' & ->)%elem_of_maximum_common_subgraph.
    rewrite !size_dict by by apply all_cliques_keys.
    apply Nat.le_antisymm; auto.
  - apply maximum_common_subgraph_NoDup.
Qed.

(** The matches of the two-phase search are injective. *)
Lemma maximum_common_subgraph_injective m k1 k2 v :
  m ∈ result → m !! k1 = Some v → m !! k2 = Some v → k1 = k2.
Proof.
  intros (C & HC & _ & ->)%elem_of_maximum_common_subgraph.
  by apply all_cliques_injective.
Qed.
End TwoPhaseClaims.

Section LeafProductClaim.
Context {V1 V2 : Type} `{Countable V1, Countable V2}.
Context {A B : Type} `{EqDecision A}.
Variables (graph1 : Graph V1 A B) (graph2 : Graph V2 A B).
Variable attributes : list string.

(** C5, as the code has it.  The product graph of the second phase holds
    the seed and the pairs with a node of degree at most one that agree
    on the attributes and pass the test on the neighbours: the node of
    [graph1] has no neighbour, or one of its neighbours is not mapped by
    the seed, or one of them is mapped to a neighbour of the node of
    [graph2].  Its edges, like those of the first phase, join the pairs
    that differ in both components and on whose components the two
    graphs agree. *)
Theorem leaf_product_spec (seed : list (V1 * V2)) :
  (∀ a b,
     (a, b) ∈ nodes (leaf_product graph1 graph2 attributes seed)
     ↔ (a, b) ∈ seed
       ∨ ∃ node1 node2,
           (a, node1) ∈ g_node graph1 ∧ (b, node2) ∈ g_node graph2
           ∧ (degree graph1 a ≤ 1 ∨ degree graph2 b ≤ 1)
           ∧ (∀ attr, attr ∈ attributes →
                ∃ x, node1 !! attr = Some x ∧ node2 !! attr = Some x)
           ∧ (neighbors graph1 a = []
              ∨ (∃ n, n ∈ neighbors graph1 a ∧ dict seed !! n = None)
              ∨ (∃ n1 n2, n1 ∈ neighbors graph1 a ∧ n2 ∈ neighbors graph2 b
                          ∧ dict seed !! n1 = Some n2)))
  ∧ (∀ p q,
       has_edge (leaf_product graph1 graph2 attributes seed) p q = true
       ↔ p ∈ nodes (leaf_product graph1 graph2 attributes seed)
         ∧ q ∈ nodes (leaf_product graph1 graph2 attributes seed)
         ∧ p.1 ≠ q.1 ∧ p.2 ≠ q.2
         ∧ (has_edge graph1 p.1 q.1 = true ↔ has_edge graph2 p.2 q.2 = true))
  ∧ (∀ p q,
       has_edge (heavy_product graph1 graph2 attributes) p q = true
       ↔ p ∈ nodes (heavy_product graph1 graph2 attributes)
         ∧ q ∈ nodes (heavy_product graph1 graph2 attributes)
         ∧ p.1 ≠ q.1 ∧ p.2 ≠ q.2
         ∧ (has_edge graph1 p.1 q.1 = true ↔ has_edge graph2 p.2 q.2 = true)).
Proof.
  split_and!.
  - intros a b. rewrite leaf_product_nodes.
    setoid_rewrite attrs_agree_spec. by setoid_rewrite neighbours_agree_spec.
  - intros p q. rewrite leaf_product_has_edge, compatible_spec.
    destruct (has_edge graph1 p.1 q.1), (has_edge graph2 p.2 q.2); naive_solver.
  - intros p q. rewrite heavy_product_has_edge, compatible_spec.
    destruct (has_edge graph1 p.1 q.1), (has_edge graph2 p.2 q.2); naive_solver.
Qed.
End LeafProductClaim.

(** C5, as the specification has it, fails.  For two bonds and the empty
    seed the pair of the first atoms is in the product graph, although
    each atom has a neighbour and the seed maps none. *)
Lemma leaf_product_admits_unmapped :
  (1, 1) ∈ nodes (leaf_product bond bond [] [])
  ∧ ((1, 1) ∉ ([] : list (nat * nat)))
  ∧ ¬ spec_leaf_pair bond bond [] (dict []) 1 1.
Proof.
  split_and!.
  - vm_compute nodes. set_solver.
  - apply not_elem_of_nil.
  - intros (n1 & n2 & _ & _ & _ & _ & [(x & y & _ & _ & Hs)|[Hn|Hn]]).
    + unfold dict in Hs. simpl in Hs. by rewrite lookup_empty in Hs.
    + vm_compute in Hn. done.
    + vm_compute in Hn. done.
Qed.

(** * The quotient graph *)

Section EdgeLookup.
Context {V : Type} `{Countable V} {A B : Type}.
Implicit Types (G : Graph V A B) (u v x y : V).

Lemma joins_same_pair u v x y (e : V * V * gmap string B) :
  joins u v e = true → joins x y e = true → same_pair u v x y.
Proof. rewrite !joins_spec. unfold same_pair. naive_solver. Qed.

Lemma joins_of_same_pair u v x y (e : V * V * gmap string B) :
  same_pair u v x y → joins x y e = joins u v e.
Proof.
  intros [[-> ->]|[-> ->]]; [done|apply joins_sym].
Qed.

Lemma has_edge_same_pair G u v x y :
  same_pair u v x y → has_edge G x y = has_edge G u v.
Proof. intros [[-> ->]|[-> ->]]; [done|apply has_edge_sym]. Qed.

Lemma edge_attrs_head G x y :
  edge_attrs G x y = snd <$> head (filter (λ e, joins x y e = true) (g_edge G)).
Proof.
  unfold edge_attrs. induction (g_edge G) as [|e es IH]; [done|].
  rewrite filter_cons. simpl. case_decide as E; simpl; [done|].
  rewrite <- IH. by destruct (list_find _ es) as [[??]|].
Qed.

Lemma has_edge_filter G x y :
  has_edge G x y = false ↔ filter (λ e, joins x y e = true) (g_edge G) = [].
Proof.
  unfold has_edge. induction (g_edge G) as [|e es IH]; [done|].
  rewrite filter_cons. simpl. case_decide as E.
  - rewrite E. simpl. done.
  - apply not_true_is_false in E. rewrite E. simpl. done.
Qed.

Lemma g_edge_add_edge G u v attrs :
  g_edge (add_edge G u v attrs)
  = if has_edge G u v
    then (λ e, if joins u v e then (e.1, attrs ∪ e.2) else e) <$> g_edge G
    else g_edge G ++ [(u, v, attrs)].
Proof.
  unfold add_edge.
  set (G1 := if has_node G u then G else add_node G u ∅).
  set (G2 := if has_node G1 v then G1 else add_node G1 v ∅).
  assert (HE : g_edge G2 = g_edge G).
  { unfold G2, G1. destruct (has_node G u);
      repeat (destruct (has_node _ v)); by rewrite ?g_edge_add_node. }
  unfold has_edge. rewrite HE. by destruct (existsb _ _).
Qed.

Lemma filter_fmap_keep (f : V * V * gmap string B → V * V * gmap string B)
    x y (es : list (V * V * gmap string B)) :
  (∀ e, (f e).1 = e.1) →
  filter (λ e, joins x y e = true) (f <$> es)
  = f <$> filter (λ e, joins x y e = true) es.
Proof.
  intros Hf. induction es as [|e es IH]; [done|].
  rewrite fmap_cons, !filter_cons, IH.
  assert (joins x y (f e) = joins x y e) as ->.
  { unfold joins. by rewrite Hf. }
  by case_decide.
Qed.
End EdgeLookup.

Section MergeEdges.
Context {V : Type} `{Countable V} {A W X : Type}.
Variables (wadd : W → W → W) (wone : W).
Variable bm : gmap V nat.
Implicit Types (CG : Graph nat (block_attr V A W X) W).
Implicit Types (e : V * V * gmap string W) (es : list (V * V * gmap string W)).

#[local] Abbreviation weighted := (λ w : W, ({["weight" := w]} : gmap string W)).

#[local] Abbreviation merged_into := (merged_into (A:=A) (X:=X) wadd wone bm).

Lemma crossing_snoc i j es e :
  crossing bm i j (es ++ [e])
  = crossing bm i j es
    ++ (if decide ((bm !! e.1.1 = Some i ∧ bm !! e.1.2 = Some j)
                   ∨ (bm !! e.1.1 = Some j ∧ bm !! e.1.2 = Some i))
        then [e] else []).
Proof. unfold crossing. rewrite filter_app. f_equal. Qed.

Lemma merged_snoc (ws : list W) w :
  merged wadd (ws ++ [w])
  = Some (match merged wadd ws with Some s => wadd s w | None => w end).
Proof. destruct ws as [|w0 ws]; simpl; [done|]. by rewrite foldl_snoc. Qed.

Lemma merged_into_start ns CG :
  nodes CG = ns → g_edge CG = [] → merged_into ns CG [].
Proof.
  intros Hn He. split; [done|by rewrite He|intros; rewrite He; simpl; lia|].
  intros i j _. rewrite edge_attrs_head, He. done.
Qed.

Lemma merge_edge_keeps ns CG es e :
  (∀ u i, bm !! u = Some i → i ∈ ns) →
  merged_into ns CG es → merged_into ns (merge_edge wadd wone bm CG e) (es ++ [e]).
Proof.
  intros Hbm [Hn Hl Ho Hw]. unfold merge_edge.
  destruct (bm !! e.1.1) as [bmu|] eqn:Eu; [destruct (bm !! e.1.2) as [bmv|] eqn:Ev|].
  2,3: (split; [done..|]; intros i j Hij; rewrite crossing_snoc, Eu, ?Ev;
        rewrite decide_False by naive_solver; rewrite app_nil_r; by apply Hw).
  destruct (decide (bmu = bmv)) as [->|Hne].
  { split; [done..|]. intros i j Hij. rewrite crossing_snoc, Eu, Ev.
    rewrite decide_False by naive_solver. rewrite app_nil_r. by apply Hw. }
  assert (Hcross : ∀ i j,
    crossing bm i j (es ++ [e])
    = crossing bm i j es ++ (if decide (same_pair bmu bmv i j) then [e] else [])).
  { intros i j. rewrite crossing_snoc, Eu, Ev.
    destruct (decide (same_pair bmu bmv i j)) as [Hs|Hs].
    - rewrite decide_True; [done|]. unfold same_pair in Hs. naive_solver.
    - rewrite decide_False; [done|]. unfold same_pair in Hs. naive_solver. }
  pose proof (Hw bmu bmv Hne) as Huv.
  destruct (has_edge CG bmu bmv) eqn:Ehas.
  - (* the weight is added to the edge that is there *)
    set (f := λ ce : nat * nat * gmap string W,
           if joins bmu bmv ce
           then (ce.1, alter (λ w, wadd w (weight_of wone e)) "weight" ce.2)
           else ce).
    assert (Hf : ∀ ce, (f ce).1 = ce.1).
    { intros ce. unfold f. by destruct (joins bmu bmv ce). }
    split.
    + done.
    + simpl. apply Forall_fmap. eapply Forall_impl; [exact Hl|].
      intros ce Hce. simpl. unfold f. by destruct (joins bmu bmv ce).
    + intros i j. simpl. fold f. rewrite filter_fmap_keep, length_fmap by done.
      apply Ho.
    + intros i j Hij. rewrite edge_attrs_head. simpl. fold f.
      rewrite filter_fmap_keep by done. rewrite Hcross, fmap_app.
      specialize (Hw i j Hij). rewrite edge_attrs_head in Hw.
      destruct (filter (λ ce, joins i j ce = true) (g_edge CG)) as [|e0 rest] eqn:Ef.
      * (* no edge between [i] and [j]: they are not the blocks of [e] *)
        simpl in *. rewrite decide_False.
        { by rewrite app_nil_r. }
        intros Hs. apply has_edge_filter in Ef.
        rewrite (has_edge_same_pair _ _ _ _ _ Hs) in Ef. congruence.
      * simpl in *. assert (joins i j e0 = true) as Hj0.
        { assert (e0 ∈ filter (λ ce, joins i j ce = true) (g_edge CG)) as Hin
            by (rewrite Ef; left).
          by apply list_elem_of_filter in Hin as [? _]. }
        destruct (decide (same_pair bmu bmv i j)) as [Hs|Hs].
        -- unfold f. rewrite <- (joins_of_same_pair bmu bmv i j e0 Hs), Hj0. simpl.
           rewrite merged_snoc.
           destruct (merged wadd (weight_of wone <$> crossing bm i j es)) as [s|];
             simpl in Hw; [|done].
           injection Hw as ->. f_equal.
        -- rewrite app_nil_r. unfold f.
           destruct (joins bmu bmv e0) eqn:Ej; [|done].
           exfalso. apply Hs. by eapply joins_same_pair.
  - (* a new edge is made *)
    assert (bmu ∈ nodes CG ∧ bmv ∈ nodes CG) as [Hu Hv].
    { rewrite Hn. split; eapply Hbm; done. }
    pose proof Ehas as Ef. apply has_edge_filter in Ef.
    split.
    + by rewrite nodes_add_edge.
    + rewrite g_edge_add_edge, Ehas. apply Forall_app. split; [done|].
      by apply Forall_singleton.
    + intros i j. rewrite g_edge_add_edge, Ehas, filter_app, length_app.
      rewrite filter_cons, filter_nil. case_decide as Ej; simpl; [|specialize (Ho i j); lia].
      assert (filter (λ ce, joins i j ce = true) (g_edge CG) = []) as ->; [|simpl; lia].
      rewrite <- Ef. apply list_filter_iff. intros ce.
      rewrite (joins_of_same_pair bmu bmv i j); [done|].
      apply joins_spec in Ej. unfold same_pair. simpl in Ej. naive_solver.
    + intros i j Hij. rewrite edge_attrs_head, g_edge_add_edge, Ehas, filter_app.
      rewrite filter_cons, filter_nil, Hcross, fmap_app.
      specialize (Hw i j Hij). rewrite edge_attrs_head in Hw.
      destruct (decide (same_pair bmu bmv i j)) as [Hs|Hs].
      * rewrite decide_True.
        2:{ apply joins_spec. unfold same_pair in Hs. simpl. naive_solver. }
        assert (filter (λ ce, joins i j ce = true) (g_edge CG) = []) as Ef'.
        { rewrite <- Ef. apply list_filter_iff. intros ce.
          by rewrite (joins_of_same_pair bmu bmv i j). }
        rewrite Ef' in Hw |- *. simpl in *. rewrite merged_snoc.
        by destruct (merged wadd (weight_of wone <$> crossing bm i j es)).
      * rewrite decide_False.
        2:{ rewrite joins_spec. unfold same_pair in Hs. simpl. naive_solver. }
        by rewrite !app_nil_r.
Qed.

Lemma merge_edges_keep ns CG es :
  (∀ u i, bm !! u = Some i → i ∈ ns) →
  nodes CG = ns → g_edge CG = [] →
  merged_into ns (foldl (merge_edge wadd wone bm) CG es) es.
Proof.
  intros Hbm Hn He. induction es as [|e es IH] using rev_ind.
  - by apply merged_into_start.
  - rewrite foldl_snoc. by apply merge_edge_keeps.
Qed.
End MergeEdges.

Section Blocks.
Context {V : Type} `{Countable V} {A W : Type}.
Variable G : Graph V A W.
Implicit Types (partitions : list (list V)).
Implicit Types (bm : gmap V nat).

Lemma nodes_subgraph (idxs : list V) u :
  u ∈ nodes (subgraph G idxs) ↔ u ∈ nodes G ∧ u ∈ idxs.
Proof.
  unfold subgraph, nodes. simpl. rewrite !list_elem_of_fmap. split.
  - intros ([n d] & -> & [Hin ?]%list_elem_of_filter). split; [|done].
    by exists (n, d).
  - intros [([n d] & -> & Hin) Hi]. exists (n, d). split; [done|].
    by apply list_elem_of_filter.
Qed.

#[local] Abbreviation owned := (owned G).
#[local] Abbreviation assign_all := (assign_all G).

Lemma lookup_assign bm i us u :
  assign bm i us !! u = if decide (u ∈ us) then Some i else bm !! u.
Proof.
  unfold assign. revert bm. induction us as [|x us IH]; intros bm; simpl.
  - done.
  - rewrite IH. rewrite lookup_insert.
    repeat case_decide; set_solver.
Qed.

Lemma assign_all_snoc partitions idxs bm :
  assign_all (partitions ++ [idxs]) 0 bm
  = assign (assign_all partitions 0 bm) (length partitions)
           (nodes (subgraph G idxs)).
Proof.
  unfold assign_all. rewrite length_app. simpl.
  rewrite seq_app, zip_with_app by by rewrite length_seq.
  by rewrite foldl_app.
Qed.

Lemma lookup_assign_all partitions u i :
  assign_all partitions 0 ∅ !! u = Some i ↔ owned partitions u i.
Proof.
  revert i. induction partitions as [|idxs partitions IH] using rev_ind; intros i.
  - unfold assign_all, owned. simpl. rewrite lookup_empty. naive_solver.
  - rewrite assign_all_snoc, lookup_assign. unfold owned in *.
    case_decide as Hin.
    + apply nodes_subgraph in Hin as [HuG Hu]. split.
      * intros [= <-]. split_and!; [done| |].
        -- exists idxs. by rewrite list_lookup_middle.
        -- intros j idxs' Hlt Hj. apply lookup_lt_Some in Hj.
           rewrite length_app in Hj. simpl in Hj. lia.
      * intros (_ & (idxs' & Hi & Hu') & Hlast). f_equal.
        pose proof (lookup_lt_Some _ _ _ Hi) as Hlt.
        rewrite length_app in Hlt. simpl in Hlt.
        destruct (decide (i = length partitions)) as [|Hne]; [done|]. exfalso.
        apply (Hlast (length partitions) idxs); [lia| |done].
        by rewrite list_lookup_middle.
    + rewrite IH. rewrite nodes_subgraph in Hin. split.
      * intros (HuG & (idxs' & Hi & Hu') & Hlast). split_and!; [done| |].
        -- exists idxs'. split; [|done]. by apply lookup_app_l_Some.
        -- intros j idxs'' Hlt Hj.
           destruct (decide (j = length partitions)) as [->|Hne].
           ++ rewrite list_lookup_middle in Hj by done. naive_solver.
           ++ rewrite lookup_app_l in Hj.
              ** by eapply Hlast.
              ** apply lookup_lt_Some in Hj. rewrite length_app in Hj.
                 simpl in Hj. lia.
      * intros (HuG & (idxs' & Hi & Hu') & Hlast).
        assert (i < length partitions) as Hlt.
        { pose proof (lookup_lt_Some _ _ _ Hi) as Hlt.
          rewrite length_app in Hlt. simpl in Hlt.
          destruct (decide (i = length partitions)) as [->|]; [|lia].
          rewrite list_lookup_middle in Hi by done. naive_solver. }
        split_and!; [done| |].
        -- exists idxs'. split; [|done]. by rewrite lookup_app_l in Hi.
        -- intros j idxs'' Hij Hj. eapply Hlast; [done|].
           by apply lookup_app_l_Some.
Qed.
End Blocks.

Section Quotient.
Context {V : Type} `{Countable V} {A W X : Type}.
Variables (wadd : W → W → W) (wone : W).
Variable G : Graph V A W.
Implicit Types (CG : Graph nat (block_attr V A W X) W).
Implicit Types (partitions : list (list V)) (attrs : list (string * list X)).
Implicit Types (bm : gmap V nat) (d : gmap string (block_attr V A W X)).

#[local] Abbreviation holds_graph := (holds_graph (X:=X) G).

Lemma block_node_graph attrs i idxs d :
  block_node G attrs i idxs = Ok d → holds_graph idxs d.
Proof.
  unfold block_node.
  set (step := λ (acc : result (gmap string (block_attr V A W X)))
                 (kv : string * list X),
               let '(k, vals) := kv in
               node ← acc;
               match vals !! i with
               | Some x => Ok (<[k := BUser x]> node)
               | None => Raise IndexError
               end).
  assert (Hstep : ∀ l acc node,
    foldl step acc l = Ok node →
    ∃ node0, acc = Ok node0 ∧ (holds_graph idxs node0 → holds_graph idxs node)).
  { induction l as [|[k vals] l IH]; intros acc node; simpl.
    - intros ->. eauto.
    - intros (node1 & E1 & H1)%IH. destruct acc as [node0|e]; [|done].
      exists node0. split; [done|]. intros H0. apply H1.
      simpl in E1. destruct (vals !! i) as [x|]; [|done].
      injection E1 as <-. unfold holds_graph in *.
      destruct (decide (k = "graph")) as [->|Hne].
      + right. exists x. apply lookup_insert_eq.
      + by rewrite lookup_insert_ne. }
  destruct (foldl _ _ attrs) as [node|e] eqn:E; [|done].
  simpl. intros [= <-].
  apply Hstep in E as (node0 & [= <-] & Hh).
  unfold holds_graph in *. rewrite !lookup_insert_ne by done.
  apply Hh. left. apply lookup_singleton_eq.
Qed.

Lemma block_node_ok attrs n i idxs :
  assignable attrs n → i < n →
  ∃ d, block_node G attrs i idxs = Ok d
       ∧ d !! "graph" = Some (BGraph (subgraph G idxs)).
Proof.
  intros Ha Hi. unfold block_node.
  set (step := λ (acc : result (gmap string (block_attr V A W X)))
                 (kv : string * list X),
               let '(k, vals) := kv in
               node ← acc;
               match vals !! i with
               | Some x => Ok (<[k := BUser x]> node)
               | None => Raise IndexError
               end).
  assert (Hstep : ∀ node0, node0 !! "graph" = Some (BGraph (subgraph G idxs)) →
    ∃ node, foldl step (Ok node0) attrs = Ok node
            ∧ node !! "graph" = Some (BGraph (subgraph G idxs))).
  { induction Ha as [|[k vals] l [Hk Hlen] _ IH]; intros node0 H0; simpl.
    - eauto.
    - simpl in Hk, Hlen. destruct (lookup_lt_is_Some_2 vals i) as [x ->]; [lia|].
      apply IH. by rewrite lookup_insert_ne. }
  destruct (Hstep {["graph" := BGraph (subgraph G idxs)]}) as (node & -> & Hg).
  { apply lookup_singleton_eq. }
  simpl. eexists. split; [done|]. by rewrite !lookup_insert_ne.
Qed.

Lemma add_blocks_spec attrs partitions k CG0 CG :
  nodes CG0 = seq 0 k →
  add_blocks G attrs k partitions CG0 = Ok CG →
  ∃ ds, Forall2 holds_graph partitions ds
        ∧ g_node CG = g_node CG0 ++ zip (seq k (length partitions)) ds
        ∧ g_edge CG = g_edge CG0.
Proof.
  revert k CG0. induction partitions as [|idxs partitions IH]; intros k CG0 Hn; simpl.
  - intros [= <-]. exists []. by rewrite app_nil_r.
  - destruct (block_node G attrs k idxs) as [d|e] eqn:Ed; [|done]. simpl.
    assert (has_node CG0 k = false) as Hk.
    { apply bool_decide_eq_false. rewrite Hn, elem_of_seq. lia. }
    intros (ds & HF & Hg & He)%IH.
    + exists (d :: ds). split_and!.
      * constructor; [by eapply block_node_graph|done].
      * rewrite Hg. unfold add_node. rewrite Hk. simpl. by rewrite <- app_assoc.
      * by rewrite He, g_edge_add_node.
    + rewrite nodes_add_node, Hk, Hn. by rewrite seq_S.
Qed.

Lemma add_blocks_ok attrs partitions k CG0 :
  assignable attrs (k + length partitions) →
  nodes CG0 = seq 0 k →
  ∃ CG ds,
    add_blocks G attrs k partitions CG0 = Ok CG
    ∧ Forall2 (λ idxs d, d !! "graph" = Some (BGraph (subgraph G idxs)))
              partitions ds
    ∧ g_node CG = g_node CG0 ++ zip (seq k (length partitions)) ds.
Proof.
  revert k CG0. induction partitions as [|idxs partitions IH]; intros k CG0 Ha Hn.
  - simpl. exists CG0, []. by rewrite app_nil_r.
  - simpl in Ha.
    destruct (block_node_ok attrs _ k idxs Ha) as (d & Ed & Hd); [lia|].
    cbn [add_blocks]. rewrite Ed.
    assert (has_node CG0 k = false) as Hk.
    { apply bool_decide_eq_false. rewrite Hn, elem_of_seq. lia. }
    destruct (IH (S k) (add_node CG0 k d)) as (CG & ds & E & HF & Hg).
    + by replace (S k + length partitions) with (k + S (length partitions)) by lia.
    + rewrite nodes_add_node, Hk, Hn. by rewrite seq_S.
    + exists CG, (d :: ds). split_and!; [done|by constructor|].
      rewrite Hg. unfold add_node. rewrite Hk. simpl. by rewrite <- app_assoc.
Qed.

#[local] Abbreviation mapping_step :=
  (λ (acc : result (gmap V nat)) (nd : nat * gmap string (block_attr V A W X)),
     let '(n, d) := nd in
     block_mapping ← acc;
     match d !! "graph" with
     | Some (BGraph bd) =>
         Ok (foldl (λ bm u, <[u := n]> bm) block_mapping (nodes bd))
     | Some _ => Raise AttributeError
     | None => Raise KeyError
     end).

Lemma mapping_step_raise l e : foldl mapping_step (Raise e) l = Raise e.
Proof. induction l as [|[n d] l IH]; [done|]. simpl. apply IH. Qed.

Lemma block_mapping_fold partitions ds k bm0 bm :
  Forall2 holds_graph partitions ds →
  foldl mapping_step (Ok bm0) (zip (seq k (length partitions)) ds) = Ok bm →
  bm = assign_all G partitions k bm0.
Proof.
  intros HF. revert k bm0. induction HF as [|idxs d partitions ds Hd HF IH];
    intros k bm0; simpl.
  - by intros [= <-].
  - unfold assign_all. simpl. destruct Hd as [->|[x ->]].
    + intros E. by apply IH in E.
    + by rewrite mapping_step_raise.
Qed.

Lemma block_mapping_ok partitions ds k bm0 :
  Forall2 (λ idxs d, d !! "graph" = Some (BGraph (subgraph G idxs)))
          partitions ds →
  ∃ bm, foldl mapping_step (Ok bm0) (zip (seq k (length partitions)) ds) = Ok bm.
Proof.
  intros HF. revert k bm0. induction HF as [|idxs d partitions ds Hd HF IH];
    intros k bm0; simpl.
  - eauto.
  - rewrite Hd. apply IH.
Qed.

Lemma blockmodel_general partitions attrs :
  (assignable attrs (length partitions) →
   ∃ CG, blockmodel wadd wone G partitions attrs = Ok CG)
  ∧ ∀ CG, blockmodel wadd wone G partitions attrs = Ok CG →
      nodes CG = seq 0 (length partitions)
      ∧ (∀ i, has_edge CG i i = false)
      ∧ (∀ i j, length (filter (λ ce, joins i j ce = true) (g_edge CG)) ≤ 1)
      ∧ ∃ bm, (∀ u i, bm !! u = Some i ↔ owned G partitions u i)
              ∧ ∀ i j, i ≠ j →
                  edge_attrs CG i j
                  = (λ w : W, ({["weight" := w]} : gmap string W))
                      <$> merged wadd
                            (weight_of wone <$> crossing bm i j (edges G)).
Proof.
  unfold blockmodel. split.
  - intros Ha.
    destruct (add_blocks_ok attrs partitions 0 empty_graph Ha eq_refl)
      as (CG0 & ds & -> & HF & Hg).
    simpl in Hg. cbn [mbind result_bind]. unfold block_mapping. rewrite Hg.
    destruct (block_mapping_ok partitions ds 0 ∅ HF) as (bm & ->).
    cbn [mbind result_bind]. eauto.
  - intros CG.
    destruct (add_blocks G attrs 0 partitions empty_graph) as [CG0|e] eqn:E0; [|done].
    apply add_blocks_spec in E0 as (ds & HF & Hg & He); [|done].
    simpl in Hg, He. cbn [mbind result_bind]. unfold block_mapping. rewrite Hg.
    destruct (foldl _ _ (zip _ ds)) as [bm|e] eqn:Ebm; [|done].
    apply block_mapping_fold in Ebm; [|done]. cbn [mbind result_bind]. intros [= <-].
    assert (Hown : ∀ u i, bm !! u = Some i ↔ owned G partitions u i).
    { intros u i. rewrite Ebm. apply lookup_assign_all. }
    assert (Hn0 : nodes CG0 = seq 0 (length partitions)).
    { unfold nodes. rewrite Hg, fst_zip; [done|].
      apply Forall2_length in HF. rewrite length_seq. lia. }
    destruct (merge_edges_keep wadd wone bm (X:=X) (seq 0 (length partitions))
                CG0 (edges G)) as [Hn Hl Ho Hw]; [|done|done|].
    { intros u i (_ & (idxs & Hi%lookup_lt_Some & _) & _)%Hown.
      apply elem_of_seq. lia. }
    split_and!; [done| |done|by exists bm].
    intros i. destruct (has_edge _ i i) eqn:Ei; [|done]. exfalso.
    apply has_edge_spec in Ei as (ce & Hce & Hj).
    rewrite Forall_forall in Hl. apply (Hl ce Hce).
    apply joins_spec in Hj. naive_solver.
Qed.
End Quotient.

(** C9. [blockmodel] makes one node for every partition, numbered in
    order, whatever the partitions cover.  An edge of the source whose
    ends are in two different blocks adds its weight, 1.0 by default, to
    the one edge between the two blocks; no other edge counts, and no
    block is joined to itself.  With the partitions [{1,2}] and [{3,4}]
    and the bonds 1-3 (2.0), 2-3 (1.0) and 1-2, the quotient has the
    single edge 0-1 of weight 3.0. *)
Theorem blockmodel_spec :
  (∀ (V : Type) `(Countable V) (A W X : Type) (wadd : W → W → W) (wone : W)
     (G : Graph V A W) (partitions : list (list V))
     (attrs : list (string * list X)),
     (assignable attrs (length partitions) →
      ∃ CG, blockmodel wadd wone G partitions attrs = Ok CG)
     ∧ ∀ CG, blockmodel wadd wone G partitions attrs = Ok CG →
         nodes CG = seq 0 (length partitions)
         ∧ (∀ i, has_edge CG i i = false)
         ∧ (∀ i j, length (filter (λ ce, joins i j ce = true) (g_edge CG)) ≤ 1)
         ∧ ∃ bm, (∀ u i, bm !! u = Some i ↔ owned G partitions u i)
                 ∧ ∀ i j, i ≠ j →
                     edge_attrs CG i j
                     = (λ w : W, ({["weight" := w]} : gmap string W))
                         <$> merged wadd
                               (weight_of wone <$> crossing bm i j (edges G)))
  ∧ ∃ CG, blockmodel (X:=()) f64_add f64_one two_blocks [[1; 2]; [3; 4]] [] = Ok CG
          ∧ nodes CG = [0; 1]
          ∧ g_edge CG = [(0, 1, {["weight" := f64_three]})].
Proof.
  split.
  - intros. apply blockmodel_general.
  - eexists. split; [vm_compute; reflexivity|]. split; reflexivity.
Qed.

(** * Generators *)

Section Traces.
Context {X : Type}.
Implicit Types (t : trace X).

Lemma yielded_tapp t1 t2 x :
  x ∈ yielded (tapp t1 t2) → x ∈ yielded t1 ∨ x ∈ yielded t2.
Proof.
  induction t1 as [|e|a t1 IH]; simpl; [by right|by intros ?%elem_of_nil|].
  intros [->|Hx]%elem_of_cons; [left; left|].
  destruct (IH Hx); [left; by right|by right].
Qed.

Lemma ends_well_tapp t1 t2 : ends_well t1 → ends_well t2 → ends_well (tapp t1 t2).
Proof. induction t1; simpl; auto. Qed.

Lemma exhaust_ends_well t : ends_well t → exhaust t = Ok (yielded t).
Proof.
  induction t as [|e|a t IH]; simpl; [done|done|].
  intros Hw. by rewrite IH.
Qed.

Lemma exhaust_yielded t l : exhaust t = Ok l → l = yielded t.
Proof.
  revert l. induction t as [|e|a t IH]; simpl; intros l; [by intros [= <-]|done|].
  destruct (exhaust t) as [l'|e]; [|done]. simpl. intros [= <-].
  by rewrite (IH l').
Qed.

Lemma islice1_yielded t l : islice1 t = Ok l → l = take 1 (yielded t).
Proof. destruct t; simpl; by intros [= <-]. Qed.

Lemma islice1_ends_well t : ends_well t → islice1 t = Ok (take 1 (yielded t)).
Proof. by destruct t. Qed.
End Traces.

(** * Loops that may raise *)

Section ResultFolds.
Context {S X : Type}.
Implicit Types (f : S → X → result S).

Lemma foldl_result_cons f s x l :
  foldl (λ acc y, a ← acc; f a y) (Ok s) (x :: l)
  = foldl (λ acc y, a ← acc; f a y) (f s x) l.
Proof. done. Qed.

Lemma foldl_result_raise f e l :
  foldl (λ acc y, a ← acc; f a y) (Raise e) l = Raise e.
Proof. induction l as [|x l IH]; [done|]. simpl. apply IH. Qed.
End ResultFolds.

(** * Graphs as networkx holds them *)

Section WellFormed.
Context {V A B : Type} `{Countable V}.
Implicit Types (G : Graph V A B).

Lemma wf_graph_NoDup G : wf_graph G = true → NoDup (nodes G).
Proof. unfold wf_graph. rewrite andb_true_iff, bool_decide_eq_true. naive_solver. Qed.

Lemma wf_graph_neighbors G n m :
  wf_graph G = true → m ∈ neighbors G n → m ∈ nodes G.
Proof.
  unfold wf_graph. rewrite andb_true_iff, forallb_forall.
  intros [_ Hall]. unfold neighbors. rewrite list_elem_of_omap.
  intros (e & He & Hm). apply list_elem_of_In, Hall in He.
  rewrite andb_true_iff, !bool_decide_eq_true in He.
  destruct (decide (e.1.1 = n)); [naive_solver|].
  destruct (decide (e.1.2 = n)); naive_solver.
Qed.

Lemma populated_attribute G name n :
  populated G name = true → n ∈ nodes G → ∃ x, attribute G n name = Ok x.
Proof.
  unfold populated. rewrite forallb_forall. intros Hall Hn%list_elem_of_In.
  specialize (Hall n Hn). destruct (attribute G n name); [eauto|done].
Qed.

Lemma neighbors_sym G n m : m ∈ neighbors G n ↔ n ∈ neighbors G m.
Proof.
  unfold neighbors. rewrite !list_elem_of_omap.
  split; intros (e & He & Hm); exists e; (split; [done|]);
    destruct (decide (e.1.1 = n)), (decide (e.1.2 = n)),
      (decide (e.1.1 = m)), (decide (e.1.2 = m)); simplify_eq; congruence.
Qed.
End WellFormed.

(** * The matcher keeps its mapping sound *)

Section MatcherFacts.
Context {V1 V2 : Type} `{Countable V1, Countable V2}.
Context {A B1 B2 : Type} `{EqDecision A}.
Variables (G1 : Graph V1 A B1) (G2 : Graph V2 A B2).
Implicit Types (st : GMState V1 V2) (m : gmap V1 V2) (r : gmap V2 V1).

#[local] Abbreviation sound_core := (sound_core G1 G2).
#[local] Abbreviation consistent := (consistent G1 G2).

Lemma sound_core_injective m r : sound_core m r → injective m.
Proof.
  intros [Hinv _ _] k1 k2 v H1%Hinv H2%Hinv. congruence.
Qed.

Lemma sound_core_empty : sound_core ∅ ∅.
Proof. split; intros a b; rewrite ?lookup_empty; naive_solver. Qed.

Lemma consistent_initialize : consistent initialize.
Proof. split; [apply sound_core_empty|by intros n ?%elem_of_nil..]. Qed.

Lemma sound_core_insert m r a b x :
  sound_core m r → m !! a = None → r !! b = None →
  a ∈ nodes G1 → b ∈ nodes G2 →
  attribute G1 a "element" = Ok x → attribute G2 b "element" = Ok x →
  sound_core (<[a := b]> m) (<[b := a]> r).
Proof.
  intros [Hinv Hn He] Ha Hb Han Hbn Hx1 Hx2. split.
  - intros a' b'. rewrite !lookup_insert. repeat case_decide; subst.
    + naive_solver.
    + split; [intros [= <-]|intros E%Hinv; congruence]. done.
    + split; [intros E%Hinv; congruence|intros [= <-]]. done.
    + apply Hinv.
  - intros a' b'. rewrite lookup_insert. case_decide; subst; [|apply Hn].
    by intros [= <-].
  - intros a' b'. rewrite lookup_insert. case_decide; subst; [|apply He].
    intros [= <-]. eauto.
Qed.

(** ** The [inout] vectors *)

Lemma reach_fst {V : Type} `{Countable V} depth (inout : list (V * nat)) node n :
  n ∈ (reach depth inout node).*1 ↔ n ∈ inout.*1 ∨ n = node.
Proof.
  unfold reach. case_decide as E.
  - naive_solver.
  - rewrite fmap_app, elem_of_app. simpl. rewrite list_elem_of_singleton. done.
Qed.

Lemma foldl_reach_fst {V : Type} `{Countable V} depth (ns : list V)
    (inout : list (V * nat)) n :
  n ∈ (foldl (reach depth) inout ns).*1 ↔ n ∈ inout.*1 ∨ n ∈ ns.
Proof.
  revert inout. induction ns as [|x ns IH]; intros inout; simpl.
  - rewrite elem_of_nil. naive_solver.
  - rewrite IH, reach_fst, elem_of_cons. naive_solver.
Qed.

Lemma reach_all_nodes {V W B : Type} `{Countable V} (G : Graph V A B)
    (core : gmap V W) depth (inout : list (V * nat)) node n :
  (∀ x, x ∈ inout.*1 → x ∈ nodes G) → node ∈ nodes G →
  n ∈ (reach_all G core depth inout node).*1 → n ∈ nodes G.
Proof.
  intros Hin Hnode. unfold reach_all. rewrite foldl_reach_fst, reach_fst.
  intros [[?| ->]|[_ ?]%list_elem_of_filter]; auto.
Qed.

Lemma push_consistent st n1 n2 x :
  consistent st → core_1 st !! n1 = None → core_2 st !! n2 = None →
  n1 ∈ nodes G1 → n2 ∈ nodes G2 →
  attribute G1 n1 "element" = Ok x → attribute G2 n2 "element" = Ok x →
  consistent (push G1 G2 st n1 n2).
Proof.
  intros [Hc H1 H2] ??????. split; simpl.
  - by eapply sound_core_insert.
  - intros n. by apply reach_all_nodes.
  - intros n. by apply reach_all_nodes.
Qed.

(** ** The candidate pairs *)

Lemma min_in_order_elem {V : Type} `{Countable V} (order xs : list V) n :
  min_in_order order xs = Some n → n ∈ order ∧ n ∈ xs.
Proof.
  unfold min_in_order. intros Hh%head_Some_elem_of.
  by apply list_elem_of_filter in Hh as [? ?].
Qed.

Lemma candidate_pairs_fresh st pairs n1 n2 :
  consistent st → candidate_pairs_iter G1 G2 st = Ok pairs →
  (n1, n2) ∈ pairs →
  core_1 st !! n1 = None ∧ core_2 st !! n2 = None
  ∧ n1 ∈ nodes G1 ∧ n2 ∈ nodes G2.
Proof.
  intros [_ Hi1 Hi2]. unfold candidate_pairs_iter, terminal.
  destruct (_ && _).
  - destruct (min_in_order _ _) as [node_2|] eqn:Em; [|done].
    intros [= <-] (n & [= -> ->] & Hn)%list_elem_of_fmap.
    apply min_in_order_elem in Em as [Ho Hm].
    apply list_elem_of_filter in Hn as [? ?], Hm as [? ?]. auto.
  - destruct (head _) as [other_node|] eqn:Eh; [|done].
    intros [= <-] (n & [= -> ->] & Hn)%list_elem_of_fmap.
    apply head_Some_elem_of in Eh.
    apply list_elem_of_filter in Hn as [? ?], Eh as [? ?]. auto.
Qed.

Lemma candidate_pairs_ok st :
  consistent st → NoDup (nodes G2) →
  size (core_1 st) ≠ number_of_nodes G2 →
  ∃ pairs, candidate_pairs_iter G1 G2 st = Ok pairs.
Proof.
  intros [[Hinv Hn He] Hi1 Hi2] HND Hsize. unfold candidate_pairs_iter.
  destruct (_ && _) eqn:Eb.
  - apply andb_true_iff in Eb as [_ E2%bool_decide_eq_true].
    unfold min_in_order.
    destruct (terminal (core_2 st) (inout_2 st)) as [|n T2] eqn:ET; [done|].
    assert (n ∈ filter (λ n0, n0 ∈ n :: T2) (nodes G2)) as Hin.
    { apply list_elem_of_filter. split; [left|]. apply Hi2.
      assert (n ∈ terminal (core_2 st) (inout_2 st)) as Hn' by (rewrite ET; left).
      unfold terminal in Hn'. by apply list_elem_of_filter in Hn' as [_ ?]. }
    destruct (filter _ (nodes G2)); [by apply elem_of_nil in Hin|]. simpl. eauto.
  - destruct (filter (λ n, core_2 st !! n = None) (nodes G2)) as [|n ns] eqn:Ef;
      [|simpl; eauto].
    exfalso. apply Hsize.
    (* every node of [G2] is mapped, so the mapping is as large as [G2] *)
    assert (size (core_1 st) = size (core_2 st)) as ->.
    { rewrite <- !length_map_to_list.
      rewrite <- (length_fmap (λ kv : V1 * V2, (kv.2, kv.1))).
      apply Permutation_length, NoDup_Permutation.
      - apply NoDup_fmap_2_strong; [|apply NoDup_map_to_list].
        intros [a b] [a' b'] _ _ [= -> ->]. done.
      - apply NoDup_map_to_list.
      - intros [b a]. rewrite list_elem_of_fmap, elem_of_map_to_list. split.
        + intros ([a' b'] & [= -> ->] & Hab%elem_of_map_to_list). by apply Hinv.
        + intros Hba%Hinv. exists (a, b). split; [done|].
          by apply elem_of_map_to_list. }
    unfold number_of_nodes. rewrite <- (length_fmap fst). fold (nodes G2).
    rewrite <- size_dom, <- (size_list_to_set (C:=gset V2) (nodes G2)) by done.
    f_equal. apply set_eq. intros b. rewrite elem_of_dom, elem_of_list_to_set. split.
    + intros [a Hb%Hinv]. by apply Hn in Hb as [_ ?].
    + intros Hb. destruct (core_2 st !! b) eqn:Eb2; [done|]. exfalso.
      assert (b ∈ filter (λ n, core_2 st !! n = None) (nodes G2)) as Hin
        by by apply list_elem_of_filter.
      rewrite Ef in Hin. by apply elem_of_nil in Hin.
Qed.

Lemma unmapped_push st n1 n2 :
  n2 ∈ nodes G2 → core_2 st !! n2 = None →
  length (unmapped G2 (push G1 G2 st n1 n2)) < length (unmapped G2 st).
Proof.
  intros Hn Hf. unfold unmapped. simpl.
  assert (filter (λ n, <[n2 := n1]> (core_2 st) !! n = None) (nodes G2)
          = filter (λ n, n ≠ n2) (filter (λ n, core_2 st !! n = None) (nodes G2)))
    as ->.
  { rewrite list_filter_filter. apply list_filter_iff. intros n.
    rewrite lookup_insert. case_decide; naive_solver. }
  apply (length_filter_lt _ _ n2); [by apply list_elem_of_filter|naive_solver].
Qed.

Lemma semantic_feasibility_true n1 n2 :
  semantic_feasibility G1 G2 n1 n2 = Ok true →
  ∃ x, attribute G1 n1 "element" = Ok x ∧ attribute G2 n2 "element" = Ok x.
Proof.
  unfold semantic_feasibility.
  destruct (attribute G1 n1 "element") as [x|]; [|done].
  destruct (attribute G2 n2 "element") as [y|]; [|done]. simpl.
  intros [= ->%bool_decide_eq_true]. eauto.
Qed.

Lemma semantic_feasibility_ok n1 n2 :
  populated G1 "element" = true → populated G2 "element" = true →
  n1 ∈ nodes G1 → n2 ∈ nodes G2 →
  ∃ b, semantic_feasibility G1 G2 n1 n2 = Ok b.
Proof.
  intros P1 P2 [x Hx]%(populated_attribute _ _ _ P1) [y Hy]%(populated_attribute _ _ _ P2).
  unfold semantic_feasibility. rewrite Hx, Hy. simpl. eauto.
Qed.

(** ** What the search yields *)

#[local] Abbreviation extends := (extends G1 G2).

Lemma try_pairs_sound recur st pairs m :
  consistent st →
  (∀ n1 n2, (n1, n2) ∈ pairs →
     core_1 st !! n1 = None ∧ core_2 st !! n2 = None
     ∧ n1 ∈ nodes G1 ∧ n2 ∈ nodes G2) →
  (∀ st' m', consistent st' → m' ∈ yielded (recur st') → extends st' m') →
  m ∈ yielded (try_pairs G1 G2 recur st pairs) → extends st m.
Proof.
  intros Hc Hp Hrec. induction pairs as [|[n1 n2] pairs IH]; simpl.
  { by intros ?%elem_of_nil. }
  assert (IH' : m ∈ yielded (try_pairs G1 G2 recur st pairs) → extends st m).
  { apply IH. intros ???. apply Hp. by right. }
  destruct (syntactic_feasibility G1 G2 st n1 n2); [|done].
  destruct (semantic_feasibility G1 G2 n1 n2) as [[|]|e] eqn:Es;
    [|done|by intros ?%elem_of_nil].
  intros [Hm|Hm]%yielded_tapp; [|by apply IH'].
  destruct (Hp n1 n2) as (Hf1 & Hf2 & Hn1 & Hn2); [left|].
  apply semantic_feasibility_true in Es as (x & Hx1 & Hx2).
  apply Hrec in Hm as [Hsub Hs]; [|by eapply push_consistent].
  split; [|done]. simpl in Hsub. etrans; [|exact Hsub].
  by apply insert_subseteq.
Qed.

Lemma match_sound limit st m :
  consistent st → m ∈ yielded (match_ G1 G2 limit st) → extends st m.
Proof.
  revert st m. induction limit as [|limit IH]; intros st m Hc; simpl.
  { by intros ?%elem_of_nil. }
  case_bool_decide.
  - intros ->%list_elem_of_singleton. split; [done|]. exists (core_2 st). apply Hc.
  - destruct (candidate_pairs_iter G1 G2 st) as [pairs|e] eqn:Ep;
      [|by intros ?%elem_of_nil].
    apply try_pairs_sound; [done| |by intros; apply IH].
    intros n1 n2. by apply candidate_pairs_fresh.
Qed.

Lemma match_yield_size limit st m :
  m ∈ yielded (match_ G1 G2 limit st) → size m = number_of_nodes G2.
Proof.
  revert st. induction limit as [|limit IH]; intros st; simpl.
  { by intros ?%elem_of_nil. }
  case_bool_decide as Es; [by intros ->%list_elem_of_singleton|].
  destruct (candidate_pairs_iter G1 G2 st) as [pairs|e]; [|by intros ?%elem_of_nil].
  induction pairs as [|[n1 n2] pairs IHp]; simpl; [by intros ?%elem_of_nil|].
  destruct (syntactic_feasibility G1 G2 st n1 n2); [|done].
  destruct (semantic_feasibility G1 G2 n1 n2) as [[|]|e];
    [|done|by intros ?%elem_of_nil].
  intros [Hm|Hm]%yielded_tapp; [by eapply IH|by apply IHp].
Qed.

(** ** The search ends without an exception *)

Lemma try_pairs_ends_well recur st pairs :
  populated G1 "element" = true → populated G2 "element" = true →
  consistent st →
  (∀ n1 n2, (n1, n2) ∈ pairs →
     core_1 st !! n1 = None ∧ core_2 st !! n2 = None
     ∧ n1 ∈ nodes G1 ∧ n2 ∈ nodes G2) →
  (∀ st', consistent st' →
     length (unmapped G2 st') < length (unmapped G2 st) →
     ends_well (recur st')) →
  ends_well (try_pairs G1 G2 recur st pairs).
Proof.
  intros P1 P2 Hc Hp Hrec. induction pairs as [|[n1 n2] pairs IH]; simpl; [done|].
  assert (IH' : ends_well (try_pairs G1 G2 recur st pairs)).
  { apply IH. intros ???. apply Hp. by right. }
  destruct (syntactic_feasibility G1 G2 st n1 n2); [|done].
  destruct (Hp n1 n2) as (Hf1 & Hf2 & Hn1 & Hn2); [left|].
  destruct (semantic_feasibility_ok n1 n2 P1 P2 Hn1 Hn2) as [b Eb].
  rewrite Eb. destruct b; [|done].
  apply semantic_feasibility_true in Eb as (x & Hx1 & Hx2).
  apply ends_well_tapp; [|done].
  apply Hrec; [by eapply push_consistent|by apply unmapped_push].
Qed.

Lemma match_ends_well limit st :
  populated G1 "element" = true → populated G2 "element" = true →
  NoDup (nodes G2) → consistent st →
  length (unmapped G2 st) < limit →
  ends_well (match_ G1 G2 limit st).
Proof.
  intros P1 P2 HND. revert st.
  induction limit as [|limit IH]; intros st Hc Hlim; [lia|]. simpl.
  case_bool_decide as Es; [done|].
  destruct (candidate_pairs_ok st Hc HND Es) as [pairs Ep]. rewrite Ep.
  apply try_pairs_ends_well; [done..| |].
  - intros n1 n2. by apply candidate_pairs_fresh.
  - intros st' Hc' Hlt. apply IH; [done|lia].
Qed.

Lemma subgraph_isomorphisms_ends_well st :
  populated G1 "element" = true → populated G2 "element" = true →
  NoDup (nodes G2) → consistent st →
  ends_well (subgraph_isomorphisms_iter G1 G2 st).
Proof.
  intros P1 P2 HND Hc. apply match_ends_well; [done..|].
  unfold unmapped, number_of_nodes. rewrite <- (length_fmap fst).
  fold (nodes G2). pose proof (length_filter (λ n, core_2 st !! n = None) (nodes G2)).
  lia.
Qed.
End MatcherFacts.

(** * Restoring a state undoes the step that made it

    [match] restores the state after each recursive call, by deleting the
    pair from the mapping and the entries of the current depth from the
    [inout] vectors.  The embedding keeps the old state instead; this is
    the same. *)

Section Restore.
Context {V1 V2 : Type} `{Countable V1, Countable V2}.
Context {A B1 B2 : Type}.
Variables (G1 : Graph V1 A B1) (G2 : Graph V2 A B2).
Implicit Types (st : GMState V1 V2).

Lemma reach_all_app {V W B : Type} `{Countable V} (G : Graph V A B)
    (core : gmap V W) depth (inout : list (V * nat)) node :
  ∃ l, reach_all G core depth inout node = inout ++ l
       ∧ Forall (λ nd : V * nat, nd.2 = depth) l.
Proof.
  unfold reach_all.
  assert (Hone : ∀ io n, ∃ l, reach depth io n = io ++ l
                              ∧ Forall (λ nd : V * nat, nd.2 = depth) l).
  { intros io n. unfold reach. case_decide.
    - exists []. by rewrite app_nil_r.
    - eexists. split; [done|]. by apply Forall_singleton. }
  assert (Hall : ∀ ns io, ∃ l, foldl (reach depth) io ns = io ++ l
                               ∧ Forall (λ nd : V * nat, nd.2 = depth) l).
  { induction ns as [|n ns IH]; intros io; simpl.
    - exists []. by rewrite app_nil_r.
    - destruct (Hone io n) as (l1 & -> & F1).
      destruct (IH (io ++ l1)) as (l2 & -> & F2).
      exists (l1 ++ l2). rewrite app_assoc. split; [done|].
      by apply Forall_app. }
  destruct (Hone inout node) as (l1 & -> & F1).
  destruct (Hall (filter (λ n, n ∈ new_nodes G core) (nodes G)) (inout ++ l1))
    as (l2 & -> & F2).
  exists (l1 ++ l2). rewrite app_assoc. split; [done|]. by apply Forall_app.
Qed.

Lemma unreach_reach_all {V W B : Type} `{Countable V} (G : Graph V A B)
    (core : gmap V W) depth (inout : list (V * nat)) node :
  Forall (λ nd : V * nat, nd.2 < depth) inout →
  unreach depth (reach_all G core depth inout node) = inout.
Proof.
  intros Hlt. destruct (reach_all_app G core depth inout node) as (l & -> & Hl).
  unfold unreach. rewrite filter_app.
  assert (filter (λ nd : V * nat, nd.2 ≠ depth) l = []) as ->.
  { induction Hl as [|nd l Hnd _ IH]; [done|].
    rewrite filter_cons, decide_False by naive_solver. done. }
  rewrite app_nil_r. induction Hlt as [|nd io Hnd _ IH]; [done|].
  rewrite filter_cons, decide_True by lia. by rewrite IH.
Qed.

Lemma restore_push st n1 n2 :
  shallow st → core_1 st !! n1 = None → core_2 st !! n2 = None →
  restore (push G1 G2 st n1 n2) n1 n2 (size (core_1 (push G1 G2 st n1 n2))) = st.
Proof.
  intros [S1 S2] F1 F2. destruct st as [c1 c2 io1 io2]. simpl in *.
  unfold restore. simpl. rewrite !delete_insert_id by done.
  rewrite map_size_insert_None by done.
  rewrite !unreach_reach_all; [done|..];
    (eapply Forall_impl; [eassumption|]); simpl; intros; lia.
Qed.

Lemma push_shallow st n1 n2 :
  shallow st → core_1 st !! n1 = None → shallow (push G1 G2 st n1 n2).
Proof.
  intros [S1 S2] F1. unfold shallow. simpl.
  rewrite map_size_insert_None by done.
  split.
  - destruct (reach_all_app G1 (<[n1:=n2]> (core_1 st)) (S (size (core_1 st)))
                (inout_1 st) n1) as (l & -> & Hl).
    apply Forall_app. split.
    + eapply Forall_impl; [exact S1|]. simpl. intros. lia.
    + eapply Forall_impl; [exact Hl|]. simpl. intros. lia.
  - destruct (reach_all_app G2 (<[n2:=n1]> (core_2 st)) (S (size (core_1 st)))
                (inout_2 st) n2) as (l & -> & Hl).
    apply Forall_app. split.
    + eapply Forall_impl; [exact S2|]. simpl. intros. lia.
    + eapply Forall_impl; [exact Hl|]. simpl. intros. lia.
Qed.
End Restore.

(** * The extension of a heavy match by leaves *)

Section Reverse.
Context {V1 V2 : Type} `{Countable V1, Countable V2}.

Lemma lookup_reverse_dict (m : gmap V1 V2) a b :
  injective m → reverse_dict m !! b = Some a ↔ m !! a = Some b.
Proof.
  intros Hinj. unfold reverse_dict.
  assert (foldl (λ r kv, <[kv.2 := kv.1]> r) ∅ (map_to_list m)
          = dict ((λ kv : V1 * V2, (kv.2, kv.1)) <$> map_to_list m)) as ->.
  { unfold dict. generalize (∅ : gmap V2 V1).
    induction (map_to_list m) as [|kv l IH]; intros r; [done|]. simpl. apply IH. }
  rewrite lookup_dict.
  - rewrite list_elem_of_fmap. split.
    + intros ([a' b'] & [= -> ->] & Hin). by apply elem_of_map_to_list.
    + intros Hm. exists (a, b). split; [done|]. by apply elem_of_map_to_list.
  - rewrite <- list_fmap_compose. apply NoDup_fmap_2_strong; [|apply NoDup_map_to_list].
    intros [a1 b1] [a2 b2] H1%elem_of_map_to_list H2%elem_of_map_to_list.
    simpl. intros ->. f_equal. by eapply Hinj.
Qed.
End Reverse.

Section Leaves.
Context {V1 V2 : Type} `{Countable V1, Countable V2}.
Context {A B1 B2 : Type} `{Countable A}.
Variables (reference : Graph V1 A B1) (residue : Graph V2 A B2).
Hypothesis wf_reference : wf_graph reference = true.
Hypothesis names_reference : populated reference "atomname" = true.
Hypothesis elements_reference : populated reference "element" = true.
Hypothesis names_residue : populated residue "atomname" = true.
Hypothesis elements_residue : populated residue "element" = true.
Implicit Types (m : gmap V1 V2) (r : gmap V2 V1).

Lemma H_names_of_spec ref_neighbor :
  ∃ H_names, H_names_of reference ref_neighbor = Ok H_names
    ∧ ∀ name, H_names !! name
              = if decide (leaf_candidates reference ref_neighbor name = [])
                then None
                else Some (leaf_candidates reference ref_neighbor name).
Proof using wf_reference names_reference.
  unfold H_names_of, leaf_candidates.
  assert (Hnodes : ∀ idx, idx ∈ neighbors reference ref_neighbor →
                          idx ∈ nodes reference).
  { intros idx. by apply wf_graph_neighbors. }
  revert Hnodes. generalize (neighbors reference ref_neighbor). intros l Hl.
  set (P := λ name idx, degree reference idx = 1
                        ∧ attribute reference idx "atomname" = Ok name).
  enough (Hgen : ∀ hn0 : gmap A (list V1),
    ∃ hn, foldl (λ acc idx,
                   H_names ← acc;
                   if bool_decide (degree reference idx = 1)
                   then name ← attribute reference idx "atomname";
                        Ok (<[name := default [] (H_names !! name) ++ [idx]]> H_names)
                   else Ok H_names) (Ok hn0) l = Ok hn
          ∧ ∀ name, hn !! name
                    = if decide (filter (P name) l = []) then hn0 !! name
                      else Some (default [] (hn0 !! name) ++ filter (P name) l)).
  { destruct (Hgen ∅) as (hn & -> & Hhn). exists hn. split; [done|].
    intros name. rewrite Hhn, !lookup_empty. simpl.
    repeat case_decide; done. }
  induction l as [|idx l IH]; intros hn0; simpl.
  { exists hn0. split; [done|]. intros name. done. }
  assert (Hl' : ∀ idx', idx' ∈ l → idx' ∈ nodes reference)
    by (intros; apply Hl; by right).
  case_bool_decide as Ed.
  - destruct (populated_attribute reference "atomname" idx names_reference)
      as [name0 E0]; [apply Hl; left|].
    rewrite E0. simpl.
    destruct (IH Hl' (<[name0 := default [] (hn0 !! name0) ++ [idx]]> hn0))
      as (hn & -> & Hhn).
    exists hn. split; [done|]. intros name. rewrite Hhn, filter_cons.
    destruct (decide (name = name0)) as [->|Hne].
    + rewrite lookup_insert_eq. rewrite (decide_True (P:=P name0 idx)) by done.
      rewrite (decide_False (P:=(idx :: _ = []))) by done. simpl.
      case_decide as El.
      * by rewrite El.
      * by rewrite <- app_assoc.
    + rewrite lookup_insert_ne by done.
      rewrite (decide_False (P:=P name idx)); [done|].
      unfold P. rewrite E0. naive_solver.
  - destruct (IH Hl' hn0) as (hn & -> & Hhn). exists hn. split; [done|].
    intros name. rewrite Hhn, filter_cons.
    rewrite (decide_False (P:=P name idx)); [done|]. unfold P. naive_solver.
Qed.

Lemma degree_one_neighbors {V B : Type} `{Countable V} (G : Graph V A B) n :
  degree G n = 1 → ∃ nb, neighbors G n = [nb] ∧ nb ≠ n.
Proof.
  unfold degree. destruct (neighbors G n) as [|nb [|nb' l]].
  - destruct (decide (n ∈ [])) as [E|E]; [by apply elem_of_nil in E|simpl; lia].
  - destruct (decide (n ∈ [nb])) as [E|E]; simpl; [lia|].
    intros _. exists nb. split; [done|]. intros ->. apply E. left.
  - destruct (decide (n ∈ nb :: nb' :: l)); simpl; lia.
Qed.

Lemma extend_leaf_spec m0 m r res :
  (∀ k v, m0 !! k = Some v → degree residue v ≠ 1) →
  leaves_extended reference residue m0 m r →
  degree residue res = 1 → res ∈ nodes residue →
  (∀ ref, m !! ref ≠ Some res) →
  ∃ m' r', extend_leaf reference residue (m, r) res = Ok (m', r')
           ∧ leaves_extended reference residue m0 m' r'
           ∧ ∀ ref res', m' !! ref = Some res' →
               m !! ref = Some res' ∨ res' = res.
Proof using wf_reference names_reference elements_reference
            names_residue elements_residue.
  intros Hheavy [Hs Hsub Hadd] Hdeg Hres Hfree.
  assert (Hkeep : ∃ m' r', Ok (m, r) = Ok (m', r')
            ∧ leaves_extended reference residue m0 m' r'
            ∧ ∀ ref res', m' !! ref = Some res' → m !! ref = Some res' ∨ res' = res).
  { exists m, r. split_and!; [done|by split|auto]. }
  destruct (degree_one_neighbors residue res Hdeg) as (nb & Enb & Hnb).
  unfold extend_leaf. rewrite Enb. simpl.
  destruct (r !! nb) as [refnb|] eqn:Er; [|done].
  assert (m !! refnb = Some nb) as Hm by by apply Hs.
  assert (m0 !! refnb = Some nb ∧ degree residue nb ≠ 1) as [Hm0 Hnbdeg].
  { destruct (Hadd _ _ Hm) as [Hm0|[_ _ (nb' & _ & _ & _ & Enb' & Hd' & _)]].
    - split; [done|]. by eapply Hheavy.
    - exfalso. assert (res ∈ neighbors residue nb) as Hin.
      { apply neighbors_sym. rewrite Enb. left. }
      rewrite Enb' in Hin. apply list_elem_of_singleton in Hin as ->. done. }
  destruct (H_names_of_spec refnb) as (hn & -> & Hhn). simpl.
  destruct (populated_attribute residue "atomname" res names_residue Hres)
    as [name Ename].
  rewrite Ename. simpl. rewrite Hhn.
  destruct (leaf_candidates reference refnb name) as [|ref [|ref' l]] eqn:Ec;
    simpl; [done| |done].
  case_decide as Efresh; [|done].
  assert (ref ∈ nodes reference) as Hrefn.
  { assert (ref ∈ leaf_candidates reference refnb name) as Hin by (rewrite Ec; left).
    unfold leaf_candidates in Hin. apply list_elem_of_filter in Hin as [_ Hin].
    by eapply wf_graph_neighbors. }
  destruct (populated_attribute reference "element" ref elements_reference Hrefn)
    as [x Ex].
  destruct (populated_attribute residue "element" res elements_residue Hres)
    as [y Ey].
  rewrite Ex, Ey. simpl. case_decide as Exy; [subst y|done].
  exists (<[ref := res]> m), (<[res := ref]> r). split_and!; [done| |].
  - split.
    + apply (sound_core_insert reference residue m r ref res x); [done|done| |done..].
      destruct (r !! res) as [a|] eqn:Era; [|done].
      apply Hs in Era. exfalso. by apply (Hfree a).
    + apply insert_subseteq_r; [by eapply lookup_weaken_None|done].
    + intros a b. rewrite lookup_insert. case_decide; subst; [|apply Hadd].
      intros [= <-]. right. split; [done| |].
      * by eapply lookup_weaken_None.
      * exists nb, refnb, name, x. done.
  - intros a b. rewrite lookup_insert. case_decide; subst; [|by left].
    intros [= <-]. by right.
Qed.

Lemma extend_leaves_fold m0 leaves m r :
  (∀ k v, m0 !! k = Some v → degree residue v ≠ 1) →
  NoDup leaves →
  (∀ res, res ∈ leaves → degree residue res = 1 ∧ res ∈ nodes residue) →
  leaves_extended reference residue m0 m r →
  (∀ ref res, m !! ref = Some res → res ∉ leaves) →
  ∃ m' r', foldl (λ acc res_H_idx,
                    mr ← acc; extend_leaf reference residue mr res_H_idx)
                 (Ok (m, r)) leaves = Ok (m', r')
           ∧ leaves_extended reference residue m0 m' r'.
Proof using wf_reference names_reference elements_reference
            names_residue elements_residue.
  intros Hheavy. revert m r.
  induction leaves as [|res leaves IH]; intros m r HND Hl Hle Hfree.
  { simpl. eauto. }
  apply NoDup_cons in HND as [Hres HND].
  destruct (Hl res) as [Hdeg Hnode]; [left|].
  destruct (extend_leaf_spec m0 m r res Hheavy Hle Hdeg Hnode)
    as (m1 & r1 & E1 & Hle1 & Hnew).
  { intros ref Hm. apply (Hfree _ _ Hm). left. }
  rewrite (foldl_result_cons (extend_leaf reference residue)), E1.
  apply IH; [done| |done|].
  - intros res' Hin. apply Hl. by right.
  - intros ref res' [Hm| ->]%Hnew; [|done].
    apply Hfree in Hm. by apply not_elem_of_cons in Hm as [_ ?].
Qed.

Lemma heavy_match_extended m0 :
  heavy_match reference residue m0 →
  leaves_extended reference residue m0 m0 (reverse_dict m0).
Proof.
  intros [Hinj Hm0]. split; [|done|auto]. split.
  - intros a b. symmetry. by apply lookup_reverse_dict.
  - intros a b Hab. by destruct (Hm0 a b Hab) as (? & ? & _).
  - intros a b Hab. by destruct (Hm0 a b Hab) as (_ & _ & _ & ?).
Qed.

Lemma H_idxs_spec res :
  res ∈ H_idxs residue ↔ res ∈ nodes residue ∧ degree residue res = 1.
Proof. unfold H_idxs. rewrite list_elem_of_filter. naive_solver. Qed.

Lemma extend_leaves_extended (match0 : gmap V1 V2) :
  wf_graph residue = true →
  heavy_match reference residue match0 →
  ∃ match' reverse',
    extend_leaves reference residue match0 = Ok (match', reverse')
    ∧ leaves_extended reference residue match0 match' reverse'.
Proof using wf_reference names_reference elements_reference
            names_residue elements_residue.
  intros Hwf Hh. pose proof Hh as [Hinj Hm0].
  assert (Hheavy : ∀ k v, match0 !! k = Some v → degree residue v ≠ 1).
  { intros k v Hkv. by destruct (Hm0 k v Hkv) as (_ & _ & ? & _). }
  apply extend_leaves_fold; [done| | | |].
  - unfold H_idxs. apply NoDup_filter. by apply wf_graph_NoDup.
  - intros res Hres%H_idxs_spec. naive_solver.
  - by apply heavy_match_extended.
  - intros ref res Hm [_ Hdeg]%H_idxs_spec. by eapply Hheavy.
Qed.

(** One visit of a leaf: the pair is added exactly when the conditions
    hold of the dictionaries as they are at the visit. *)
Lemma extend_leaf_exact m r res :
  degree residue res = 1 → res ∈ nodes residue →
  ∃ m1 r1,
    extend_leaf reference residue (m, r) res = Ok (m1, r1)
    ∧ ((∃ ref, visit_adds reference residue m r ref res
               ∧ m1 = <[ref := res]> m ∧ r1 = <[res := ref]> r)
       ∨ ((∀ ref, ¬ visit_adds reference residue m r ref res)
          ∧ m1 = m ∧ r1 = r)).
Proof using wf_reference names_reference elements_reference
            names_residue elements_residue.
  intros Hdeg Hres.
  destruct (degree_one_neighbors residue res Hdeg) as (nb & Enb & Hnb).
  destruct (populated_attribute residue "atomname" res names_residue Hres)
    as [name Ename].
  assert (Hskip :
    (∀ ref ref_neighbor x,
       r !! nb = Some ref_neighbor →
       leaf_candidates reference ref_neighbor name = [ref] →
       m !! ref = None →
       attribute reference ref "element" = Ok x →
       attribute residue res "element" = Ok x → False) →
    ∃ m1 r1, Ok (m, r) = Ok (m1, r1)
      ∧ ((∃ ref, visit_adds reference residue m r ref res
                 ∧ m1 = <[ref := res]> m ∧ r1 = <[res := ref]> r)
         ∨ ((∀ ref, ¬ visit_adds reference residue m r ref res)
            ∧ m1 = m ∧ r1 = r))).
  { intros Hno. exists m, r. split; [done|]. right. split; [|done].
    intros ref (nb' & refnb' & name' & x' & Eh & Er' & En' & Ec' & Hf & Ex' & Ey').
    rewrite Enb in Eh. injection Eh as <-.
    rewrite Ename in En'. injection En' as <-.
    by eapply Hno. }
  unfold extend_leaf. rewrite Enb. simpl.
  destruct (r !! nb) as [refnb|] eqn:Er.
  2:{ apply Hskip. by intros ???[=]. }
  destruct (H_names_of_spec refnb) as (hn & -> & Hhn). simpl.
  rewrite Ename. simpl. rewrite Hhn.
  destruct (leaf_candidates reference refnb name) as [|ref [|ref' l]] eqn:Ec; simpl.
  1,3: apply Hskip; intros ??? [= <-] Ec'; rewrite Ec in Ec'; done.
  case_decide as Efresh.
  2:{ apply Hskip. intros ??? [= <-] Ec' Hf. rewrite Ec in Ec'.
      injection Ec' as <-. done. }
  assert (ref ∈ nodes reference) as Hrefn.
  { assert (ref ∈ leaf_candidates reference refnb name) as Hin by (rewrite Ec; left).
    unfold leaf_candidates in Hin. apply list_elem_of_filter in Hin as [_ Hin].
    by eapply wf_graph_neighbors. }
  destruct (populated_attribute reference "element" ref elements_reference Hrefn)
    as [x Ex].
  destruct (populated_attribute residue "element" res elements_residue Hres)
    as [y Ey].
  rewrite Ex, Ey. simpl. case_decide as Exy.
  - subst y. exists (<[ref := res]> m), (<[res := ref]> r). split; [done|].
    left. exists ref. split; [|done].
    exists nb, refnb, name, x. rewrite Enb. done.
  - apply Hskip. intros ??? [= <-] Ec' _ Ex' Ey'. rewrite Ec in Ec'.
    injection Ec' as <-. congruence.
Qed.

(** C7. The visit of the leaves of the residue, started with a match of
    heavy atoms, ends without an exception.  A pair that it adds joins a
    leaf of the residue, whose neighbour is heavy and mapped, to the one
    neighbour of degree one of the image of that neighbour that has the
    atom name of the leaf; that node was not in the match and carries
    the element of the leaf.  A leaf for which the number of such
    neighbours is not one stays unmapped.  [reverse_match] stays the
    inverse of [match].  At the visit of each leaf the pair is added
    exactly when these conditions hold of [match] and [reverse_match]
    as they are at that visit, the reference node not being in [match]
    then; otherwise the two dictionaries stay as they are. *)
Theorem extend_leaves_spec (match0 : gmap V1 V2) :
  wf_graph residue = true →
  heavy_match reference residue match0 →
  ∃ match' reverse',
    extend_leaves reference residue match0 = Ok (match', reverse')
    ∧ match0 ⊆ match'
    ∧ (∀ ref res, match' !! ref = Some res →
         match0 !! ref = Some res ∨ leaf_added reference residue match0 ref res)
    ∧ (∀ res res_neighbor ref_neighbor name,
         degree residue res = 1 →
         neighbors residue res = [res_neighbor] →
         match0 !! ref_neighbor = Some res_neighbor →
         attribute residue res "atomname" = Ok name →
         length (leaf_candidates reference ref_neighbor name) ≠ 1 →
         ∀ ref, match' !! ref ≠ Some res)
    ∧ (∀ ref res, match' !! ref = Some res ↔ reverse' !! res = Some ref)
    ∧ visit_leaves reference residue match0 (H_idxs residue)
      = Ok (match', reverse')
    ∧ (∀ visited res rest,
         H_idxs residue = visited ++ res :: rest →
         ∃ m r m1 r1,
           visit_leaves reference residue match0 visited = Ok (m, r)
           ∧ visit_leaves reference residue match0 (visited ++ [res])
             = Ok (m1, r1)
           ∧ ((∃ ref, visit_adds reference residue m r ref res
                      ∧ m1 = <[ref := res]> m ∧ r1 = <[res := ref]> r)
              ∨ ((∀ ref, ¬ visit_adds reference residue m r ref res)
                 ∧ m1 = m ∧ r1 = r))).
Proof using wf_reference names_reference elements_reference
            names_residue elements_residue.
  intros Hwf Hh. pose proof Hh as [Hinj Hm0].
  assert (Hheavy : ∀ k v, match0 !! k = Some v → degree residue v ≠ 1).
  { intros k v Hkv. by destruct (Hm0 k v Hkv) as (_ & _ & ? & _). }
  destruct (extend_leaves_extended match0 Hwf Hh)
    as (m' & r' & E & [Hs Hsub Hadd]).
  exists m', r'. split_and!; [done..| |apply Hs|done|].
  - intros res nb refnb name Hdeg Enb Hnb Ename Hlen ref Hm.
    destruct (Hadd _ _ Hm) as [Hm0'|[_ _ (nb' & refnb' & name' & x & Enb' & _ & Hnb'
                                        & Ename' & Ec & _)]].
    + by apply Hheavy in Hm0'.
    + rewrite Enb in Enb'. injection Enb' as <-.
      rewrite Ename in Ename'. injection Ename' as <-.
      assert (refnb' = refnb) as -> by by eapply Hinj.
      by rewrite Ec in Hlen.
  - intros visited res rest Esplit.
    assert (Hleaf : ∀ res', res' ∈ visited ++ res :: rest →
              degree residue res' = 1 ∧ res' ∈ nodes residue).
    { intros res' Hin. rewrite <- Esplit in Hin.
      apply H_idxs_spec in Hin. naive_solver. }
    assert (NoDup (visited ++ res :: rest)) as HND.
    { rewrite <- Esplit. unfold H_idxs. apply NoDup_filter.
      by apply wf_graph_NoDup. }
    apply NoDup_app in HND as (HNDv & _ & _).
    destruct (extend_leaves_fold match0 visited match0 (reverse_dict match0))
      as (m & r & Ev & _); [done|done| |by apply heavy_match_extended| |].
    { intros res' Hin. apply Hleaf, elem_of_app. by left. }
    { intros ref res' Hm Hin.
      destruct (Hleaf res') as [Hd _]; [apply elem_of_app; by left|].
      by eapply Hheavy. }
    destruct (Hleaf res) as [Hdeg Hnode]; [apply elem_of_app; right; left|].
    destruct (extend_leaf_exact m r res Hdeg Hnode) as (m1 & r1 & E1 & Hcase).
    exists m, r, m1, r1. split_and!; [done| |done].
    unfold visit_leaves in *. by rewrite foldl_snoc, Ev.
Qed.
End Leaves.

(** * The residue without its leaves *)

Section HeavyResidue.
Context {V : Type} `{Countable V} {A B : Type}.
Variable residue : Graph V A B.

Lemma node_attrs_head (G : Graph V A B) n :
  node_attrs G n = snd <$> head (filter (λ p, p.1 = n) (g_node G)).
Proof.
  unfold node_attrs. induction (g_node G) as [|p l IH]; [done|].
  rewrite filter_cons. simpl. case_decide as E; simpl; [done|].
  rewrite <- IH. by destruct (list_find _ l) as [[??]|].
Qed.

Lemma nodes_heavy_res n :
  n ∈ nodes (heavy_res residue) ↔ n ∈ nodes residue ∧ degree residue n ≠ 1.
Proof.
  unfold heavy_res, remove_nodes_from, nodes. simpl.
  rewrite !list_elem_of_fmap. split.
  - intros ([n' d] & -> & [Hn Hin]%list_elem_of_filter). simpl in *.
    assert (n' ∈ nodes residue) as Hn'.
    { apply list_elem_of_fmap. by exists (n', d). }
    split; [by exists (n', d)|]. intros Hd. apply Hn. by apply H_idxs_spec.
  - intros [([n' d] & -> & Hin) Hd]. exists (n', d). split; [done|].
    apply list_elem_of_filter. split; [|done]. simpl.
    intros [_ ?]%H_idxs_spec. done.
Qed.

Lemma NoDup_heavy_res : NoDup (nodes residue) → NoDup (nodes (heavy_res residue)).
Proof.
  unfold heavy_res, remove_nodes_from, nodes. simpl. intros HND.
  induction (g_node residue) as [|p l IH]; [apply NoDup_nil_2|].
  rewrite filter_cons. simpl in HND. apply NoDup_cons in HND as [Hp HND].
  case_decide; [|by apply IH]. simpl. apply NoDup_cons. split; [|by apply IH].
  intros (q & Hq & [_ Hin]%list_elem_of_filter)%list_elem_of_fmap.
  apply Hp. apply list_elem_of_fmap. by exists q.
Qed.

Lemma attribute_heavy_res n name :
  n ∈ nodes (heavy_res residue) →
  attribute (heavy_res residue) n name = attribute residue n name.
Proof.
  intros [_ Hd]%nodes_heavy_res. unfold attribute. rewrite !node_attrs_head.
  unfold heavy_res, remove_nodes_from. simpl. rewrite list_filter_filter.
  assert (filter (λ p : V * gmap string A, p.1 = n ∧ p.1 ∉ H_idxs residue)
                 (g_node residue)
          = filter (λ p, p.1 = n) (g_node residue)) as ->; [|done].
  apply list_filter_iff. intros p. split; [naive_solver|].
  intros ->. split; [done|]. intros [_ ?]%H_idxs_spec. done.
Qed.

Lemma populated_heavy_res name :
  populated residue name = true → populated (heavy_res residue) name = true.
Proof.
  intros Hp. unfold populated. apply forallb_forall. intros n Hn%list_elem_of_In.
  rewrite attribute_heavy_res by done.
  apply nodes_heavy_res in Hn as [Hn _].
  by destruct (populated_attribute residue name n Hp Hn) as [x ->].
Qed.
End HeavyResidue.

(** * The run of [isomorphism] *)

Section SortFacts.
Context {X : Type}.

Lemma insert_desc_perm k (x : X) l : insert_desc k x l ≡ₚ (k, x) :: l.
Proof.
  induction l as [|[k' y] l IH]; simpl; [done|].
  destruct (k' <=? k); [done|]. rewrite IH. apply Permutation_swap.
Qed.

Lemma sorted_desc_perm (l : list (nat * X)) : sorted_desc l ≡ₚ l.
Proof.
  induction l as [|[k x] l IH]; simpl; [done|].
  by rewrite insert_desc_perm, IH.
Qed.

Lemma insert_desc_descending k (x : X) l :
  descending l → descending (insert_desc k x l).
Proof.
  induction 1 as [|[k' y] l Hl IH Hall]; simpl.
  - by repeat constructor.
  - destruct (k' <=? k) eqn:E.
    + apply Nat.leb_le in E. constructor; [by constructor|].
      constructor; [done|]. eapply Forall_impl; [exact Hall|].
      simpl. intros; lia.
    + apply Nat.leb_gt in E. constructor; [done|].
      rewrite insert_desc_perm. constructor; [simpl; lia|done].
Qed.

Lemma sorted_desc_descending (l : list (nat * X)) : descending (sorted_desc l).
Proof.
  induction l as [|[k x] l IH]; simpl; [constructor|].
  by apply insert_desc_descending.
Qed.

(** The items of a list sorted by a key, when the keys are dropped. *)
Lemma descending_items (key : X → nat) (l : list (nat * X)) :
  descending l → Forall (λ p, p.1 = key p.2) l →
  StronglySorted (λ x y, key y ≤ key x) (snd <$> l).
Proof.
  induction 1 as [|p l Hl IH Hall]; intros Hkey; simpl; [constructor|].
  apply Forall_cons in Hkey as [Hp Hkey]. constructor; [by apply IH|].
  apply Forall_fmap, Forall_forall. intros q Hq. simpl.
  rewrite Forall_forall in Hall, Hkey.
  rewrite <- Hp, <- (Hkey q Hq). by apply Hall.
Qed.

Lemma mapM_ok {S Y : Type} (f : S → result Y) (g : S → Y) (l : list S) :
  (∀ s, s ∈ l → f s = Ok (g s)) → mapM f l = Ok (g <$> l).
Proof.
  induction l as [|s l IH]; intros Hl; [done|]. simpl.
  rewrite Hl by left. simpl. rewrite IH; [done|]. intros. apply Hl. by right.
Qed.

Lemma foldl_extend {S Y : Type} (f : S → result (list Y)) (l : list S)
    (ys : list (list Y)) (a0 : list Y) :
  Forall2 (λ s y, f s = Ok y) l ys →
  foldl (λ acc s, a ← acc; y ← f s; Ok (a ++ y)) (Ok a0) l
  = Ok (a0 ++ mjoin ys).
Proof.
  intros HF. revert a0. induction HF as [|s y l ys Hs _ IH]; intros a0; simpl.
  - by rewrite app_nil_r.
  - rewrite Hs. simpl. rewrite IH. by rewrite app_assoc.
Qed.
End SortFacts.

Section Run.
Context {V1 V2 : Type} `{Countable V1, Countable V2}.
Context {A B1 B2 : Type} `{Countable A}.
Variables (reference : Graph V1 A B1) (residue : Graph V2 A B2).
Hypothesis wf_reference : wf_graph reference = true.
Hypothesis wf_residue : wf_graph residue = true.
Hypothesis names_reference : populated reference "atomname" = true.
Hypothesis elements_reference : populated reference "element" = true.
Hypothesis names_residue : populated residue "atomname" = true.
Hypothesis elements_residue : populated residue "element" = true.
Implicit Types (m : gmap V1 V2) (r : gmap V2 V1).

#[local] Abbreviation first_matches := (first_matches reference residue).

Lemma first_matches_exhaust :
  exhaust (subgraph_isomorphisms_iter reference (heavy_res residue) initialize)
  = Ok first_matches.
Proof using wf_residue elements_reference elements_residue.
  apply exhaust_ends_well, subgraph_isomorphisms_ends_well.
  - done.
  - by apply populated_heavy_res.
  - by apply NoDup_heavy_res, wf_graph_NoDup.
  - apply consistent_initialize.
Qed.

Lemma first_matches_heavy m0 :
  m0 ∈ first_matches → heavy_match reference residue m0.
Proof.
  intros Hm. pose proof Hm as Hsize.
  apply match_sound in Hm as [_ [r Hs]]; [|apply consistent_initialize].
  split; [by eapply sound_core_injective|].
  intros ref res Hl. destruct Hs as [_ Hn He].
  destruct (Hn _ _ Hl) as [Hr Hres]. destruct (He _ _ Hl) as (x & Hx1 & Hx2).
  rewrite attribute_heavy_res in Hx2 by done.
  apply nodes_heavy_res in Hres as [? ?]. split_and!; [done..|]. eauto.
Qed.

Lemma first_matches_size m0 :
  m0 ∈ first_matches → size m0 = number_of_nodes (heavy_res residue).
Proof. apply match_yield_size. Qed.

Lemma seeded_consistent m0 m' r' :
  leaves_extended reference residue m0 m' r' →
  consistent reference residue (MkState m' r' [] []).
Proof. intros [Hs _ _]. split; [done|by intros n ?%elem_of_nil..]. Qed.

Lemma completions_completes m0 :
  heavy_match reference residue m0 →
  ∃ found, completions reference residue m0 = Ok found
           ∧ completes reference residue m0 found.
Proof using All.
  intros Hh.
  destruct (extend_leaves_extended reference residue wf_reference names_reference
              elements_reference names_residue elements_residue m0 wf_residue Hh)
    as (m' & r' & E & Hle).
  assert (Hw : ends_well (subgraph_isomorphisms_iter reference residue
                            (MkState m' r' [] []))).
  { apply subgraph_isomorphisms_ends_well; [done|done| |].
    - by apply wf_graph_NoDup.
    - by eapply seeded_consistent. }
  unfold completions. rewrite E. simpl.
  eexists. split; [|exists m', r'; split_and!; [done|done|reflexivity]].
  unfold outcome_of. case_decide.
  - by apply exhaust_ends_well.
  - by apply islice1_ends_well.
Qed.

Lemma completes_sound m0 found m :
  completes reference residue m0 found → m ∈ found →
  (∃ r, sound_core reference residue m r)
  ∧ size m = number_of_nodes residue.
Proof.
  intros (m' & r' & _ & Hle & ->) Hm.
  assert (m ∈ outcome_of reference residue m' r') as Hin.
  { case_decide; [done|]. by eapply subseteq_take. }
  unfold outcome_of in Hin. split.
  - apply match_sound in Hin as [_ ?]; [done|by eapply seeded_consistent].
  - by eapply match_yield_size.
Qed.

(** How [isomorphism] runs: the first search ends, every heavy match is
    completed, and the result lists what the completions found. *)
Lemma isomorphism_run :
  ∃ founds ms,
    Forall2 (completes reference residue) first_matches founds
    ∧ isomorphism reference residue = Ok ms
    ∧ ms ≡ₚ mjoin founds
    ∧ StronglySorted (λ m m', rate_score reference residue m'
                               ≤ rate_score reference residue m) ms.
Proof using All.
  assert (∃ founds, Forall2 (λ m0 found,
              completions reference residue m0 = Ok found
              ∧ completes reference residue m0 found) first_matches founds)
    as [founds HF].
  { pose proof first_matches_heavy as Hh.
    induction first_matches as [|m0 l IH]; [by exists []|].
    destruct (completions_completes m0) as (found & ? & ?); [apply Hh; left|].
    destruct IH as [founds ?]; [intros; apply Hh; by right|].
    exists (found :: founds). by constructor. }
  set (score := rate_score reference residue).
  exists founds, (snd <$> sorted_desc ((λ m, (score m, m)) <$> mjoin founds)).
  split_and!.
  - eapply Forall2_impl; [exact HF|]. naive_solver.
  - unfold isomorphism. rewrite first_matches_exhaust. simpl.
    rewrite (foldl_extend (completions reference residue) first_matches founds []).
    2:{ eapply Forall2_impl; [exact HF|]. naive_solver. }
    simpl.
    rewrite (mapM_ok _ (λ m, (score m, m))); [done|].
    intros m (found & Hm & Hfound)%list_elem_of_join.
    assert (∃ m0, completes reference residue m0 found) as [m0 Hc].
    { apply list_elem_of_lookup in Hfound as [i Hi].
      destruct (Forall2_lookup_r _ _ _ i found HF Hi) as (m0 & _ & _ & ?).
      eauto. }
    destruct (completes_sound m0 found m Hc Hm) as [[r [_ Hn _]] _].
    rewrite rate_match_ok; [done|]. intros a b Hab. by apply Hn.
  - rewrite sorted_desc_perm, <- list_fmap_compose. simpl.
    by rewrite list_fmap_id.
  - apply descending_items; [apply sorted_desc_descending|].
    rewrite sorted_desc_perm. by apply Forall_fmap, Forall_true.
Qed.
End Run.

(** * The identity is among the matches of a graph with a part of itself *)

Section Neighbours.
Context {V : Type} `{Countable V} {A B : Type}.
Implicit Types (G : Graph V A B).

Lemma elem_of_neighbors G u v : v ∈ neighbors G u ↔ has_edge G u v = true.
Proof.
  unfold neighbors. rewrite list_elem_of_omap, has_edge_spec.
  split; intros (e & He & Hj); exists e; (split; [done|]).
  - apply joins_spec.
    destruct (decide (e.1.1 = u)) as [E1|E1]; [injection Hj as <-; by left|].
    destruct (decide (e.1.2 = u)) as [E2|E2]; [injection Hj as <-; by right|].
    done.
  - apply joins_spec in Hj.
    destruct (decide (e.1.1 = u)) as [E1|E1].
    + destruct Hj as [[_ ?]|[? E2]]; congruence.
    + destruct (decide (e.1.2 = u)) as [E2|E2]; [|naive_solver].
      destruct Hj as [[? _]|[? _]]; congruence.
Qed.

Lemma length_filter_mono {X : Type} (P Q : X → Prop)
    `{∀ x, Decision (P x), ∀ x, Decision (Q x)} (l : list X) :
  (∀ x, x ∈ l → P x → Q x) → length (filter P l) ≤ length (filter Q l).
Proof.
  induction l as [|x l IH]; intros Himp; [done|].
  rewrite !filter_cons.
  assert (length (filter P l) ≤ length (filter Q l)) as Hle.
  { apply IH. intros y Hy. apply Himp. by right. }
  destruct (decide (P x)) as [Hp|Hp].
  - rewrite decide_True by (apply Himp; [left|done]). simpl. lia.
  - case_decide; simpl; lia.
Qed.

Lemma elem_of_new_nodes {W : Type} G (core : gmap V W) v :
  v ∈ new_nodes G core
  ↔ ∃ c, is_Some (core !! c) ∧ v ∈ neighbors G c ∧ core !! v = None.
Proof.
  unfold new_nodes. rewrite elem_of_list_to_set, list_elem_of_bind.
  setoid_rewrite elem_of_elements. setoid_rewrite elem_of_dom.
  setoid_rewrite list_elem_of_filter. naive_solver.
Qed.

Lemma elem_of_reach_all {W : Type} G (core : gmap V W) depth inout node v :
  v ∈ (reach_all G core depth inout node).*1
  ↔ v ∈ inout.*1 ∨ v = node ∨ (v ∈ nodes G ∧ v ∈ new_nodes G core).
Proof.
  unfold reach_all. rewrite foldl_reach_fst, reach_fst, list_elem_of_filter.
  naive_solver.
Qed.
End Neighbours.

Section TracesMore.
Context {X : Type}.
Implicit Types (t : trace X).

Lemma yielded_tapp_l t1 t2 x : x ∈ yielded t1 → x ∈ yielded (tapp t1 t2).
Proof.
  induction t1 as [|e|a t1 IH]; simpl; [by intros ?%elem_of_nil|done|].
  intros [->|Hx]%elem_of_cons; [left|right; by apply IH].
Qed.

Lemma yielded_tapp_r t1 t2 x :
  ends_well t1 → x ∈ yielded t2 → x ∈ yielded (tapp t1 t2).
Proof.
  induction t1 as [|e|a t1 IH]; simpl; [done|done|].
  intros Hw Hx. right. by apply IH.
Qed.
End TracesMore.

Section IdentityPath.
Context {V : Type} `{Countable V} {A B1 B2 : Type} `{EqDecision A}.
Variables (G1 : Graph V A B1) (G2 : Graph V A B2).
Hypothesis Hpart : part_of G1 G2.
Hypothesis P1 : populated G1 "element" = true.
Hypothesis P2 : populated G2 "element" = true.
Hypothesis HND2 : NoDup (nodes G2).
Implicit Types (st : GMState V V).

Lemma unmapped_le st : length (unmapped G2 st) ≤ number_of_nodes G2.
Proof.
  unfold unmapped, number_of_nodes.
  etrans; [apply length_filter|]. unfold nodes. by rewrite length_fmap.
Qed.

Lemma edge_same u v :
  u ∈ nodes G2 → v ∈ nodes G2 → has_edge G2 u v = has_edge G1 u v.
Proof using Hpart.
  intros Hu Hv. apply eq_true_iff_eq.
  rewrite <- !elem_of_neighbors, (po_neighbors _ _ Hpart u Hu).
  rewrite list_elem_of_filter. naive_solver.
Qed.

Lemma identity_keys st a b :
  consistent G1 G2 st → on_identity G2 st →
  core_1 st !! a = Some b → a ∈ nodes G2 ∧ b = a.
Proof.
  intros [[_ Hn _] _ _] [Hid _ _ _] Hab.
  pose proof (Hid _ _ Hab) as ->. split; [|done]. by destruct (Hn _ _ Hab).
Qed.

Lemma identity_feasible st n :
  consistent G1 G2 st → on_identity G2 st → n ∈ nodes G2 →
  syntactic_feasibility G1 G2 st n n = true.
Proof using Hpart.
  intros Hc Hoi Hn. pose proof Hoi as [Hid Hsame Hin Hout].
  unfold syntactic_feasibility. rewrite !andb_true_iff. split_and!.
  - apply bool_decide_eq_true. unfold edge_count. by rewrite edge_same.
  - apply forallb_forall. intros neighbor Hnb%list_elem_of_In.
    destruct (core_1 st !! neighbor) as [image|] eqn:Ei; [|done].
    destruct (identity_keys st _ _ Hc Hoi Ei) as [Hn2 ->].
    rewrite andb_true_iff, !bool_decide_eq_true. split.
    + rewrite (po_neighbors _ _ Hpart n Hn). by apply list_elem_of_filter.
    + unfold edge_count. by rewrite edge_same.
  - apply forallb_forall. intros neighbor Hnb%list_elem_of_In.
    rewrite Hsame.
    destruct (core_1 st !! neighbor) as [image|] eqn:Ei; [|done].
    destruct (identity_keys st _ _ Hc Hoi Ei) as [Hn2 ->].
    rewrite andb_true_iff, !bool_decide_eq_true. split.
    + rewrite (po_neighbors _ _ Hpart n Hn) in Hnb.
      by apply list_elem_of_filter in Hnb as [_ ?].
    + unfold edge_count. by rewrite edge_same.
  - apply bool_decide_eq_true.
    rewrite (po_neighbors _ _ Hpart n Hn), list_filter_filter.
    apply length_filter_mono. intros x _ [[Hx Hcx] _].
    split; [by apply Hin|by rewrite <- Hsame].
  - apply bool_decide_eq_true.
    rewrite (po_neighbors _ _ Hpart n Hn), list_filter_filter.
    apply length_filter_mono. intros x _ [Hx Hx2] Hx1. apply Hx. by apply Hout.
Qed.

Lemma identity_semantic n :
  n ∈ nodes G2 → semantic_feasibility G1 G2 n n = Ok true.
Proof using Hpart P1.
  intros Hn. unfold semantic_feasibility.
  rewrite (po_element _ _ Hpart n Hn).
  destruct (populated_attribute G1 "element" n P1) as [x ->];
    [by apply (po_nodes _ _ Hpart)|].
  simpl. by rewrite bool_decide_eq_true_2.
Qed.

Lemma push_on_identity st n :
  consistent G1 G2 st → on_identity G2 st → n ∈ nodes G2 →
  on_identity G2 (push G1 G2 st n n).
Proof using Hpart.
  intros Hc Hoi Hn. pose proof Hoi as [Hid Hsame Hin Hout].
  assert (Hkey : ∀ c, is_Some (<[n := n]> (core_1 st) !! c) → c ∈ nodes G2).
  { intros c [b Hb]. apply lookup_insert_Some in Hb as [[<- _]|[_ Hb]]; [done|].
    by destruct (identity_keys st _ _ Hc Hoi Hb). }
  split; simpl.
  - intros a b [[<- <-]|[_ Hab]]%lookup_insert_Some; [done|by apply Hid].
  - by rewrite Hsame.
  - intros v. rewrite Hsame, !elem_of_reach_all.
    intros [?|[->|[Hv2 Hnew]]]; [left; by apply Hin|right; by left|].
    right. right. split; [by apply (po_nodes _ _ Hpart)|].
    apply elem_of_new_nodes in Hnew as (c & Hc' & Hnb & Hfree).
    apply elem_of_new_nodes. exists c. split_and!; [done| |done].
    rewrite (po_neighbors _ _ Hpart c (Hkey c Hc')) in Hnb.
    by apply list_elem_of_filter in Hnb as [_ ?].
  - intros v. rewrite Hsame, !elem_of_reach_all.
    intros [?|[->|[Hv1 Hnew]]] Hv2; [left; by apply Hout|right; by left|].
    right. right. split; [done|].
    apply elem_of_new_nodes in Hnew as (c & Hc' & Hnb & Hfree).
    apply elem_of_new_nodes. exists c. split_and!; [done| |done].
    rewrite (po_neighbors _ _ Hpart c (Hkey c Hc')).
    by apply list_elem_of_filter.
Qed.

Lemma identity_candidate st pairs :
  on_identity G2 st →
  candidate_pairs_iter G1 G2 st = Ok pairs → ∃ n, (n, n) ∈ pairs.
Proof using Hpart.
  intros [Hid Hsame Hin Hout]. unfold candidate_pairs_iter, terminal.
  destruct (_ && _).
  - destruct (min_in_order _ _) as [node_2|] eqn:Em; [|done].
    intros [= <-]. exists node_2. apply list_elem_of_fmap. exists node_2.
    split; [done|]. apply min_in_order_elem in Em as [_ Hm].
    apply list_elem_of_filter in Hm as [Hfree Hm].
    apply list_elem_of_filter. split; [by rewrite <- Hsame|by apply Hin].
  - destruct (head _) as [other_node|] eqn:Eh; [|done].
    intros [= <-]. exists other_node. apply list_elem_of_fmap. exists other_node.
    split; [done|]. apply head_Some_elem_of, list_elem_of_filter in Eh as [Hfree Ho].
    apply list_elem_of_filter.
    split; [by rewrite <- Hsame|by apply (po_nodes _ _ Hpart)].
Qed.

Lemma try_pairs_reaches recur st pairs n1 n2 m :
  consistent G1 G2 st →
  (∀ a b, (a, b) ∈ pairs →
     core_1 st !! a = None ∧ core_2 st !! b = None
     ∧ a ∈ nodes G1 ∧ b ∈ nodes G2) →
  (∀ st', consistent G1 G2 st' →
     length (unmapped G2 st') < length (unmapped G2 st) →
     ends_well (recur st')) →
  (n1, n2) ∈ pairs →
  syntactic_feasibility G1 G2 st n1 n2 = true →
  semantic_feasibility G1 G2 n1 n2 = Ok true →
  m ∈ yielded (recur (push G1 G2 st n1 n2)) →
  m ∈ yielded (try_pairs G1 G2 recur st pairs).
Proof using P1 P2.
  intros Hc Hp Hrec Hin Hsyn Hsem Hm.
  induction pairs as [|[a b] pairs IH]; [by apply elem_of_nil in Hin|].
  simpl. apply elem_of_cons in Hin as [[= <- <-]|Hin].
  - rewrite Hsyn, Hsem. by apply yielded_tapp_l.
  - assert (m ∈ yielded (try_pairs G1 G2 recur st pairs)) as IH'.
    { apply IH; [|done]. intros ???. apply Hp. by right. }
    destruct (syntactic_feasibility G1 G2 st a b); [|done].
    destruct (Hp a b) as (Ha & Hb & Han & Hbn); [left|].
    destruct (semantic_feasibility_ok G1 G2 a b P1 P2 Han Hbn) as [[|] Es];
      rewrite Es; [|done].
    apply yielded_tapp_r; [|done].
    apply semantic_feasibility_true in Es as (x & Hx1 & Hx2).
    apply Hrec; [by eapply push_consistent|by apply unmapped_push].
Qed.

(** The search from a state on the identity yields a part of the
    identity. *)
Lemma identity_path limit st :
  consistent G1 G2 st → on_identity G2 st →
  length (unmapped G2 st) < limit →
  ∃ m, m ∈ yielded (match_ G1 G2 limit st) ∧ identical m.
Proof using Hpart P1 P2 HND2.
  revert st. induction limit as [|limit IH]; intros st Hc Hoi Hlim; [lia|].
  simpl. case_bool_decide as Es.
  { exists (core_1 st). split; [left|apply Hoi]. }
  destruct (candidate_pairs_ok G1 G2 st Hc HND2 Es) as [pairs Ep]. rewrite Ep.
  destruct (identity_candidate st pairs Hoi Ep) as [n Hn].
  destruct (candidate_pairs_fresh G1 G2 st pairs n n Hc Ep Hn)
    as (Hf1 & Hf2 & Hn1 & Hn2).
  pose proof (identity_semantic n Hn2) as Hsem.
  pose proof Hsem as (x & Hx1 & Hx2)%semantic_feasibility_true.
  destruct (IH (push G1 G2 st n n)) as (m & Hm & Hid).
  - by eapply push_consistent.
  - by apply push_on_identity.
  - pose proof (unmapped_push G1 G2 st n n Hn2 Hf2). lia.
  - exists m. split; [|done].
    eapply try_pairs_reaches; [done| | |exact Hn| |done|done].
    + intros a b. by apply candidate_pairs_fresh.
    + intros st' Hc' Hlt. apply match_ends_well; [done..|lia].
    + by apply identity_feasible.
Qed.
End IdentityPath.

Section ListMore.
Context {X Y : Type}.

Lemma omap_filter (f : X → option Y) (P : X → Prop) (Q : Y → Prop)
    `{∀ x, Decision (P x), ∀ y, Decision (Q y)} (l : list X) :
  (∀ x y, x ∈ l → f x = Some y → P x ↔ Q y) →
  omap f (filter P l) = filter Q (omap f l).
Proof.
  induction l as [|x l IH]; intros HPQ; [done|].
  assert (omap f (filter P l) = filter Q (omap f l)) as IH'.
  { apply IH. intros ??? . apply HPQ. by right. }
  cbn [omap list_omap]. rewrite filter_cons.
  destruct (f x) as [y|] eqn:Ef.
  - rewrite filter_cons.
    destruct (decide (P x)) as [HP|HP], (decide (Q y)) as [HQ|HQ].
    + cbn [omap list_omap]. rewrite Ef. by f_equal.
    + destruct HQ. by apply (HPQ x y); [left|..].
    + destruct HP. by apply (HPQ x y); [left|..].
    + done.
  - destruct (decide (P x)); [|done]. cbn [omap list_omap]. by rewrite Ef.
Qed.

Lemma filter_all (P : X → Prop) `{∀ x, Decision (P x)} (l : list X) :
  (∀ x, x ∈ l → P x) → filter P l = l.
Proof.
  induction l as [|x l IH]; intros HP; [done|].
  rewrite filter_cons_True by (apply HP; left).
  f_equal. apply IH. intros ??. apply HP. by right.
Qed.
End ListMore.

Section SelfMatch.
Context {V T B : Type} `{Countable V, Countable T}.
Variable A : Graph V T B.
Hypothesis wf_A : wf_graph A = true.
Hypothesis names_A : populated A "atomname" = true.
Hypothesis elements_A : populated A "element" = true.

Lemma part_of_heavy : part_of A (heavy_res A).
Proof using wf_A.
  split.
  - by intros n [? _]%nodes_heavy_res.
  - intros n [Hn Hd]%nodes_heavy_res.
    unfold heavy_res at 1, remove_nodes_from, neighbors at 1. simpl.
    apply omap_filter. intros e y He Hy.
    assert (e.1.1 ∈ nodes A ∧ e.1.2 ∈ nodes A) as [H1 H2].
    { pose proof wf_A as Hwf. unfold wf_graph in Hwf.
      rewrite andb_true_iff, forallb_forall in Hwf. destruct Hwf as [_ Hall].
      apply list_elem_of_In, Hall in He.
      by rewrite andb_true_iff, !bool_decide_eq_true in He. }
    assert (Hheavy : ∀ v, v ∈ nodes A →
              v ∉ H_idxs A ↔ v ∈ nodes (heavy_res A)).
    { intros v Hv. rewrite nodes_heavy_res. unfold H_idxs.
      rewrite list_elem_of_filter. naive_solver. }
    assert (n ∉ H_idxs A) as Hnh by (apply Hheavy; [done|by apply nodes_heavy_res]).
    destruct (decide (e.1.1 = n)) as [E1|].
    { injection Hy as <-. rewrite <- (Hheavy _ H2), E1. naive_solver. }
    destruct (decide (e.1.2 = n)) as [E2|]; [|done].
    injection Hy as <-. rewrite <- (Hheavy _ H1), E2. naive_solver.
  - intros n Hn. by apply attribute_heavy_res.
Qed.

Lemma part_of_self : part_of A A.
Proof using wf_A.
  split; [done| |done].
  intros n Hn. symmetry. apply filter_all. intros m Hm.
  by eapply wf_graph_neighbors.
Qed.

(** The first search finds the identity on the heavy atoms. *)
Lemma identity_first_match :
  ∃ m0, m0 ∈ first_matches A A ∧ identical m0
        ∧ ∀ a, a ∈ nodes A → degree A a ≠ 1 → m0 !! a = Some a.
Proof using wf_A elements_A.
  assert (NoDup (nodes (heavy_res A))) as HND
    by by apply NoDup_heavy_res, wf_graph_NoDup.
  destruct (identity_path A (heavy_res A) part_of_heavy elements_A
              (populated_heavy_res A "element" elements_A) HND
              (S (number_of_nodes (heavy_res A))) initialize)
    as (m0 & Hm0 & Hid).
  - apply consistent_initialize.
  - split; [by intros a b ?|done|done|by intros v ?%elem_of_nil].
  - pose proof (unmapped_le (heavy_res A) (initialize : GMState V V)). lia.
  - exists m0. split_and!; [done|done|].
    pose proof (match_yield_size _ _ _ _ _ Hm0) as Hsize.
    pose proof Hm0 as [_ [r Hs]]%match_sound; [|apply consistent_initialize].
    assert (dom m0 = list_to_set (nodes (heavy_res A))) as Hdom.
    { apply set_subseteq_size_eq.
      - intros a [b Hab]%elem_of_dom. apply elem_of_list_to_set.
        pose proof (Hid _ _ Hab) as ->.
        by destruct (sc_nodes _ _ _ _ Hs b b Hab).
      - rewrite size_dom, Hsize, size_list_to_set by done.
        unfold number_of_nodes, nodes. by rewrite length_fmap. }
    intros a Ha Hd.
    assert (a ∈ dom m0) as [b Hab]%elem_of_dom.
    { rewrite Hdom. apply elem_of_list_to_set. by apply nodes_heavy_res. }
    by rewrite (Hid _ _ Hab) in Hab |- *.
Qed.

(** The leaves added to a part of the identity are added to
    themselves. *)
Lemma leaves_identical m0 m' r' :
  identical m0 → leaves_extended A A m0 m' r' → identical m'.
Proof.
  intros Hid [_ _ Hadd] ref res [Hl|[Hleaf _ Hp]]%Hadd; [by apply Hid|].
  destruct Hp as (res_neighbor & ref_neighbor & name & x
                  & Hnb & _ & Hm & Hname & Hcand & _).
  pose proof (Hid _ _ Hm) as ->.
  assert (res ∈ leaf_candidates A res_neighbor name) as Hin.
  { apply list_elem_of_filter. split; [done|].
    apply neighbors_sym. rewrite Hnb. left. }
  rewrite Hcand in Hin. by apply list_elem_of_singleton in Hin.
Qed.

(** The search seeded with a part of the identity finds a match. *)
Lemma identity_completion m0 found :
  identical m0 → completes A A m0 found → ∃ m, m ∈ found ∧ m0 ⊆ m.
Proof using wf_A elements_A.
  intros Hid (m' & r' & _ & Hle & ->).
  pose proof (leaves_identical m0 m' r' Hid Hle) as Hid'.
  pose proof (seeded_consistent A A m0 m' r' Hle) as Hc.
  assert (r' = m') as ->.
  { destruct Hle as [[Hinv _ _] _ _]. apply map_eq. intros k.
    apply option_eq. intros x. rewrite <- Hinv. split; intros Hx.
    - by rewrite (Hid' _ _ Hx) in Hx |- *.
    - by rewrite <- (Hid' _ _ Hx) in Hx |- *. }
  destruct (identity_path A A part_of_self elements_A elements_A
              (wf_graph_NoDup A wf_A) (S (number_of_nodes A))
              (MkState m' m' [] [])) as (m & Hm & _).
  { done. }
  { split; [done|done|done|by intros v ?%elem_of_nil]. }
  { pose proof (unmapped_le A (MkState m' m' [] [])). lia. }
  fold (subgraph_isomorphisms_iter A A (MkState m' m' [] [])) in Hm.
  fold (outcome_of A A m' m') in Hm.
  assert (∃ m1, m1 ∈ (if decide (m' = ∅) then outcome_of A A m' m'
                      else take 1 (outcome_of A A m' m'))
                ∧ m1 ∈ outcome_of A A m' m') as (m1 & Hm1 & Hout).
  { case_decide; [by exists m|].
    destruct (outcome_of A A m' m') as [|m1 l]; [by apply elem_of_nil in Hm|].
    exists m1. split; left. }
  exists m1. split; [done|].
  apply match_sound in Hout as [Hsub _]; [|done].
  etrans; [apply Hle|exact Hsub].
Qed.

(** [isomorphism] of a graph against itself returns a match that is the
    identity on the heavy atoms. *)
Lemma isomorphism_identity ms :
  isomorphism A A = Ok ms →
  ∃ m, m ∈ ms ∧ ∀ a, a ∈ nodes A → degree A a ≠ 1 → m !! a = Some a.
Proof using All.
  intros E.
  destruct (isomorphism_run A A wf_A wf_A names_A elements_A names_A elements_A)
    as (founds & ms' & HF & E' & Hperm & _).
  rewrite E in E'. injection E' as <-.
  destruct identity_first_match as (m0 & Hm0 & Hid & Hheavy).
  apply list_elem_of_lookup in Hm0 as [i Hi].
  destruct (Forall2_lookup_l _ _ _ i m0 HF Hi) as (found & Hfound & Hc).
  destruct (identity_completion m0 found Hid Hc) as (m & Hm & Hsub).
  exists m. split.
  - rewrite Hperm. apply list_elem_of_join. exists found.
    split; [done|by eapply list_elem_of_lookup_2].
  - intros a Ha Hd. eapply lookup_weaken; [by apply Hheavy|done].
Qed.
End SelfMatch.

(** * The matches of [isomorphism] *)

Section IsomorphismClaims.
Context {V1 V2 : Type} `{Countable V1, Countable V2}.
Context {A B1 B2 : Type} `{Countable A}.
Variables (reference : Graph V1 A B1) (residue : Graph V2 A B2).
Hypothesis wf_reference : wf_graph reference = true.
Hypothesis wf_residue : wf_graph residue = true.
Hypothesis names_reference : populated reference "atomname" = true.
Hypothesis elements_reference : populated reference "element" = true.
Hypothesis names_residue : populated residue "atomname" = true.
Hypothesis elements_residue : populated residue "element" = true.

(** The matches are sound mappings onto the whole residue. *)
Lemma isomorphism_sound :
  ∃ ms, isomorphism reference residue = Ok ms
        ∧ ∀ m, m ∈ ms →
            (∃ r, sound_core reference residue m r)
            ∧ size m = number_of_nodes residue.
Proof using All.
  destruct (isomorphism_run reference residue wf_reference wf_residue
              names_reference elements_reference names_residue elements_residue)
    as (founds & ms & HF & E & Hperm & Hsorted).
  exists ms. split; [done|]. intros m Hm. rewrite Hperm in Hm.
  apply list_elem_of_join in Hm as (found & Hm & Hfound).
  apply list_elem_of_lookup in Hfound as [i Hi].
  destruct (Forall2_lookup_r _ _ _ i found HF Hi) as (m0 & _ & Hc).
  by eapply completes_sound.
Qed.

(** X6. The matches come best first: largest score of [rate_match] first. *)
Lemma isomorphism_best_first :
  ∃ ms, isomorphism reference residue = Ok ms
        ∧ (∀ m, m ∈ ms →
             rate_match reference residue m
             = Ok (rate_score reference residue m))
        ∧ StronglySorted (λ m m', rate_score reference residue m'
                                   ≤ rate_score reference residue m) ms.
Proof using All.
  destruct isomorphism_sound as (ms' & E' & Hms).
  destruct (isomorphism_run reference residue wf_reference wf_residue
              names_reference elements_reference names_residue elements_residue)
    as (founds & ms & HF & E & Hperm & Hsorted).
  exists ms. split_and!; [done| |done].
  intros m Hm. rewrite E in E'. injection E' as <-.
  destruct (Hms m Hm) as [[r [_ Hn _]] _].
  apply rate_match_ok. intros a b Hab. by apply Hn.
Qed.

(** The seed is empty exactly when the residue has no heavy atom. *)
Lemma seed_empty_iff m0 m' r' :
  m0 ∈ first_matches reference residue →
  leaves_extended reference residue m0 m' r' →
  m' = ∅ ↔ nodes (heavy_res residue) = [].
Proof.
  intros Hsize%first_matches_size [_ Hsub Hadd].
  unfold number_of_nodes in Hsize. rewrite <- (length_fmap fst) in Hsize.
  fold (nodes (heavy_res residue)) in Hsize. split.
  - intros ->. assert (m0 = ∅) as ->.
    { apply map_empty. intros i. by eapply lookup_weaken_None, Hsub. }
    rewrite map_size_empty in Hsize. by apply nil_length_inv.
  - intros E. rewrite E in Hsize. apply map_size_empty_inv in Hsize. subst m0.
    apply map_empty. intros ref. destruct (m' !! ref) as [res|] eqn:Hm; [|done].
    exfalso. destruct (Hadd _ _ Hm) as [Hm0|[_ _ (nb & refnb & ? & ? & _ & _ & Hnb & _)]].
    + by rewrite lookup_empty in Hm0.
    + by rewrite lookup_empty in Hnb.
Qed.

(** C6. Every match of the heavy atoms, extended by the leaves, seeds a
    search over the whole residue.  When the seed is not empty, the first
    result of that search is added to the matches, and nothing when the
    search has no result; when the seed is empty, every result is added.
    The seed is empty exactly when the residue has no heavy atom.  The
    matches returned are what was added, in some order. *)
Theorem isomorphism_completions :
  ∃ founds ms,
    isomorphism reference residue = Ok ms
    ∧ ms ≡ₚ mjoin founds
    ∧ Forall2 (λ match0 found,
         ∃ match' reverse',
           extend_leaves reference residue match0 = Ok (match', reverse')
           ∧ (match' = ∅ ↔ nodes (heavy_res residue) = [])
           ∧ (match' ≠ ∅ →
              found = take 1 (outcome_of reference residue match' reverse'))
           ∧ (match' = ∅ →
              found = outcome_of reference residue match' reverse'))
        (first_matches reference residue) founds.
Proof using All.
  destruct (isomorphism_run reference residue wf_reference wf_residue
              names_reference elements_reference names_residue elements_residue)
    as (founds & ms & HF & E & Hperm & Hsorted).
  exists founds, ms. split_and!; [done..|].
  apply Forall2_same_length_lookup. split; [by eapply Forall2_length|].
  intros i m0 found Hm0 Hfound.
  destruct (Forall2_lookup_lr _ _ _ _ _ _ HF Hm0 Hfound)
    as (m' & r' & Em & Hle & ->).
  exists m', r'. split_and!; [done| |by intros; case_decide|by intros; case_decide].
  eapply seed_empty_iff; [|done]. by eapply list_elem_of_lookup_2.
Qed.
End IsomorphismClaims.

Section SelfIsomorphism.
Context {V T B : Type} `{Countable V, Countable T}.
Variable A : Graph V T B.
Hypothesis wf_A : wf_graph A = true.
Hypothesis names_A : populated A "atomname" = true.
Hypothesis elements_A : populated A "element" = true.

(** C8. [isomorphism] of a graph against itself returns a match that is
    the identity on the heavy atoms, the nodes of degree other than one;
    every match it returns is an injective mapping of every node of the
    graph to a node of the graph with the same element. *)
Theorem self_isomorphism_spec :
  ∃ ms, isomorphism A A = Ok ms
        ∧ (∃ m, m ∈ ms
                ∧ ∀ a, a ∈ nodes A → degree A a ≠ 1 → m !! a = Some a)
        ∧ ∀ m, m ∈ ms →
            injective m
            ∧ (∀ a, a ∈ nodes A → ∃ b, m !! a = Some b ∧ b ∈ nodes A)
            ∧ (∀ a b, m !! a = Some b →
                 ∃ x, attribute A a "element" = Ok x
                      ∧ attribute A b "element" = Ok x).
Proof using All.
  destruct (isomorphism_sound A A wf_A wf_A names_A elements_A names_A elements_A)
    as (ms & E & Hms).
  exists ms. split; [done|].
  split; [by apply isomorphism_identity|].
  intros m Hm.
  destruct (Hms m Hm) as [[r Hs] Hsize].
  split_and!.
  - by eapply sound_core_injective.
  - assert (dom m = list_to_set (nodes A)) as Hdom.
    { apply set_subseteq_size_eq.
      - intros a [b Hab]%elem_of_dom. apply elem_of_list_to_set.
        by destruct (sc_nodes _ _ _ _ Hs a b Hab).
      - rewrite size_dom, Hsize, size_list_to_set by by apply wf_graph_NoDup.
        unfold number_of_nodes, nodes. by rewrite length_fmap. }
    intros a Ha.
    assert (a ∈ dom m) as [b Hab]%elem_of_dom.
    { rewrite Hdom. by apply elem_of_list_to_set. }
    exists b. split; [done|]. by destruct (sc_nodes _ _ _ _ Hs a b Hab).
  - apply Hs.
Qed.
End SelfIsomorphism.

(** * Injective matches *)

Section Injective.
Context {V1 V2 : Type} `{Countable V1, Countable V2}.
Context {A B : Type} `{Countable A}.

(** C1. The matches of [categorical_maximum_common_subgraph], of
    [maximum_common_subgraph] and of [isomorphism] are injective: no two
    keys of a match have the same value.  For [isomorphism] the graphs
    hold every node once, and every node has its atom name and its
    element. *)
Theorem matches_injective :
  (∀ (graph1 : Graph V1 A B) (graph2 : Graph V2 A B) attributes m,
     m ∈ categorical_maximum_common_subgraph graph1 graph2 attributes →
     injective m)
  ∧ (∀ (graph1 : Graph V1 A B) (graph2 : Graph V2 A B) attributes m,
       m ∈ maximum_common_subgraph graph1 graph2 attributes →
       injective m)
  ∧ (∀ (reference : Graph V1 A B) (residue : Graph V2 A B),
       wf_graph reference = true → wf_graph residue = true →
       populated reference "atomname" = true →
       populated reference "element" = true →
       populated residue "atomname" = true →
       populated residue "element" = true →
       ∃ ms, isomorphism reference residue = Ok ms
             ∧ ∀ m, m ∈ ms → injective m).
Proof.
  split_and!.
  - intros graph1 graph2 attributes m (C & -> & HC)%list_elem_of_fmap k1 k2 v.
    apply (clique_dict_injective
             (categorical_modular_product graph1 graph2 attributes)).
    + apply modular_product_distinct.
    + apply find_cliques_sound. by apply elem_of_maxes in HC as [? _].
  - intros graph1 graph2 attributes m Hm k1 k2 v.
    by eapply maximum_common_subgraph_injective.
  - intros reference residue ? ? ? ? ? ?.
    destruct (isomorphism_sound reference residue) as (ms & E & Hms); [done..|].
    exists ms. split; [done|]. intros m [[r Hs] _]%Hms.
    by eapply sound_core_injective.
Qed.
End Injective.

(** * The claims on small molecules *)

Lemma ethane_ok :
  wf_graph ethane = true
  ∧ populated ethane "atomname" = true ∧ populated ethane "element" = true.
Proof. by vm_compute. Qed.

Lemma methyl_ok :
  wf_graph methyl = true
  ∧ populated methyl "atomname" = true ∧ populated methyl "element" = true.
Proof. by vm_compute. Qed.

(** The carbon of the methyl on the first carbon of ethane. *)
Lemma heavy_match_methyl : heavy_match ethane methyl {[1 := 1]}.
Proof.
  apply first_matches_heavy.
  assert (first_matches ethane methyl = [{[1 := 1]}; {[2 := 1]}]) as ->
    by by vm_compute.
  left.
Qed.

Lemma extend_leaves_spec_witness :
  heavy_match ethane methyl {[1 := 1]}
  ∧ ∃ match' reverse',
      extend_leaves ethane methyl {[1 := 1]} = Ok (match', reverse')
      ∧ {[1 := 1]} ⊆ match'
      ∧ (∀ ref res, match' !! ref = Some res →
           ({[1 := 1]} : gmap nat nat) !! ref = Some res
           ∨ leaf_added ethane methyl {[1 := 1]} ref res)
      ∧ (∀ res res_neighbor ref_neighbor name,
           degree methyl res = 1 →
           neighbors methyl res = [res_neighbor] →
           ({[1 := 1]} : gmap nat nat) !! ref_neighbor = Some res_neighbor →
           attribute methyl res "atomname" = Ok name →
           length (leaf_candidates ethane ref_neighbor name) ≠ 1 →
           ∀ ref, match' !! ref ≠ Some res)
      ∧ (∀ ref res, match' !! ref = Some res ↔ reverse' !! res = Some ref)
      ∧ visit_leaves ethane methyl {[1 := 1]} (H_idxs methyl)
        = Ok (match', reverse')
      ∧ (∀ visited res rest,
           H_idxs methyl = visited ++ res :: rest →
           ∃ m r m1 r1,
             visit_leaves ethane methyl {[1 := 1]} visited = Ok (m, r)
             ∧ visit_leaves ethane methyl {[1 := 1]} (visited ++ [res])
               = Ok (m1, r1)
             ∧ ((∃ ref, visit_adds ethane methyl m r ref res
                        ∧ m1 = <[ref := res]> m ∧ r1 = <[res := ref]> r)
                ∨ ((∀ ref, ¬ visit_adds ethane methyl m r ref res)
                   ∧ m1 = m ∧ r1 = r))).
Proof.
  split; [exact heavy_match_methyl|].
  apply (extend_leaves_spec ethane methyl);
    [apply ethane_ok..|apply methyl_ok|apply methyl_ok|apply methyl_ok|].
  exact heavy_match_methyl.
Defined.

Lemma isomorphism_completions_witness :
  ∃ founds ms,
    isomorphism ethane methyl = Ok ms
    ∧ ms ≡ₚ mjoin founds
    ∧ Forall2 (λ match0 found,
         ∃ match' reverse',
           extend_leaves ethane methyl match0 = Ok (match', reverse')
           ∧ (match' = ∅ ↔ nodes (heavy_res methyl) = [])
           ∧ (match' ≠ ∅ →
              found = take 1 (outcome_of ethane methyl match' reverse'))
           ∧ (match' = ∅ →
              found = outcome_of ethane methyl match' reverse'))
        (first_matches ethane methyl) founds.
Proof.
  apply (isomorphism_completions ethane methyl);
    first [apply ethane_ok|apply methyl_ok].
Defined.

(** A heavy match whose seed is not empty and for which the search over
    the whole residue has no result: the carbon of the carbene on the
    carbon without a neighbour.  Nothing is added for it. *)
Lemma seeded_search_without_result :
  first_matches carbene_and_carbon carbene = [{[1 := 1]}; {[4 := 1]}]
  ∧ extend_leaves carbene_and_carbon carbene {[4 := 1]}
    = Ok ({[4 := 1]}, {[1 := 4]})
  ∧ ({[4 := 1]} : gmap nat nat) ≠ ∅
  ∧ completions carbene_and_carbon carbene {[4 := 1]} = Ok []
  ∧ (¬ ∃ completion,
       completions carbene_and_carbon carbene {[4 := 1]} = Ok [completion])
  ∧ isomorphism carbene_and_carbon carbene = Ok [{[1 := 1; 2 := 2; 3 := 3]}].
Proof.
  split_and!; try by vm_compute.
  intros [completion E]. vm_compute in E. discriminate E.
Qed.

Lemma self_isomorphism_spec_witness :
  ∃ ms, isomorphism ethane ethane = Ok ms
        ∧ (∃ m, m ∈ ms
                ∧ ∀ a, a ∈ nodes ethane → degree ethane a ≠ 1 → m !! a = Some a)
        ∧ ∀ m, m ∈ ms →
            injective m
            ∧ (∀ a, a ∈ nodes ethane → ∃ b, m !! a = Some b ∧ b ∈ nodes ethane)
            ∧ (∀ a b, m !! a = Some b →
                 ∃ x, attribute ethane a "element" = Ok x
                      ∧ attribute ethane b "element" = Ok x).
Proof. apply (self_isomorphism_spec ethane); apply ethane_ok. Defined.

(** A match of ethane against itself that exchanges the two carbons,
    which are heavy. *)
Lemma self_isomorphism_exchanges_carbons :
  populated ethane "element" = true
  ∧ degree ethane 1 ≠ 1
  ∧ ∃ ms m, isomorphism ethane ethane = Ok ms ∧ m ∈ ms ∧ m !! 1 = Some 2.
Proof.
  split_and!; [by vm_compute..|].
  do 2 eexists. split_and!.
  - vm_compute. reflexivity.
  - right. left.
  - by vm_compute.
Qed.

Lemma matches_injective_witness :
  ∃ ms, isomorphism ethane methyl = Ok ms ∧ ∀ m, m ∈ ms → injective m.
Proof.
  destruct (matches_injective (V1:=nat) (V2:=nat) (A:=string) (B:=()))
    as (_ & _ & Hiso).
  apply Hiso; first [apply ethane_ok|apply methyl_ok].
Defined.

(** * Further properties *)

(** ** The matches of the clique searches are common subgraphs *)

Section CommonSubgraph.
Context {V1 V2 : Type} `{Countable V1, Countable V2}.
Context {A B : Type} `{EqDecision A}.
Variables (graph1 : Graph V1 A B) (graph2 : Graph V2 A B).
Variable attributes : list string.

(** The pairs of a clique of a graph in which adjacent pairs are
    compatible. *)
Lemma clique_common_subgraph {A' B' : Type} (P : Graph (V1 * V2) A' B')
    (C : list (V1 * V2)) :
  (∀ p q, has_edge P p q = true → compatible graph1 graph2 p q = true) →
  is_clique P C →
  ∀ a1 b1 a2 b2,
    dict C !! a1 = Some b1 → dict C !! a2 = Some b2 → a1 ≠ a2 →
    b1 ≠ b2 ∧ has_edge graph1 a1 a2 = has_edge graph2 b1 b2.
Proof.
  intros Hedge HC a1 b1 a2 b2 H1 H2 Hne.
  assert (NoDup C.*1) as HK.
  { apply (clique_keys_NoDup P); [|done].
    intros p q Hpq%Hedge%compatible_spec. naive_solver. }
  apply lookup_dict in H1, H2; [|done..].
  destruct HC as (_ & _ & HE).
  assert ((a1, b1) ≠ (a2, b2)) as Hpq by congruence.
  specialize (HE _ _ H1 H2 Hpq).
  apply Hedge, compatible_spec in HE. naive_solver.
Qed.

(** X2. A match of [categorical_maximum_common_subgraph] joins nodes of the
    two graphs that agree on the attributes, and two of its pairs are
    adjacent in [graph1] exactly when they are in [graph2]. *)
Theorem categorical_maximum_common_subgraph_common m :
  m ∈ categorical_maximum_common_subgraph graph1 graph2 attributes →
  (∀ a b, m !! a = Some b →
     ∃ node1 node2, (a, node1) ∈ g_node graph1 ∧ (b, node2) ∈ g_node graph2
                    ∧ ∀ attr, attr ∈ attributes →
                        ∃ x, node1 !! attr = Some x ∧ node2 !! attr = Some x)
  ∧ (∀ a1 b1 a2 b2, m !! a1 = Some b1 → m !! a2 = Some b2 → a1 ≠ a2 →
       b1 ≠ b2 ∧ has_edge graph1 a1 a2 = has_edge graph2 b1 b2).
Proof.
  intros (C & -> & HC)%list_elem_of_fmap.
  apply elem_of_maxes in HC as [HC%find_cliques_sound _].
  destruct HC as [HC _]. split.
  - intros a b Hab.
    apply lookup_dict in Hab.
    2:{ eapply clique_keys_NoDup; [|done].
        apply (modular_product_distinct graph1 graph2 attributes). }
    destruct HC as (_ & Hn & _). apply Hn in Hab.
    rewrite modular_product_nodes in Hab.
    apply cartesian_product_nodes in Hab as (n1 & n2 & ? & ? & Hag).
    exists n1, n2. split_and!; [done..|]. by apply attrs_agree_spec.
  - eapply clique_common_subgraph; [|done].
    by intros p q (_ & _ & ?)%modular_product_has_edge.
Qed.

(** X4. A match of [maximum_common_subgraph] joins nodes of the two graphs
    that agree on the attributes, and two of its pairs are adjacent in
    [graph1] exactly when they are in [graph2]. *)
Theorem maximum_common_subgraph_common m :
  m ∈ maximum_common_subgraph graph1 graph2 attributes →
  (∀ a b, m !! a = Some b →
     ∃ node1 node2, (a, node1) ∈ g_node graph1 ∧ (b, node2) ∈ g_node graph2
                    ∧ ∀ attr, attr ∈ attributes →
                        ∃ x, node1 !! attr = Some x ∧ node2 !! attr = Some x)
  ∧ (∀ a1 b1 a2 b2, m !! a1 = Some b1 → m !! a2 = Some b2 → a1 ≠ a2 →
       b1 ≠ b2 ∧ has_edge graph1 a1 a2 = has_edge graph2 b1 b2).
Proof.
  intros (C & HC & _ & ->)%elem_of_maximum_common_subgraph.
  pose proof (all_cliques_keys _ _ _ C HC) as [_ HK].
  apply elem_of_all_cliques in HC as (seed & Hseed & HC%find_cliques_sound).
  destruct HC as [HC _]. split.
  - intros a b Hab. apply lookup_dict in Hab; [|done].
    destruct HC as (_ & Hn & _). apply Hn in Hab.
    apply leaf_product_nodes in Hab as [Hab|(n1 & n2 & ? & ? & _ & Hag & _)].
    + destruct Hseed as [->|Hseed%find_cliques_sound];
        [by apply elem_of_nil in Hab|].
      destruct Hseed as [(_ & Hn' & _) _]. apply Hn' in Hab.
      apply heavy_product_nodes in Hab as (n1 & n2 & ? & ? & Hag & _).
      exists n1, n2. split_and!; [done..|]. by apply attrs_agree_spec.
    + exists n1, n2. split_and!; [done..|]. by apply attrs_agree_spec.
  - eapply clique_common_subgraph; [|exact HC].
    by intros p q (_ & _ & ?)%leaf_product_has_edge.
Qed.
End CommonSubgraph.

(** ** The score of a match *)

Section RateMatchMore.
Context {V1 V2 : Type} `{Countable V1, Countable V2}.
Context {A B1 B2 : Type} `{EqDecision A}.
Variables (residue : Graph V1 A B1) (bead : Graph V2 A B2).

Lemma node_attrs_None {V B} `{Countable V} (G : Graph V A B) n :
  n ∉ nodes G → node_attrs G n = None.
Proof.
  intros Hn. unfold node_attrs.
  destruct (list_find _ _) as [[i p]|] eqn:E; [|done]. exfalso.
  apply list_find_Some in E as (Hi & <- & _). apply Hn.
  apply list_elem_of_fmap. exists p. split; [done|].
  by eapply list_elem_of_lookup_2.
Qed.

Lemma rate_pair_raise p :
  p.1 ∉ nodes residue ∨ p.2 ∉ nodes bead →
  rate_pair residue bead p = Raise KeyError.
Proof using Type*.
  unfold rate_pair. intros [Hn|Hn].
  - by rewrite (node_attrs_None _ _ Hn).
  - rewrite (node_attrs_None _ _ Hn). by destruct (node_attrs residue p.1).
Qed.

Lemma rate_sum_outcome ps :
  (Forall (λ p, p.1 ∈ nodes residue ∧ p.2 ∈ nodes bead) ps
   ∧ rate_sum residue bead ps
     = Ok (length (filter (names_equal residue bead) ps)))
  ∨ (Exists (λ p, p.1 ∉ nodes residue ∨ p.2 ∉ nodes bead) ps
     ∧ rate_sum residue bead ps = Raise KeyError).
Proof using Type*.
  induction ps as [|p ps IH].
  - left. by split.
  - destruct (decide (p.1 ∈ nodes residue ∧ p.2 ∈ nodes bead)) as [Hp|Hp].
    + destruct IH as [[Hall E]|[Hex E]].
      * left. split; [by constructor|].
        apply rate_sum_counts. by constructor.
      * right. split; [by right|].
        unfold rate_sum in *. simpl. rewrite E.
        rewrite rate_pair_counts by naive_solver. done.
    + right. apply not_and_l in Hp. split; [by left|].
      unfold rate_sum. simpl. by rewrite rate_pair_raise.
Qed.

(** X10. [rate_match] returns a number when every pair of the match joins a
    node of the residue to a node of the bead, and raises [KeyError]
    otherwise; the number is at most the size of the match. *)
Theorem rate_match_outcome (match_ : gmap V1 V2) :
  ((∀ rdx bdx, match_ !! rdx = Some bdx →
      rdx ∈ nodes residue ∧ bdx ∈ nodes bead)
   ∧ ∃ k, rate_match residue bead match_ = Ok k ∧ k ≤ size match_)
  ∨ ((∃ rdx bdx, match_ !! rdx = Some bdx
                 ∧ (rdx ∉ nodes residue ∨ bdx ∉ nodes bead))
     ∧ rate_match residue bead match_ = Raise KeyError).
Proof using Type*.
  destruct (rate_sum_outcome (map_to_list match_)) as [[Hall E]|[Hex E]].
  - left. rewrite Forall_forall in Hall. split.
    + intros r b Hrb. by apply (Hall (r, b)), elem_of_map_to_list.
    + eexists. split; [exact E|].
      rewrite length_filter. by rewrite length_map_to_list.
  - right. split; [|done].
    apply Exists_exists in Hex as ([r b] & Hin%elem_of_map_to_list & Hno).
    eauto.
Qed.
End RateMatchMore.

Section RateIdentity.
Context {V : Type} `{Countable V} {A B : Type} `{EqDecision A}.

(** X11. The identity on the nodes of a graph, as a match of the graph with
    itself, gets the number of nodes as its score. *)
Theorem rate_match_identity (G : Graph V A B) :
  NoDup (nodes G) →
  rate_match G G (list_to_map ((λ n, (n, n)) <$> nodes G))
  = Ok (number_of_nodes G).
Proof.
  intros HND. set (m := list_to_map _ : gmap V V).
  assert (Hm : ∀ a b, m !! a = Some b ↔ a ∈ nodes G ∧ b = a).
  { intros a b. unfold m. rewrite <- elem_of_list_to_map.
    - rewrite list_elem_of_fmap. naive_solver.
    - rewrite <- list_fmap_compose. by rewrite list_fmap_id. }
  rewrite rate_match_ok.
  2:{ intros a b [? ->]%Hm. done. }
  f_equal. rewrite map_filter_id.
  - unfold m. rewrite map_size_list_to_map.
    + unfold number_of_nodes, nodes. by rewrite !length_fmap.
    + rewrite <- list_fmap_compose. by rewrite list_fmap_id.
  - intros a b [_ ->]%Hm. done.
Qed.
End RateIdentity.

(** ** The matches of [isomorphism] *)

Section ReverseMore.
Context {V1 V2 : Type} `{Countable V1, Countable V2}.

(** Two mappings that are inverse of each other have the same size. *)
Lemma inverse_size (m : gmap V1 V2) (r : gmap V2 V1) :
  (∀ a b, m !! a = Some b ↔ r !! b = Some a) → size r = size m.
Proof.
  intros Hinv.
  assert (NoDup ((λ kv : V1 * V2, (kv.2, kv.1)) <$> map_to_list m).*1) as HND.
  { rewrite <- list_fmap_compose. apply NoDup_fmap_2_strong; [|apply NoDup_map_to_list].
    intros [a1 b1] [a2 b2] H1%elem_of_map_to_list H2%elem_of_map_to_list.
    simpl. intros ->. f_equal.
    apply Hinv in H1, H2. congruence. }
  assert (r = dict ((λ kv : V1 * V2, (kv.2, kv.1)) <$> map_to_list m)) as ->.
  { apply map_eq. intros b. apply option_eq. intros a.
    rewrite lookup_dict by done. rewrite <- Hinv, list_elem_of_fmap. split.
    - intros Hm. exists (a, b). split; [done|]. by apply elem_of_map_to_list.
    - intros ([a' b'] & [= -> ->] & Hin). by apply elem_of_map_to_list. }
  rewrite size_dict by done. by rewrite length_fmap, length_map_to_list.
Qed.

(** X8. [{v: k for k, v in match.items()}] inverts an injective match, and
    the inverse of the inverse is the match. *)
Theorem reverse_dict_inverse (match_ : gmap V1 V2) :
  injective match_ →
  (∀ k v, reverse_dict match_ !! v = Some k ↔ match_ !! k = Some v)
  ∧ size (reverse_dict match_) = size match_
  ∧ reverse_dict (reverse_dict match_) = match_.
Proof.
  intros Hinj.
  assert (Hl : ∀ k v, reverse_dict match_ !! v = Some k ↔ match_ !! k = Some v).
  { intros k v. by apply lookup_reverse_dict. }
  split_and!; [done| |].
  - apply inverse_size. intros a b. by rewrite Hl.
  - apply map_eq. intros k. apply option_eq. intros v.
    rewrite lookup_reverse_dict; [done|].
    intros v1 v2 k' H1%Hl H2%Hl. congruence.
Qed.
End ReverseMore.

Section IsomorphismMore.
Context {V1 V2 : Type} `{Countable V1, Countable V2}.
Context {A B1 B2 : Type} `{Countable A}.
Variables (reference : Graph V1 A B1) (residue : Graph V2 A B2).

(** X5. Every match of [isomorphism] covers the residue: each node of the
    residue is the image of one node of the reference, which carries
    the same element; the match has no other pair. *)
Theorem isomorphism_onto :
  wf_graph reference = true → wf_graph residue = true →
  populated reference "atomname" = true →
  populated reference "element" = true →
  populated residue "atomname" = true →
  populated residue "element" = true →
  ∃ ms, isomorphism reference residue = Ok ms
        ∧ ∀ m, m ∈ ms →
            size m = number_of_nodes residue
            ∧ (∀ a b, m !! a = Some b →
                 a ∈ nodes reference ∧ b ∈ nodes residue
                 ∧ ∃ x, attribute reference a "element" = Ok x
                        ∧ attribute residue b "element" = Ok x)
            ∧ (∀ b, b ∈ nodes residue →
                 ∃ a, m !! a = Some b ∧ ∀ a', m !! a' = Some b → a' = a).
Proof.
  intros Hwf1 Hwf2 Hn1 He1 Hn2 He2.
  destruct (isomorphism_sound reference residue Hwf1 Hwf2 Hn1 He1 Hn2 He2)
    as (ms & E & Hms).
  exists ms. split; [done|]. intros m Hm.
  destruct (Hms m Hm) as [[r Hs] Hsize]. split_and!; [done| |].
  - intros a b Hab. destruct (sc_nodes _ _ _ _ Hs a b Hab).
    split_and!; [done..|]. by apply (sc_element _ _ _ _ Hs).
  - assert (dom r = list_to_set (nodes residue)) as Hdom.
    { apply set_subseteq_size_eq.
      - intros b [a Hba]%elem_of_dom. apply elem_of_list_to_set.
        apply (sc_inverse _ _ _ _ Hs) in Hba.
        by destruct (sc_nodes _ _ _ _ Hs a b Hba).
      - rewrite size_dom, (inverse_size m r) by apply Hs.
        rewrite Hsize, size_list_to_set by by apply wf_graph_NoDup.
        unfold number_of_nodes, nodes. by rewrite length_fmap. }
    intros b Hb.
    assert (b ∈ dom r) as [a Hba]%elem_of_dom.
    { rewrite Hdom. by apply elem_of_list_to_set. }
    exists a. split; [by apply Hs|].
    intros a' Ha'. apply Hs in Ha'. congruence.
Qed.

(** The residue without a node: the empty match is the one match, for
    any reference. *)
Lemma isomorphism_empty_residue :
  isomorphism reference (empty_graph : Graph V2 A B2) = Ok [∅].
Proof. reflexivity. Qed.
End IsomorphismMore.

(** ** The nodes of the quotient graph *)

Section BlockmodelMore.
Context {V : Type} `{Countable V} {A W X : Type}.
Variable G : Graph V A W.
Implicit Types (CG : Graph nat (block_attr V A W X) W).
Implicit Types (partitions : list (list V)) (attrs : list (string * list X)).
Implicit Types (d : gmap string (block_attr V A W X)).

#[local] Abbreviation attr_step i :=
  (λ (acc : result (gmap string (block_attr V A W X))) (kv : string * list X),
     let '(k, vals) := kv in
     node ← acc;
     match vals !! (i : nat) with
     | Some x => Ok (<[k := BUser x]> node)
     | None => Raise IndexError
     end).

Lemma attr_step_raise i attrs :
  foldl (attr_step i) (Raise IndexError) attrs = Raise IndexError.
Proof. induction attrs as [|[k vals] attrs IH]; [done|]. simpl. apply IH. Qed.

(** The attributes of the caller on a node: a later attribute of the same
    name overrides an earlier one. *)
Lemma attr_step_outcome i attrs node0 :
  (Exists (λ kv, length kv.2 ≤ i) attrs
   ∧ foldl (attr_step i) (Ok node0) attrs = Raise IndexError)
  ∨ (Forall (λ kv, i < length kv.2) attrs
     ∧ ∃ node, foldl (attr_step i) (Ok node0) attrs = Ok node
         ∧ (∀ k, k ∉ attrs.*1 → node !! k = node0 !! k)
         ∧ (∀ k vals, NoDup attrs.*1 → (k, vals) ∈ attrs →
              ∃ x, vals !! i = Some x ∧ node !! k = Some (BUser x))).
Proof.
  revert node0. induction attrs as [|[k vals] attrs IH]; intros node0.
  - right. split; [done|]. exists node0. split_and!; [done..|].
    intros k vals _ Hin. by apply elem_of_nil in Hin.
  - simpl. destruct (vals !! i) as [x|] eqn:Ex.
    + apply lookup_lt_Some in Ex as Hlt.
      destruct (IH (<[k := BUser x]> node0))
        as [[Hex E]|(Hall & node & E & Hout & Hin)].
      * left. split; [by right|done].
      * right. split; [by constructor|]. exists node. split_and!; [done| |].
        -- intros k' [Hk Hk']%not_elem_of_cons.
           rewrite Hout by done. by rewrite lookup_insert_ne.
        -- intros k' vals' [Hk HND]%NoDup_cons [[= -> ->]|Hin']%elem_of_cons.
           ++ exists x. split; [done|]. rewrite Hout by done.
              apply lookup_insert_eq.
           ++ by apply Hin.
    + apply lookup_ge_None in Ex. left. split; [by left|].
      apply attr_step_raise.
Qed.

Lemma block_node_outcome attrs i idxs :
  (Exists (λ kv, length kv.2 ≤ i) attrs
   ∧ block_node G attrs i idxs = Raise IndexError)
  ∨ (Forall (λ kv, i < length kv.2) attrs
     ∧ ∃ d, block_node G attrs i idxs = Ok d
         ∧ d !! "nnodes" = Some (BCount (number_of_nodes (subgraph G idxs)))
         ∧ d !! "nedges" = Some (BCount (number_of_edges (subgraph G idxs)))
         ∧ d !! "density" = Some (density (subgraph G idxs))
         ∧ ("graph" ∉ attrs.*1 →
            d !! "graph" = Some (BGraph (subgraph G idxs)))
         ∧ (∀ k vals, NoDup attrs.*1 → (k, vals) ∈ attrs →
              k ∉ ["nnodes"; "nedges"; "density"] →
              ∃ x, vals !! i = Some x ∧ d !! k = Some (BUser x))).
Proof.
  unfold block_node.
  destruct (attr_step_outcome i attrs {["graph" := BGraph (subgraph G idxs)]})
    as [[Hex E]|(Hall & node & E & Hout & Hin)].
  - left. split; [done|]. by rewrite E.
  - right. split; [done|]. rewrite E. cbn [mbind result_bind].
    eexists. split; [done|]. split_and!.
    + rewrite lookup_insert_ne, lookup_insert_ne by done. apply lookup_insert_eq.
    + rewrite lookup_insert_ne by done. apply lookup_insert_eq.
    + apply lookup_insert_eq.
    + intros Hg. rewrite !lookup_insert_ne by done. rewrite Hout by done.
      apply lookup_singleton_eq.
    + intros k vals HND Hk Hno.
      destruct (Hin k vals HND Hk) as (x & Hx & Hd). exists x. split; [done|].
      rewrite !lookup_insert_ne; [done|..]; intros <-; apply Hno;
        apply list_elem_of_In; simpl; tauto.
Qed.

(** The nodes that [add_blocks] makes. *)
Lemma add_blocks_outcome attrs partitions k CG0 :
  nodes CG0 = seq 0 k →
  (Exists (λ kv, length kv.2 < k + length partitions) attrs
   ∧ add_blocks G attrs k partitions CG0 = Raise IndexError)
  ∨ ∃ CG ds,
      add_blocks G attrs k partitions CG0 = Ok CG
      ∧ g_node CG = g_node CG0 ++ zip (seq k (length partitions)) ds
      ∧ length ds = length partitions
      ∧ ∀ j idxs, partitions !! j = Some idxs →
          ∃ d, ds !! j = Some d ∧ block_node G attrs (k + j) idxs = Ok d.
Proof.
  revert k CG0. induction partitions as [|idxs partitions IH]; intros k CG0 Hn.
  - right. exists CG0, []. simpl. rewrite app_nil_r. split_and!; [done..|].
    intros j idxs Hj. by rewrite lookup_nil in Hj.
  - cbn [add_blocks].
    destruct (block_node_outcome attrs k idxs) as [[Hex E]|(_ & d & E & _)].
    + left. rewrite E. split; [|done].
      eapply Exists_impl; [exact Hex|]. simpl. intros; lia.
    + rewrite E. cbn [mbind result_bind].
      assert (has_node CG0 k = false) as Hk.
      { apply bool_decide_eq_false. rewrite Hn, elem_of_seq. lia. }
      destruct (IH (S k) (add_node CG0 k d))
        as [[Hex E']|(CG & ds & E' & Hg & Hlen & Hds)].
      * rewrite nodes_add_node, Hk, Hn. by rewrite seq_S.
      * left. split; [|done].
        eapply Exists_impl; [exact Hex|]. simpl. intros; lia.
      * right. exists CG, (d :: ds). split_and!; [done| |simpl; lia|].
        -- rewrite Hg. unfold add_node. rewrite Hk. simpl. by rewrite <- app_assoc.
        -- intros [|j] idxs' Hj; simpl in Hj.
           ++ injection Hj as <-. exists d. by rewrite Nat.add_0_r.
           ++ destruct (Hds j idxs' Hj) as (d' & ? & Hd'). exists d'.
              split; [done|]. by replace (k + S j) with (S k + j) by lia.
Qed.

Lemma g_node_add_edge {V' A' B'} `{Countable V'} (G' : Graph V' A' B') u v
    (ea : gmap string B') :
  u ∈ nodes G' → v ∈ nodes G' → g_node (add_edge G' u v ea) = g_node G'.
Proof.
  intros Hu%has_node_spec Hv%has_node_spec. unfold add_edge.
  rewrite Hu, Hv. by destruct (has_edge G' u v).
Qed.

Variables (wadd : W → W → W) (wone : W).

Lemma g_node_merge_edges (bm : gmap V nat) CG es :
  (∀ u i, bm !! u = Some i → i ∈ nodes CG) →
  g_node (foldl (merge_edge wadd wone bm) CG es) = g_node CG.
Proof.
  intros Hbm. induction es as [|e es IH] using rev_ind; [done|].
  rewrite foldl_snoc. etrans; [|exact IH].
  assert (nodes (foldl (merge_edge wadd wone bm) CG es) = nodes CG) as Hn
    by (unfold nodes; by f_equal).
  set (CG' := foldl _ CG es) in *. unfold merge_edge.
  destruct (bm !! e.1.1) as [bmu|] eqn:Eu; [|done].
  destruct (bm !! e.1.2) as [bmv|] eqn:Ev; [|done].
  case_decide; [done|]. destruct (has_edge _ bmu bmv); [done|].
  apply g_node_add_edge; rewrite Hn; by eapply Hbm.
Qed.

Lemma node_attrs_zip_seq (ds : list (gmap string (block_attr V A W X))) es i d :
  ds !! i = Some d →
  node_attrs (MkGraph (zip (seq 0 (length ds)) ds) es
              : Graph nat (block_attr V A W X) W) i = Some d.
Proof.
  intros Hd. unfold node_attrs. simpl.
  assert (Hz : ∀ j p, zip (seq 0 (length ds)) ds !! j = Some p → p.1 = j).
  { intros j [n d'] Hj. apply lookup_zip_with_Some in Hj as (? & ? & [= <- <-] & Hs & _).
    apply lookup_seq in Hs as [-> _]. done. }
  assert (list_find (λ p : nat * gmap string (block_attr V A W X), p.1 = i)
                    (zip (seq 0 (length ds)) ds) = Some (i, (i, d))) as ->; [|done].
  apply list_find_Some. split_and!; [|done|].
  - apply lookup_zip_with_Some. exists i, d. split_and!; [done| |done].
    apply lookup_seq. split; [done|]. by eapply lookup_lt_Some.
  - intros j p Hj Hlt Hp. apply Hz in Hj. lia.
Qed.

#[local] Abbreviation mapping_step :=
  (λ (acc : result (gmap V nat)) (nd : nat * gmap string (block_attr V A W X)),
     let '(n, d) := nd in
     block_mapping ← acc;
     match d !! "graph" with
     | Some (BGraph bd) =>
         Ok (foldl (λ bm u, <[u := n]> bm) block_mapping (nodes bd))
     | Some _ => Raise AttributeError
     | None => Raise KeyError
     end).

Lemma block_mapping_graphs (l : list (nat * gmap string (block_attr V A W X)))
    bm0 bm :
  foldl mapping_step (Ok bm0) l = Ok bm →
  ∀ n d, (n, d) ∈ l → ∃ bd : Graph V A W, d !! "graph" = Some (BGraph bd).
Proof.
  revert bm0. induction l as [|[n d] l IH]; intros bm0 E n' d' Hin.
  - by apply elem_of_nil in Hin.
  - simpl in E. destruct (d !! "graph") as [[bd| | |]|] eqn:Ed.
    2-5: by rewrite mapping_step_raise in E.
    apply elem_of_cons in Hin as [[= -> ->]|Hin]; [eauto|].
    by eapply IH.
Qed.

(** X12. An attribute with too few values for the partitions makes
    [blockmodel] raise [IndexError]. *)
Theorem blockmodel_short_attribute partitions attrs k vals :
  (k, vals) ∈ attrs → length vals < length partitions →
  blockmodel wadd wone G partitions attrs = Raise IndexError.
Proof.
  intros Hin Hlen. unfold blockmodel.
  destruct (add_blocks_outcome attrs partitions 0 empty_graph eq_refl)
    as [[_ ->]|(CG & ds & E & _ & _ & Hds)]; [done|]. exfalso.
  destruct (lookup_lt_is_Some_2 partitions (length vals) Hlen) as [idxs Hi].
  destruct (Hds _ _ Hi) as (d & _ & Hd). simpl in Hd.
  destruct (block_node_outcome attrs (length vals) idxs)
    as [[_ E']|[Hall _]]; [congruence|].
  rewrite Forall_forall in Hall. specialize (Hall _ Hin). simpl in Hall. lia.
Qed.

Lemma blockmodel_nodes_hold partitions attrs CG :
  blockmodel wadd wone G partitions attrs = Ok CG →
  ∀ i idxs, partitions !! i = Some idxs →
    ∃ d, node_attrs CG i = Some d
         ∧ d !! "graph" = Some (BGraph (subgraph G idxs))
         ∧ d !! "nnodes" = Some (BCount (number_of_nodes (subgraph G idxs)))
         ∧ d !! "nedges" = Some (BCount (number_of_edges (subgraph G idxs)))
         ∧ d !! "density" = Some (density (subgraph G idxs))
         ∧ ∀ k vals, NoDup attrs.*1 → (k, vals) ∈ attrs →
             k ∉ ["nnodes"; "nedges"; "density"] →
             ∃ x, vals !! i = Some x ∧ d !! k = Some (BUser x).
Proof.
  unfold blockmodel. intros E i idxs Hi.
  destruct (add_blocks_outcome attrs partitions 0 empty_graph eq_refl)
    as [[_ E0]|(CG0 & ds & E0 & Hg & Hlen & Hds)]; rewrite E0 in E; [done|].
  cbn [mbind result_bind] in E. simpl in Hg.
  destruct (block_mapping CG0) as [bm|e] eqn:Ebm; [|done].
  cbn [mbind result_bind] in E. injection E as <-.
  destruct (Hds _ _ Hi) as (d & Hd & Ed). simpl in Ed.
  assert (Hown : ∀ u j, bm !! u = Some j → j ∈ nodes CG0).
  { intros u j Hu. unfold nodes. rewrite Hg, fst_zip by (rewrite length_seq; lia).
    unfold block_mapping in Ebm. rewrite Hg in Ebm.
    eapply (block_mapping_fold G partitions ds 0 ∅) in Ebm.
    - subst bm. apply lookup_assign_all in Hu as (_ & (idxs' & Hj%lookup_lt_Some & _) & _).
      apply elem_of_seq. lia.
    - apply Forall2_same_length_lookup. split; [done|].
      intros j' idxs' d' Hj Hd'. destruct (Hds _ _ Hj) as (d'' & Hd'' & Ed'').
      simpl in Ed''. rewrite Hd' in Hd''. injection Hd'' as <-.
      by eapply block_node_graph. }
  exists d. split.
  - unfold node_attrs. rewrite g_node_merge_edges by done.
    rewrite Hg, <- Hlen. by apply (node_attrs_zip_seq ds []).
  - destruct (block_node_outcome attrs i idxs)
      as [[_ E']|(_ & d' & E' & Hnn & Hne & Hde & _ & Hu)]; [congruence|].
    rewrite Ed in E'. injection E' as <-. split_and!; [|done..].
    destruct (block_node_graph G attrs i idxs d Ed) as [?|[x Hx]]; [done|].
    exfalso. unfold block_mapping in Ebm. rewrite Hg in Ebm.
    destruct (block_mapping_graphs _ _ _ Ebm i d) as [bd Hbd]; [|congruence].
    apply list_elem_of_lookup. exists i. apply lookup_zip_with_Some.
    exists i, d. split_and!; [done| |done].
    apply lookup_seq. split; [done|]. apply lookup_lt_Some in Hd. lia.
Qed.
(** X13. The node that [blockmodel] makes for a partition holds the subgraph
    of the partition, its numbers of nodes and of edges and its density,
    and the values that the caller gives for the partition. *)
Theorem blockmodel_node_attributes partitions attrs CG :
  blockmodel wadd wone G partitions attrs = Ok CG →
  ∀ i idxs, partitions !! i = Some idxs →
    ∃ d, node_attrs CG i = Some d
         ∧ d !! "graph" = Some (BGraph (subgraph G idxs))
         ∧ d !! "nnodes" = Some (BCount (number_of_nodes (subgraph G idxs)))
         ∧ d !! "nedges" = Some (BCount (number_of_edges (subgraph G idxs)))
         ∧ d !! "density" = Some (density (subgraph G idxs))
         ∧ ∀ k vals, NoDup attrs.*1 → (k, vals) ∈ attrs →
             k ∉ ["nnodes"; "nedges"; "density"] →
             ∃ x, vals !! i = Some x ∧ d !! k = Some (BUser x).
Proof. apply blockmodel_nodes_hold. Qed.
End BlockmodelMore.

(** ** The nodes of the cartesian product *)

Section NodeAttrs.
Context {V : Type} `{Countable V} {A B : Type} {X : Type}.
Implicit Types (G : Graph V A B) (l : list X).

Lemma node_attrs_add_node_ne G n x (attrs : gmap string A) :
  x ≠ n → node_attrs (add_node G n attrs) x = node_attrs G x.
Proof.
  intros Hne. rewrite !node_attrs_head. unfold add_node.
  destruct (has_node G n); simpl.
  - induction (g_node G) as [|[m d] ns IH]; [done|].
    rewrite fmap_cons, !filter_cons. simpl.
    destruct (decide (m = n)) as [->|Hmn]; simpl.
    + rewrite !decide_False by done. apply IH.
    + case_decide; [done|]. apply IH.
  - rewrite filter_app, filter_cons, filter_nil. simpl.
    rewrite decide_False by done. by rewrite app_nil_r.
Qed.

Lemma node_attrs_add_node_new G n (attrs : gmap string A) :
  n ∉ nodes G → node_attrs (add_node G n attrs) n = Some attrs.
Proof.
  intros Hn. rewrite node_attrs_head. unfold add_node.
  assert (has_node G n = false) as -> by by apply bool_decide_eq_false.
  simpl. rewrite filter_app.
  assert (filter (λ p : V * gmap string A, p.1 = n) (g_node G) = []) as ->.
  { destruct (filter _ (g_node G)) as [|p ps] eqn:Ef; [done|]. exfalso.
    assert (p ∈ filter (λ p : V * gmap string A, p.1 = n) (g_node G)) as Hp
      by (rewrite Ef; left).
    apply list_elem_of_filter in Hp as [<- Hp].
    apply Hn, list_elem_of_fmap. eauto. }
  rewrite filter_cons. simpl. by rewrite decide_True.
Qed.

Variables (c : X → bool) (k : X → V) (a : X → gmap string A).

Lemma add_nodes_where_attrs_ne l G x :
  x ∉ k <$> l →
  node_attrs (foldl (λ g it, if c it then add_node g (k it) (a it) else g) G l) x
  = node_attrs G x.
Proof.
  revert G. induction l as [|it l IH]; intros G Hx; [done|]. simpl.
  rewrite fmap_cons in Hx. apply not_elem_of_cons in Hx as [Hne Hx].
  rewrite IH by done. destruct (c it); [|done].
  by apply node_attrs_add_node_ne.
Qed.

Lemma add_nodes_where_attrs l G it :
  NoDup (k <$> l) → (∀ x, x ∈ l → k x ∉ nodes G) →
  it ∈ l → c it = true →
  node_attrs (foldl (λ g it, if c it then add_node g (k it) (a it) else g) G l)
             (k it)
  = Some (a it).
Proof.
  revert G. induction l as [|it' l IH]; intros G HND Hfresh Hin Hc.
  - by apply elem_of_nil in Hin.
  - rewrite fmap_cons in HND. apply NoDup_cons in HND as [Hk HND]. simpl.
    apply elem_of_cons in Hin as [->|Hin].
    + rewrite Hc, add_nodes_where_attrs_ne by done.
      apply node_attrs_add_node_new, Hfresh. left.
    + apply IH; [done| |done..].
      intros x Hx. destruct (c it'); [|apply Hfresh; by right].
      rewrite elem_of_nodes_add_node. intros [Hn|E].
      * by apply (Hfresh x); [right|].
      * apply Hk. rewrite <- E. apply list_elem_of_fmap. eauto.
Qed.
End NodeAttrs.

Section CartesianProduct.
Context {V1 V2 : Type} `{Countable V1, Countable V2}.
Context {A B : Type} `{EqDecision A}.
Variables (graph1 : Graph V1 A B) (graph2 : Graph V2 A B).
Variable attributes : list string.

Lemma product_keys_NoDup :
  NoDup (nodes graph1) → NoDup (nodes graph2) →
  NoDup ((λ it : V1 * gmap string A * (V2 * gmap string A), (it.1.1, it.2.1))
           <$> product (g_node graph1) (g_node graph2)).
Proof.
  intros H1 H2. unfold nodes in *.
  assert (Hinj : ∀ {K D : Type} (l : list (K * D)) p q,
            NoDup l.*1 → p ∈ l → q ∈ l → p.1 = q.1 → p = q).
  { intros K D l p q HND [i Hp]%list_elem_of_lookup [j Hq]%list_elem_of_lookup E.
    assert (i = j) as ->; [|congruence].
    eapply NoDup_lookup; [exact HND|..]; rewrite list_lookup_fmap;
      [by rewrite Hp|by rewrite Hq, E]. }
  apply NoDup_fmap_2_strong.
  - intros [p1 p2] [q1 q2] [Hp1 Hp2]%elem_of_product [Hq1 Hq2]%elem_of_product.
    simpl in *. intros [= E1 E2]. f_equal; by eapply Hinj.
  - unfold product. apply NoDup_bind.
    + intros x1 x2 y _ _ (? & -> & _)%list_elem_of_fmap (? & [= ->] & _)%list_elem_of_fmap.
      done.
    + intros x _. apply NoDup_fmap_2; [by intros ?? [=]|].
      by eapply NoDup_fmap_1.
    + by eapply NoDup_fmap_1.
Qed.

(** X1. The cartesian product has no edge; its nodes are the pairs of nodes
    that agree on the attributes, and a node holds, for every attribute
    that one of the two nodes has, the pair of the two values, [None]
    standing for a value that is missing. *)
Theorem categorical_cartesian_product_spec :
  g_edge (categorical_cartesian_product graph1 graph2 attributes) = []
  ∧ (∀ a b,
       (a, b) ∈ nodes (categorical_cartesian_product graph1 graph2 attributes)
       ↔ ∃ node1 node2,
           (a, node1) ∈ g_node graph1 ∧ (b, node2) ∈ g_node graph2
           ∧ ∀ attr, attr ∈ attributes →
               ∃ x, node1 !! attr = Some x ∧ node2 !! attr = Some x)
  ∧ (NoDup (nodes graph1) → NoDup (nodes graph2) →
     ∀ a b node1 node2,
       (a, node1) ∈ g_node graph1 → (b, node2) ∈ g_node graph2 →
       (a, b) ∈ nodes (categorical_cartesian_product graph1 graph2 attributes) →
       ∃ d, node_attrs (categorical_cartesian_product graph1 graph2 attributes)
                       (a, b) = Some d
            ∧ ∀ attr, d !! attr
                      = match node1 !! attr, node2 !! attr with
                        | None, None => None
                        | x, y => Some (x, y)
                        end).
Proof.
  split_and!.
  - apply cartesian_product_no_edges.
  - intros a b. rewrite cartesian_product_nodes.
    by setoid_rewrite attrs_agree_spec.
  - intros HND1 HND2 a b node1 node2 H1 H2 Hab.
    assert (attrs_agree attributes node1 node2 = true) as Hag.
    { apply cartesian_product_nodes in Hab as (n1 & n2 & H1' & H2' & Hag).
      assert (∀ {K D : Type} (l : list (K * D)) k d d',
                NoDup l.*1 → (k, d) ∈ l → (k, d') ∈ l → d = d') as Hfun.
      { intros K D l k d d' HND [i Hp]%list_elem_of_lookup [j Hq]%list_elem_of_lookup.
        assert (i = j) as ->; [|congruence].
        eapply NoDup_lookup; [exact HND|..]; rewrite list_lookup_fmap;
          [by rewrite Hp|by rewrite Hq]. }
      by rewrite (Hfun _ _ _ _ _ _ HND1 H1 H1'), (Hfun _ _ _ _ _ _ HND2 H2 H2'). }
    exists (paired node1 node2). split; [|intros attr; apply lookup_paired].
    unfold categorical_cartesian_product.
    erewrite (foldl_pointwise _
      (λ g it, if attrs_agree attributes it.1.2 it.2.2
               then add_node g (it.1.1, it.2.1) (paired it.1.2 it.2.2) else g));
      [|by intros g [[i1 n1] [i2 n2]]].
    apply (add_nodes_where_attrs (λ it, attrs_agree attributes it.1.2 it.2.2)
             (λ it, (it.1.1, it.2.1)) (λ it, paired it.1.2 it.2.2)
             _ _ ((a, node1), (b, node2))).
    + by apply product_keys_NoDup.
    + intros x _ Hx. by apply elem_of_nil in Hx.
    + by apply elem_of_product.
    + done.
Qed.
End CartesianProduct.

(** ** The first phase of [maximum_common_subgraph] *)

Section HeavyProduct.
Context {V1 V2 : Type} `{Countable V1, Countable V2}.
Context {A B : Type} `{EqDecision A}.
Variables (graph1 : Graph V1 A B) (graph2 : Graph V2 A B).
Variable attributes : list string.

(** X3. The product graph of the first phase holds every pair of nodes that
    agree on the attributes and of which neither has degree one, each
    pair once; so do the cliques that seed the second phase. *)
Theorem heavy_product_spec :
  (∀ a b,
     (a, b) ∈ nodes (heavy_product graph1 graph2 attributes)
     ↔ ∃ node1 node2,
         (a, node1) ∈ g_node graph1 ∧ (b, node2) ∈ g_node graph2
         ∧ (∀ attr, attr ∈ attributes →
              ∃ x, node1 !! attr = Some x ∧ node2 !! attr = Some x)
         ∧ degree graph1 a ≠ 1 ∧ degree graph2 b ≠ 1)
  ∧ NoDup (nodes (heavy_product graph1 graph2 attributes))
  ∧ ∀ seed a b,
      seed ∈ find_cliques (heavy_product graph1 graph2 attributes) →
      (a, b) ∈ seed → degree graph1 a ≠ 1 ∧ degree graph2 b ≠ 1.
Proof.
  split_and!.
  - intros a b. rewrite heavy_product_nodes.
    by setoid_rewrite attrs_agree_spec.
  - apply heavy_product_NoDup.
  - intros seed a b [(_ & Hn & _) _]%find_cliques_sound Hab.
    apply Hn, heavy_product_nodes in Hab. naive_solver.
Qed.
End HeavyProduct.

(** ** The matcher of elements *)

Section ElementMatcher.
Context {V1 V2 : Type} `{Countable V1, Countable V2}.
Context {A B1 B2 : Type} `{EqDecision A}.
Variables (G1 : Graph V1 A B1) (G2 : Graph V2 A B2).

(** X9. The search of [ElementGraphMatcher], started from a state whose
    mapping joins nodes of the same element, ends without an exception
    when every node has an element.  Every mapping that it yields
    keeps the pairs of that state, joins nodes of the same element, has
    an inverse, and has as many pairs as [G2] has nodes. *)
Theorem element_matcher_sound (st : GMState V1 V2) :
  populated G1 "element" = true → populated G2 "element" = true →
  NoDup (nodes G2) → consistent G1 G2 st →
  ends_well (subgraph_isomorphisms_iter G1 G2 st)
  ∧ ∀ m, m ∈ yielded (subgraph_isomorphisms_iter G1 G2 st) →
      core_1 st ⊆ m
      ∧ injective m
      ∧ size m = number_of_nodes G2
      ∧ ∀ a b, m !! a = Some b →
          a ∈ nodes G1 ∧ b ∈ nodes G2
          ∧ ∃ x, attribute G1 a "element" = Ok x
                 ∧ attribute G2 b "element" = Ok x.
Proof.
  intros P1 P2 HND Hc. split.
  - by apply subgraph_isomorphisms_ends_well.
  - intros m Hm. pose proof (match_yield_size _ _ _ _ _ Hm) as Hsize.
    apply match_sound in Hm as [Hsub [r Hs]]; [|done].
    split_and!; [done|by eapply sound_core_injective|done|].
    intros a b Hab. destruct (sc_nodes _ _ _ _ Hs a b Hab).
    split_and!; [done..|]. by apply (sc_element _ _ _ _ Hs).
Qed.
End ElementMatcher.

(** ** When [maximum_common_subgraph] finds nothing *)

Section FindCliquesNonempty.
Context {V : Type} `{Countable V} {A B : Type}.

Lemma find_cliques_nonempty (G : Graph V A B) v :
  NoDup (nodes G) → v ∈ nodes G →
  ∃ C, C ∈ find_cliques G ∧ C ≠ [].
Proof.
  intros HND Hv.
  assert (is_clique G [v]) as Hc.
  { split_and!; [apply NoDup_singleton| |].
    - by intros x ->%list_elem_of_singleton.
    - intros x y ->%list_elem_of_singleton ->%list_elem_of_singleton. done. }
  destruct (clique_extends G [v] Hc) as (M & HM & Hsub & Hlen).
  assert (M ≠ []) as Hne by (intros ->; simpl in Hlen; lia).
  destruct (find_cliques_complete G M HND HM Hne) as (M' & HM' & Hperm).
  exists M'. split; [done|]. intros ->.
  by apply Permutation_nil_l in Hperm.
Qed.

Lemma find_cliques_no_nodes (G : Graph V A B) :
  nodes G = [] → find_cliques G = [].
Proof.
  intros En. unfold find_cliques, number_of_nodes.
  unfold nodes in En. apply fmap_nil_inv in En. by rewrite En.
Qed.
End FindCliquesNonempty.

Section NothingInCommon.
Context {V1 V2 : Type} `{Countable V1, Countable V2}.
Context {A B : Type} `{EqDecision A}.
Variables (graph1 : Graph V1 A B) (graph2 : Graph V2 A B).
Variable attributes : list string.

(** X7. [maximum_common_subgraph] returns the empty list exactly when no
    node of [graph1] agrees with a node of [graph2] on the attributes. *)
Theorem maximum_common_subgraph_empty :
  maximum_common_subgraph graph1 graph2 attributes = []
  ↔ ∀ a node1 b node2,
      (a, node1) ∈ g_node graph1 → (b, node2) ∈ g_node graph2 →
      attrs_agree attributes node1 node2 = false.
Proof.
  assert (Hres : maximum_common_subgraph graph1 graph2 attributes = []
                 ↔ all_cliques graph1 graph2 attributes = []).
  { split.
    - intros E. destruct (all_cliques graph1 graph2 attributes) as [|C0 l] eqn:Ec;
        [done|]. exfalso.
      assert (maxes length (C0 :: l) ≠ []) as Hne by by rewrite maxes_nil.
      destruct (maxes length (C0 :: l)) as [|C l'] eqn:Em; [done|].
      assert (dict C ∈ maximum_common_subgraph graph1 graph2 attributes) as Hin.
      { apply elem_of_maximum_common_subgraph. exists C.
        assert (C ∈ maxes length (C0 :: l)) as [? ?]%elem_of_maxes
          by (rewrite Em; left).
        rewrite Ec. done. }
      rewrite E in Hin. by apply elem_of_nil in Hin.
    - intros E. unfold maximum_common_subgraph. by rewrite E. }
  rewrite Hres. split.
  - intros E a node1 b node2 H1 H2.
    destruct (attrs_agree attributes node1 node2) eqn:Hag; [|done]. exfalso.
    assert (∃ seed, (seed = [] ∨ seed ∈ find_cliques
                                      (heavy_product graph1 graph2 attributes))
                    ∧ ∃ p, p ∈ nodes (leaf_product graph1 graph2 attributes seed))
      as (seed & Hseed & p & Hp).
    { destruct (decide (degree graph1 a ≠ 1 ∧ degree graph2 b ≠ 1)) as [[Ha Hb]|Hd].
      - assert ((a, b) ∈ nodes (heavy_product graph1 graph2 attributes)) as Hh.
        { apply heavy_product_nodes. exists node1, node2. done. }
        destruct (find_cliques_nonempty _ _ (heavy_product_NoDup _ _ _) Hh)
          as (seed & Hs & Hne).
        exists seed. split; [by right|].
        destruct seed as [|p seed']; [done|]. exists p.
        destruct p as [pa pb]. apply leaf_product_nodes. left. left.
      - exists []. split; [by left|]. exists (a, b).
        apply leaf_product_nodes. right. exists node1, node2.
        split_and!; [done|done| |done|].
        + apply not_and_l in Hd. destruct Hd as [Hd|Hd]; [left|right]; lia.
        + apply neighbours_agree_spec.
          destruct (neighbors graph1 a) as [|n ns] eqn:En; [by left|].
          right. left. exists n. split; [left|done]. }
    destruct (find_cliques_nonempty _ _ (leaf_product_NoDup _ _ _ seed) Hp)
      as (C & HC & _).
    assert (C ∈ all_cliques graph1 graph2 attributes) as Hin.
    { apply elem_of_all_cliques. eauto. }
    rewrite E in Hin. by apply elem_of_nil in Hin.
  - intros Hno.
    assert (nodes (heavy_product graph1 graph2 attributes) = []) as Hh.
    { destruct (nodes _) as [|[a b] ps] eqn:En; [done|]. exfalso.
      assert ((a, b) ∈ nodes (heavy_product graph1 graph2 attributes)) as Hin
        by (rewrite En; left).
      apply heavy_product_nodes in Hin as (n1 & n2 & H1 & H2 & Hag & _).
      by rewrite (Hno _ _ _ _ H1 H2) in Hag. }
    assert (nodes (leaf_product graph1 graph2 attributes []) = []) as Hl.
    { destruct (nodes (leaf_product graph1 graph2 attributes []))
        as [|[a b] ps] eqn:En; [done|]. exfalso.
      assert ((a, b) ∈ nodes (leaf_product graph1 graph2 attributes [])) as Hin
        by (rewrite En; left).
      apply leaf_product_nodes in Hin as [Hin|(n1 & n2 & H1 & H2 & _ & Hag & _)].
      - by apply elem_of_nil in Hin.
      - by rewrite (Hno _ _ _ _ H1 H2) in Hag. }
    unfold all_cliques. rewrite (find_cliques_no_nodes _ Hh). simpl.
    by rewrite (find_cliques_no_nodes _ Hl).
Qed.
End NothingInCommon.

(** * add_element_attr *)

Section AddElementFacts.
Context {V : Type} `{Countable V} {A B : Type}.
Variable first_alpha : A → result A.
Implicit Types (ns : list (V * gmap string A)) (node : gmap string A).

#[local] Abbreviation guessable := (guessable first_alpha).
#[local] Abbreviation with_element := (with_element first_alpha).
#[local] Abbreviation stops_at := (stops_at first_alpha).

Lemma guessable_dec node : guessable node ∨ ∃ e, stops_at node e.
Proof.
  unfold guessable, stops_at.
  destruct (node !! "element") as [x|]; [left; left; eauto|].
  destruct (node !! "atomname") as [name|]; [|right; eauto].
  destruct (first_alpha name) as [el|e0] eqn:E.
  - left. right. eauto.
  - right. exists (guess_error e0). split; [done|]. right. eauto.
Qed.

Lemma guessable_stops node e : guessable node → stops_at node e → False.
Proof.
  intros [[x Hx]|(name & el & Hn & Hf)] [Hnone [[Hno _]|(name' & e0 & Hn' & Hf' & _)]];
    congruence.
Qed.

(** The loop passes the nodes whose element can be found, and stops at
    the first of the others, which it leaves as they are with those
    that follow. *)
Lemma add_element_nodes_spec ns :
  (Forall guessable ns.*2
   ∧ ∃ ns', add_element_nodes first_alpha ns = (ns', Ok ())
            ∧ Forall2 (λ p p', p'.1 = p.1 ∧ with_element p.2 p'.2) ns ns')
  ∨ (∃ done_ p rest done' e,
       ns = done_ ++ p :: rest
       ∧ Forall guessable done_.*2
       ∧ stops_at p.2 e
       ∧ add_element_nodes first_alpha ns = (done' ++ p :: rest, Raise e)
       ∧ Forall2 (λ p p', p'.1 = p.1 ∧ with_element p.2 p'.2) done_ done').
Proof.
  induction ns as [|[idx node] ns IH].
  - left. split; [done|]. exists []. by split.
  - assert (Hstep : ∀ node',
      with_element node node' →
      (let '(rest, r) := add_element_nodes first_alpha ns in ((idx, node') :: rest, r))
      = add_element_nodes first_alpha ((idx, node) :: ns) →
      (Forall guessable ((idx, node) :: ns).*2
       ∧ ∃ ns', add_element_nodes first_alpha ((idx, node) :: ns) = (ns', Ok ())
           ∧ Forall2 (λ p p', p'.1 = p.1 ∧ with_element p.2 p'.2)
                     ((idx, node) :: ns) ns')
      ∨ (∃ done_ p rest done' e,
           (idx, node) :: ns = done_ ++ p :: rest
           ∧ Forall guessable done_.*2
           ∧ stops_at p.2 e
           ∧ add_element_nodes first_alpha ((idx, node) :: ns) = (done' ++ p :: rest, Raise e)
           ∧ Forall2 (λ p p', p'.1 = p.1 ∧ with_element p.2 p'.2) done_ done')).
    { intros node' Hw <-.
      assert (guessable node) as Hg.
      { destruct Hw as [[? _]|(_ & name & el & ? & ? & _)]; [by left|right; eauto]. }
      destruct IH as [(Hall & ns' & -> & HF)|(d & p & rest & d' & e & -> & Hd & Hp & -> & HF)].
      - left. split; [by constructor|]. eexists. split; [done|]. by constructor.
      - right. exists ((idx, node) :: d), p, rest, ((idx, node') :: d'), e.
        split_and!; [done|by constructor|done|done|by constructor]. }
    cbn [add_element_nodes] in *.
    destruct (node !! "element") as [x|] eqn:Ex.
    + apply (Hstep node); [|done]. left. split; [by rewrite Ex|done].
    + destruct (node !! "atomname") as [name|] eqn:En.
      * destruct (first_alpha name) as [el|e0] eqn:Ef.
        -- apply (Hstep (<["element" := el]> node)); [|done].
           right. split; [done|]. eauto 10.
        -- right. exists [], (idx, node), ns, [], (guess_error e0).
           split_and!; [done|done| |done|done].
           split; [done|]. right. eauto.
      * right. exists [], (idx, node), ns, [], ValueError.
        split_and!; [done|done| |done|done]. split; [done|]. by left.
Qed.

Lemma with_element_has node node' :
  with_element node node' → is_Some (node' !! "element").
Proof.
  intros [[? ->]|(_ & name & el & _ & _ & ->)]; [done|].
  rewrite lookup_insert_eq. eauto.
Qed.

Lemma add_element_nodes_id ns :
  Forall (λ p, is_Some (p.2 !! "element")) ns →
  add_element_nodes first_alpha ns = (ns, Ok ()).
Proof.
  induction 1 as [|[idx node] ns [x Hx] _ IH]; [done|].
  cbn [add_element_nodes]. simpl in Hx. by rewrite Hx, IH.
Qed.

Lemma populated_Forall (G : Graph V A B) name :
  Forall (λ p, is_Some (p.2 !! name)) (g_node G) → populated G name = true.
Proof.
  intros Hall. unfold populated. apply forallb_forall.
  intros n ([n' d] & -> & Hin)%list_elem_of_In%list_elem_of_fmap.
  unfold attribute. rewrite node_attrs_head.
  destruct (head _) as [p|] eqn:Ep; simpl.
  - apply head_Some_elem_of, list_elem_of_filter in Ep as [_ Hp].
    rewrite Forall_forall in Hall. by destruct (Hall p Hp) as [x ->].
  - apply head_None in Ep.
    assert ((n', d) ∈ filter (λ p : V * gmap string A, p.1 = (n', d).1) (g_node G))
      as Hf by by apply list_elem_of_filter.
    rewrite Ep in Hf. by apply elem_of_nil in Hf.
Qed.

(** X14. [add_element_attr] returns when the element of every node can be
    found, and only then.  The molecule then has the same nodes and
    edges, every node has an element, a node that had one keeps its
    attributes, and a node that had none gets what [first_alpha] makes
    of its atom name, its other attributes staying as they are. *)
Theorem add_element_attr_ok (molecule : Graph V A B) :
  ((∃ molecule', add_element_attr first_alpha molecule = (molecule', Ok ()))
   ↔ Forall guessable (g_node molecule).*2)
  ∧ ∀ molecule',
      add_element_attr first_alpha molecule = (molecule', Ok ()) →
      g_edge molecule' = g_edge molecule
      ∧ nodes molecule' = nodes molecule
      ∧ Forall2 (λ p p', p'.1 = p.1 ∧ with_element p.2 p'.2)
                (g_node molecule) (g_node molecule')
      ∧ populated molecule' "element" = true.
Proof.
  unfold add_element_attr.
  destruct (add_element_nodes_spec (g_node molecule))
    as [(Hall & ns' & E & HF)|(d & p & rest & d' & e & Hns & Hd & Hp & E & HF)];
    rewrite E.
  - split; [split; [done|eauto]|]. intros ? [= <-]. simpl.
    split_and!; [done| |done|].
    + unfold nodes. simpl. symmetry.
      apply list_eq_Forall2, Forall2_fmap.
      eapply Forall2_impl; [exact HF|]. naive_solver.
    + apply populated_Forall. simpl.
      eapply Forall2_Forall_r; [exact HF|]. apply Forall_true.
      intros x y [_ ?]. by eapply with_element_has.
  - split; [|done]. split; [by intros [? [=]]|].
    intros Hall. exfalso. rewrite Hns, fmap_app, fmap_cons in Hall.
    apply Forall_app in Hall as [_ [Hg _]%Forall_cons].
    by eapply guessable_stops.
Qed.

(** X15. When [add_element_attr] raises, it has stopped at the first node
    whose element cannot be found: the node has no element, and has no
    atom name or one for which [first_alpha] raises.  That node and those
    after it are as they were; those before it, whose element is set,
    stay changed.  The exception is [ValueError] unless [first_alpha]
    raises another than [KeyError] and [ValueError]. *)
Theorem add_element_attr_raise (molecule molecule' : Graph V A B) (e : exn) :
  add_element_attr first_alpha molecule = (molecule', Raise e) →
  ∃ done_ p rest done',
    g_node molecule = done_ ++ p :: rest
    ∧ g_node molecule' = done' ++ p :: rest
    ∧ g_edge molecule' = g_edge molecule
    ∧ Forall guessable done_.*2
    ∧ stops_at p.2 e
    ∧ Forall2 (λ q q', q'.1 = q.1 ∧ with_element q.2 q'.2) done_ done'
    ∧ ((∀ atomname e0, first_alpha atomname = Raise e0 →
          e0 = ValueError ∨ e0 = KeyError) →
       e = ValueError).
Proof.
  unfold add_element_attr.
  destruct (add_element_nodes_spec (g_node molecule))
    as [(Hall & ns' & E & HF)|(d & p & rest & d' & e' & Hns & Hd & Hp & E & HF)];
    rewrite E; [done|].
  intros [= <- <-]. exists d, p, rest, d'. simpl.
  split_and!; [done..|].
  intros Hfa. destruct Hp as [_ [[_ ->]|(name & e0 & _ & Hf & ->)]]; [done|].
  by destruct (Hfa _ _ Hf) as [-> | ->].
Qed.

(** X16. A second call leaves the molecule of a call that returned as it
    is. *)
Theorem add_element_attr_idempotent (molecule molecule' : Graph V A B) :
  add_element_attr first_alpha molecule = (molecule', Ok ()) →
  add_element_attr first_alpha molecule' = (molecule', Ok ()).
Proof.
  unfold add_element_attr.
  destruct (add_element_nodes_spec (g_node molecule))
    as [(Hall & ns' & E & HF)|(d & p & rest & d' & e' & Hns & Hd & Hp & E & HF)];
    rewrite E; [|done].
  intros [= <-]. simpl. rewrite add_element_nodes_id; [done|].
  eapply Forall2_Forall_r; [exact HF|]. apply Forall_true.
  intros x y [_ ?]. by eapply with_element_has.
Qed.
End AddElementFacts.

(** * make_residue_graph *)

Section SortAscending.
Context {K X : Type} `{EqDecision K} (klt : K → K → bool).
Hypothesis klt_order : strict_total klt.
Implicit Types (l : list (K * X)).

Lemma insert_asc_perm k (x : X) l : insert_asc klt k x l ≡ₚ (k, x) :: l.
Proof.
  induction l as [|[k' y] l IH]; simpl; [done|].
  destruct (klt k' k); [|done]. rewrite IH. apply Permutation_swap.
Qed.

Lemma sorted_asc_perm l : sorted_asc klt l ≡ₚ l.
Proof.
  induction l as [|[k x] l IH]; simpl; [done|].
  by rewrite insert_asc_perm, IH.
Qed.

Lemma klt_asym k1 k2 : klt k1 k2 = true → klt k2 k1 = false.
Proof using Type*.
  intros H12. destruct (klt k2 k1) eqn:H21; [|done].
  pose proof (st_trans _ klt_order _ _ _ H12 H21) as Hk.
  by rewrite (st_irrefl _ klt_order) in Hk.
Qed.

Lemma klt_not_lt k1 k2 k3 :
  klt k2 k1 = false → klt k3 k2 = false → klt k3 k1 = false.
Proof using Type*.
  intros H21 H32. destruct (klt k3 k1) eqn:H31; [|done]. exfalso.
  destruct (decide (k2 = k1)) as [->|Hne]; [congruence|].
  destruct (st_total _ klt_order _ _ Hne) as [E|E]; [congruence|].
  destruct (decide (k3 = k2)) as [->|Hne']; [by rewrite (klt_asym _ _ E) in H31|].
  destruct (st_total _ klt_order _ _ Hne') as [E'|E']; [congruence|].
  pose proof (st_trans _ klt_order _ _ _ E E') as E''.
  by rewrite (klt_asym _ _ E'') in H31.
Qed.

Lemma insert_asc_ascending k (x : X) l :
  ascending klt l → ascending klt (insert_asc klt k x l).
Proof using Type*.
  induction 1 as [|[k' y] l Hl IH Hall]; simpl.
  - by repeat constructor.
  - destruct (klt k' k) eqn:E.
    + constructor; [done|]. rewrite insert_asc_perm.
      constructor; [simpl; by apply klt_asym|done].
    + constructor; [by constructor|]. constructor; [done|].
      eapply Forall_impl; [exact Hall|]. simpl. intros q Hq.
      by eapply klt_not_lt.
Qed.

Lemma sorted_asc_ascending l : ascending klt (sorted_asc klt l).
Proof using Type*.
  induction l as [|[k x] l IH]; simpl; [constructor|].
  by apply insert_asc_ascending.
Qed.
End SortAscending.

Section GroupBy.
Context {K X : Type} `{EqDecision K} (klt : K → K → bool).
Hypothesis klt_order : strict_total klt.
Implicit Types (l : list (K * X)).

(** The groups, put end to end, are the list. *)
Lemma ungroup_groupby l : ungroup (groupby l) = l.
Proof.
  induction l as [|[k x] l IH]; [done|]. simpl.
  destruct (groupby l) as [|[k' grp] grps]; simpl in *.
  - by rewrite <- IH.
  - case_decide as Hk; [subst k'|]; unfold ungroup in *; simpl in *;
      by rewrite <- IH.
Qed.

Lemma groupby_nonempty l kg : kg ∈ groupby l → kg.2 ≠ [].
Proof.
  revert kg. induction l as [|[k x] l IH]; intros kg; simpl.
  - by intros ?%elem_of_nil.
  - destruct (groupby l) as [|[k' grp] grps].
    + by intros ->%list_elem_of_singleton.
    + case_decide; rewrite !elem_of_cons; intros [->|Hin]; try done.
      * apply IH. by right.
      * destruct Hin as [->|Hin]; apply IH; [left|by right].
Qed.

Lemma groupby_head l k x :
  ∃ grp grps, groupby ((k, x) :: l) = (k, x :: grp) :: grps.
Proof.
  simpl. destruct (groupby l) as [|[k' grp] grps]; [eauto|].
  case_decide; eauto.
Qed.

Lemma groupby_keys l k : k ∈ (groupby l).*1 → k ∈ l.*1.
Proof.
  rewrite <- (ungroup_groupby l) at 2. unfold ungroup.
  rewrite !list_elem_of_fmap. intros ([k' grp] & -> & Hin).
  destruct grp as [|x grp'].
  { by apply groupby_nonempty in Hin. }
  exists (k', x). split; [done|]. apply list_elem_of_bind.
  exists (k', x :: grp'). split; [|done]. simpl. left.
Qed.

(** The keys of the groups of a sorted list increase. *)
Lemma groupby_ascending l :
  ascending klt l →
  StronglySorted (λ k1 k2, klt k1 k2 = true) (groupby l).*1.
Proof using Type*.
  induction 1 as [|[k x] l Hl IH Hall]; [constructor|].
  assert (Hkeys : ∀ k', k' ∈ (groupby l).*1 → k' ≠ k → klt k k' = true).
  { intros k' Hk'%groupby_keys Hne.
    apply list_elem_of_fmap in Hk' as (q & -> & Hq).
    rewrite Forall_forall in Hall. specialize (Hall q Hq). simpl in Hall.
    destruct (st_total _ klt_order _ _ Hne); congruence. }
  simpl. destruct (groupby l) as [|[k' grp] grps] eqn:Eg.
  - simpl. by repeat constructor.
  - simpl in IH. apply StronglySorted_inv in IH as [IH1 IH2].
    case_decide as Hk; simpl.
    + subst k'. by constructor.
    + assert (klt k k' = true) as Hkk'.
      { apply Hkeys; [left|done]. }
      constructor; [by constructor|]. constructor; [done|].
      eapply Forall_impl; [exact IH2|]. simpl. intros k'' Hk''.
      by eapply st_trans.
Qed.
End GroupBy.

Section KeyOrder.
Context {A : Type} `{EqDecision A} (lt : A → A → bool).
Hypothesis lt_order : strict_total lt.

Lemma key_lt_order : strict_total (key_lt lt).
Proof using Type*.
  destruct lt_order as [Hirr Htr Htot]. split.
  - intros [[c i] n]. unfold key_lt. simpl. by repeat case_decide.
  - intros [[c1 i1] n1] [[c2 i2] n2] [[c3 i3] n3]. unfold key_lt. simpl.
    repeat case_decide; simplify_eq; try done; eauto;
      intros Ha Hb; try (by rewrite ?Hirr in * );
      pose proof (Htr _ _ _ Ha Hb) as Hc; by rewrite Hirr in Hc.
  - intros [[c1 i1] n1] [[c2 i2] n2] Hne. unfold key_lt. simpl.
    repeat case_decide; simplify_eq; try done; by apply Htot.
Qed.
End KeyOrder.

Section MapM.
Context {S Y : Type} (f : S → result Y).

Lemma mapM_Forall2 (l : list S) :
  (∀ s, s ∈ l → ∃ y, f s = Ok y) →
  ∃ ys, mapM f l = Ok ys ∧ Forall2 (λ s y, f s = Ok y) l ys.
Proof.
  induction l as [|s l IH]; intros Hl; [by exists []|].
  destruct (Hl s) as [y Hy]; [left|].
  destruct IH as (ys & E & HF); [intros; apply Hl; by right|].
  exists (y :: ys). simpl. rewrite Hy. simpl. rewrite E. by split; [|constructor].
Qed.

Lemma mapM_raise (l : list S) e :
  (∀ s e', f s = Raise e' → e' = e) →
  (∃ s e', s ∈ l ∧ f s = Raise e') →
  mapM f l = Raise e.
Proof.
  intros Hone (s & e' & Hs & E). induction l as [|s' l IH].
  - by apply elem_of_nil in Hs.
  - simpl. destruct (f s') as [y|e''] eqn:E'.
    + apply elem_of_cons in Hs as [->|Hs]; [congruence|].
      simpl. by rewrite IH.
    + simpl. f_equal. by eapply Hone.
Qed.
End MapM.

Section Ungroup.
Context {K X : Type}.

Lemma elem_of_ungroup (groups : list (K * list X)) k x :
  (k, x) ∈ ungroup groups
  ↔ ∃ i grp, groups !! i = Some (k, grp) ∧ x ∈ grp.
Proof.
  unfold ungroup. rewrite list_elem_of_bind. split.
  - intros ([k' grp] & Hin & [i Hi]%list_elem_of_lookup).
    apply list_elem_of_fmap in Hin as (x' & [= -> ->] & Hx). eauto.
  - intros (i & grp & Hi & Hx). exists (k, grp). split.
    + apply list_elem_of_fmap. eauto.
    + by eapply list_elem_of_lookup_2.
Qed.
End Ungroup.

Section ResidueGraph.
Context {V : Type} `{Countable V} {A W : Type} `{EqDecision A}.
Variable lt : A → A → bool.
Variables (wadd : W → W → W) (wone : W).
Variable mol : Graph V A W.
Hypothesis lt_order : strict_total lt.

Lemma keyfunc_ok idx :
  populated mol "chain" = true → populated mol "resid" = true →
  populated mol "resname" = true →
  idx ∈ nodes mol → ∃ key, keyfunc mol idx = Ok key.
Proof.
  intros Hc Hi Hn Hidx. unfold keyfunc.
  destruct (populated_attribute mol _ idx Hc Hidx) as [c ->].
  destruct (populated_attribute mol _ idx Hi Hidx) as [i ->].
  destruct (populated_attribute mol _ idx Hn Hidx) as [n ->].
  simpl. eauto.
Qed.

Lemma keyfunc_raise idx e : keyfunc mol idx = Raise e → e = KeyError.
Proof.
  unfold keyfunc, attribute. destruct (node_attrs mol idx) as [d|]; simpl.
  - destruct (d !! "chain"); simpl; [|congruence].
    destruct (d !! "resid"); simpl; [|congruence].
    destruct (d !! "resname"); simpl; congruence.
  - congruence.
Qed.

(** X17. A node that lacks [chain], [resid] or [resname] makes
    [make_residue_graph] raise [KeyError]. *)
Theorem make_residue_graph_missing idx name :
  idx ∈ nodes mol → name ∈ ["chain"; "resid"; "resname"] →
  attribute mol idx name = Raise KeyError →
  make_residue_graph lt wadd wone mol = Raise KeyError.
Proof.
  intros Hidx Hname Hattr. unfold make_residue_graph.
  rewrite (mapM_raise _ _ KeyError); [done| |].
  - intros s e. destruct (keyfunc mol s) as [k|e'] eqn:E; simpl; [done|].
    intros [= <-]. by eapply keyfunc_raise.
  - exists idx, KeyError. split; [done|].
    destruct (keyfunc mol idx) as [k|e'] eqn:E; simpl.
    + exfalso. unfold keyfunc in E.
      destruct (attribute mol idx "chain") eqn:E1; simpl in E; [|done].
      destruct (attribute mol idx "resid") eqn:E2; simpl in E; [|done].
      destruct (attribute mol idx "resname") eqn:E3; simpl in E; [|done].
      rewrite !elem_of_cons, elem_of_nil in Hname.
      destruct Hname as [->|[->|[->|[]]]]; congruence.
    + f_equal. by eapply keyfunc_raise.
Qed.

(** X18. When every node has the three attributes, [make_residue_graph]
    returns a graph with one node for every key
    [(chain, resid, resname)] that occurs, the keys in increasing
    order.  Every node of [mol] is in the group of its key and in no
    other; the node of a group holds the subgraph of the group and the
    components of the key, the residue name also as [atomname]. *)
Theorem make_residue_graph_spec :
  populated mol "chain" = true → populated mol "resid" = true →
  populated mol "resname" = true →
  ∃ res_graph groups,
    make_residue_graph lt wadd wone mol = Ok res_graph
    ∧ nodes res_graph = seq 0 (length groups)
    ∧ StronglySorted (λ k1 k2, key_lt lt k1 k2 = true) groups.*1
    ∧ (∀ idx, idx ∈ nodes mol →
         ∃ i key grp, groups !! i = Some (key, grp) ∧ idx ∈ grp)
    ∧ (∀ i j key key' grp grp' idx,
         groups !! i = Some (key, grp) → groups !! j = Some (key', grp') →
         idx ∈ grp → idx ∈ grp' → i = j)
    ∧ (∀ i key grp, groups !! i = Some (key, grp) →
         grp ≠ []
         ∧ (∀ idx, idx ∈ grp → idx ∈ nodes mol ∧ keyfunc mol idx = Ok key)
         ∧ ∃ d, node_attrs res_graph i = Some d
                ∧ d !! "graph" = Some (BGraph (subgraph mol grp))
                ∧ d !! "chain" = Some (BUser key.1.1)
                ∧ d !! "resid" = Some (BUser key.1.2)
                ∧ d !! "resname" = Some (BUser key.2)
                ∧ d !! "atomname" = Some (BUser key.2)).
Proof using Type*.
  intros Hc Hi Hn. unfold make_residue_graph.
  destruct (mapM_Forall2
              (λ node_idx, key ← keyfunc mol node_idx; Ok (key, node_idx))
              (nodes mol)) as (keyed & -> & HF).
  { intros idx Hidx. destruct (keyfunc_ok idx Hc Hi Hn Hidx) as [key ->].
    simpl. eauto. }
  cbn [mbind result_bind].
  set (groups := groupby (sorted_asc (key_lt lt) keyed)).
  assert (Hkeyed : ∀ key idx,
    (key, idx) ∈ keyed ↔ idx ∈ nodes mol ∧ keyfunc mol idx = Ok key).
  { intros key idx. split.
    - intros [i Hi']%list_elem_of_lookup.
      destruct (Forall2_lookup_r _ _ _ _ _ HF Hi') as (idx' & Hidx' & E).
      destruct (keyfunc mol idx') as [k|] eqn:Ek; simpl in E; [|done].
      injection E as <- <-. split; [|done]. by eapply list_elem_of_lookup_2.
    - intros [[i Hi']%list_elem_of_lookup E].
      destruct (Forall2_lookup_l _ _ _ _ _ HF Hi') as (ky & Hky & E').
      rewrite E in E'. simpl in E'. injection E' as <-.
      by eapply list_elem_of_lookup_2. }
  assert (Hgroups : ∀ key idx,
    (∃ i grp, groups !! i = Some (key, grp) ∧ idx ∈ grp)
    ↔ idx ∈ nodes mol ∧ keyfunc mol idx = Ok key).
  { intros key idx. rewrite <- Hkeyed, <- elem_of_ungroup. unfold groups.
    by rewrite ungroup_groupby, sorted_asc_perm. }
  assert (Hsorted : StronglySorted (λ k1 k2, key_lt lt k1 k2 = true) groups.*1).
  { apply groupby_ascending; [by apply key_lt_order|].
    apply sorted_asc_ascending. by apply key_lt_order. }
  assert (HND : NoDup groups.*1).
  { clear -Hsorted lt_order. induction Hsorted as [|k ks _ IH Hall]; constructor; [|done].
    intros Hk. rewrite Forall_forall in Hall. specialize (Hall k Hk).
    by rewrite (st_irrefl _ (key_lt_order lt lt_order)) in Hall. }
  set (attrs := [("chain", (λ k : A * A * A, k.1.1) <$> groups.*1);
                 ("resid", (λ k : A * A * A, k.1.2) <$> groups.*1);
                 ("resname", (λ k : A * A * A, k.2) <$> groups.*1);
                 ("atomname", (λ k : A * A * A, k.2) <$> groups.*1)]).
  destruct (blockmodel_general wadd wone mol groups.*2 attrs) as [Hok Hres].
  destruct Hok as [res_graph E].
  { unfold assignable, attrs. repeat constructor; simpl; try done;
      by rewrite !length_fmap. }
  exists res_graph, groups. split; [done|].
  destruct (Hres _ E) as (Hnodes & _). rewrite length_fmap in Hnodes.
  split_and!; [done|done| | |].
  - intros idx Hidx. destruct (keyfunc_ok idx Hc Hi Hn Hidx) as [key Hkey].
    destruct (proj2 (Hgroups key idx)) as (i & grp & ? & ?); [done|]. eauto.
  - intros i j key key' grp grp' idx Hi' Hj Hin Hin'.
    assert (keyfunc mol idx = Ok key) as E1 by (apply Hgroups; eauto).
    assert (keyfunc mol idx = Ok key') as E2 by (apply Hgroups; eauto).
    rewrite E1 in E2. injection E2 as <-.
    eapply (NoDup_lookup groups.*1 i j key); [done|..];
      rewrite list_lookup_fmap; [by rewrite Hi'|by rewrite Hj].
  - intros i key grp Hi'. split_and!.
    + apply (groupby_nonempty (sorted_asc (key_lt lt) keyed) (key, grp)).
      by eapply list_elem_of_lookup_2.
    + intros idx Hidx. apply Hgroups. eauto.
    + destruct (blockmodel_nodes_hold mol wadd wone groups.*2 attrs res_graph E
                  i grp) as (d & Hd & Hg & _ & _ & _ & Hu).
      { by rewrite list_lookup_fmap, Hi'. }
      assert (NoDup attrs.*1) as HNDa.
      { unfold attrs. simpl.
        repeat (apply NoDup_cons; split;
                  [rewrite ?elem_of_cons, elem_of_nil; naive_solver|]).
        apply NoDup_nil_2. }
      assert (Hat : ∀ k (g : A * A * A → A),
        (k, g <$> groups.*1) ∈ attrs → k ∉ ["nnodes"; "nedges"; "density"] →
        d !! k = Some (BUser (g key))).
      { intros k g Hin Hno. destruct (Hu _ _ HNDa Hin Hno) as (x & Hx & ->).
        rewrite !list_lookup_fmap, Hi' in Hx. simpl in Hx. by injection Hx as <-. }
      exists d. split_and!; [done|done|..].
      * apply (Hat "chain" (λ k, k.1.1)); [unfold attrs; set_solver|].
        rewrite !elem_of_cons, elem_of_nil; naive_solver.
      * apply (Hat "resid" (λ k, k.1.2)); [unfold attrs; set_solver|].
        rewrite !elem_of_cons, elem_of_nil; naive_solver.
      * apply (Hat "resname" (λ k, k.2)); [unfold attrs; set_solver|].
        rewrite !elem_of_cons, elem_of_nil; naive_solver.
      * apply (Hat "atomname" (λ k, k.2)); [unfold attrs; set_solver|].
        rewrite !elem_of_cons, elem_of_nil; naive_solver.
Qed.
End ResidueGraph.

(** * The further properties on small molecules *)

Lemma categorical_maximum_common_subgraph_common_witness :
  ∃ m : gmap nat nat,
    m ∈ categorical_maximum_common_subgraph methyl carbene ["element"]
    ∧ (∀ a b, m !! a = Some b →
         ∃ node1 node2, (a, node1) ∈ g_node methyl ∧ (b, node2) ∈ g_node carbene
                        ∧ ∀ attr, attr ∈ ["element"] →
                            ∃ x, node1 !! attr = Some x ∧ node2 !! attr = Some x)
    ∧ (∀ a1 b1 a2 b2, m !! a1 = Some b1 → m !! a2 = Some b2 → a1 ≠ a2 →
         b1 ≠ b2 ∧ has_edge methyl a1 a2 = has_edge carbene b1 b2).
Proof.
  assert (Hm : ({[1 := 1; 2 := 2; 3 := 3]} : gmap nat nat)
               ∈ categorical_maximum_common_subgraph methyl carbene ["element"]).
  { apply list_elem_of_In. vm_compute. tauto. }
  eexists. split; [exact Hm|].
  apply (categorical_maximum_common_subgraph_common methyl carbene ["element"] _ Hm).
Defined.

Lemma maximum_common_subgraph_common_witness :
  ∃ m : gmap nat nat,
    m ∈ maximum_common_subgraph methyl carbene ["element"]
    ∧ (∀ a b, m !! a = Some b →
         ∃ node1 node2, (a, node1) ∈ g_node methyl ∧ (b, node2) ∈ g_node carbene
                        ∧ ∀ attr, attr ∈ ["element"] →
                            ∃ x, node1 !! attr = Some x ∧ node2 !! attr = Some x)
    ∧ (∀ a1 b1 a2 b2, m !! a1 = Some b1 → m !! a2 = Some b2 → a1 ≠ a2 →
         b1 ≠ b2 ∧ has_edge methyl a1 a2 = has_edge carbene b1 b2).
Proof.
  assert (Hm : ({[1 := 1; 2 := 2; 3 := 3]} : gmap nat nat)
               ∈ maximum_common_subgraph methyl carbene ["element"]).
  { apply list_elem_of_In. vm_compute. tauto. }
  eexists. split; [exact Hm|].
  apply (maximum_common_subgraph_common methyl carbene ["element"] _ Hm).
Defined.

Lemma rate_match_identity_witness :
  NoDup (nodes ethane)
  ∧ rate_match ethane ethane (list_to_map ((λ n, (n, n)) <$> nodes ethane)) = Ok 8.
Proof.
  assert (NoDup (nodes ethane)) as HND by (apply wf_graph_NoDup, ethane_ok).
  split; [done|]. apply (rate_match_identity ethane HND).
Defined.

Lemma exchange_injective : injective ({[1 := 2; 2 := 1]} : gmap nat nat).
Proof.
  intros k1 k2 v. rewrite !lookup_insert_Some, !lookup_singleton_Some. lia.
Qed.

Lemma reverse_dict_inverse_witness :
  (∀ k v, reverse_dict ({[1 := 2; 2 := 1]} : gmap nat nat) !! v = Some k
          ↔ ({[1 := 2; 2 := 1]} : gmap nat nat) !! k = Some v)
  ∧ size (reverse_dict ({[1 := 2; 2 := 1]} : gmap nat nat)) = 2
  ∧ reverse_dict (reverse_dict ({[1 := 2; 2 := 1]} : gmap nat nat))
    = {[1 := 2; 2 := 1]}.
Proof. apply (reverse_dict_inverse _ exchange_injective). Defined.

Lemma isomorphism_onto_witness :
  ∃ ms, isomorphism ethane methyl = Ok ms
        ∧ ∀ m, m ∈ ms →
            size m = number_of_nodes methyl
            ∧ (∀ a b, m !! a = Some b →
                 a ∈ nodes ethane ∧ b ∈ nodes methyl
                 ∧ ∃ x, attribute ethane a "element" = Ok x
                        ∧ attribute methyl b "element" = Ok x)
            ∧ (∀ b, b ∈ nodes methyl →
                 ∃ a, m !! a = Some b ∧ ∀ a', m !! a' = Some b → a' = a).
Proof.
  apply (isomorphism_onto ethane methyl); first [apply ethane_ok|apply methyl_ok].
Defined.

Lemma isomorphism_best_first_witness :
  ∃ ms, isomorphism ethane methyl = Ok ms
        ∧ (∀ m, m ∈ ms →
             rate_match ethane methyl m = Ok (rate_score ethane methyl m))
        ∧ StronglySorted (λ m m', rate_score ethane methyl m'
                                   ≤ rate_score ethane methyl m) ms.
Proof.
  apply (isomorphism_best_first ethane methyl);
    first [apply ethane_ok|apply methyl_ok].
Defined.

Lemma seeded_consistent_methyl : consistent ethane methyl seeded_methyl.
Proof.
  assert (Hin : ∀ (n : nat) l, In n l → n ∈ l) by (intros; by apply list_elem_of_In).
  split; [|by intros n ?%elem_of_nil..]. simpl.
  apply (sound_core_insert ethane methyl {[3 := 2]} {[2 := 3]} 1 1 "C").
  - rewrite <- (insert_empty (M:=gmap nat) 3 2), <- (insert_empty (M:=gmap nat) 2 3).
    apply (sound_core_insert ethane methyl ∅ ∅ 3 2 "H").
    + apply sound_core_empty.
    + done.
    + done.
    + apply Hin. vm_compute. tauto.
    + apply Hin. vm_compute. tauto.
    + by vm_compute.
    + by vm_compute.
  - by vm_compute.
  - by vm_compute.
  - apply Hin. vm_compute. tauto.
  - apply Hin. vm_compute. tauto.
  - by vm_compute.
  - by vm_compute.
Qed.

Lemma element_matcher_sound_witness :
  ends_well (subgraph_isomorphisms_iter ethane methyl seeded_methyl)
  ∧ ∀ m, m ∈ yielded (subgraph_isomorphisms_iter ethane methyl seeded_methyl) →
      core_1 seeded_methyl ⊆ m
      ∧ injective m
      ∧ size m = number_of_nodes methyl
      ∧ ∀ a b, m !! a = Some b →
          a ∈ nodes ethane ∧ b ∈ nodes methyl
          ∧ ∃ x, attribute ethane a "element" = Ok x
                 ∧ attribute methyl b "element" = Ok x.
Proof.
  apply (element_matcher_sound ethane methyl seeded_methyl);
    [apply ethane_ok|apply methyl_ok|apply wf_graph_NoDup, methyl_ok|].
  apply seeded_consistent_methyl.
Defined.

Lemma blockmodel_short_attribute_witness :
  blockmodel (X:=string) f64_add f64_one two_blocks [[1; 2]; [3; 4]]
             [("name", ["first"])]
  = Raise IndexError.
Proof.
  apply (blockmodel_short_attribute two_blocks f64_add f64_one
           [[1; 2]; [3; 4]] [("name", ["first"])] "name" ["first"]).
  - left.
  - simpl. lia.
Defined.

Lemma blockmodel_node_attributes_witness :
  ∃ CG, blockmodel (X:=string) f64_add f64_one two_blocks [[1; 2]; [3; 4]]
                   [("name", ["first"; "second"])] = Ok CG
        ∧ ∀ i idxs, [[1; 2]; [3; 4]] !! i = Some idxs →
            ∃ d, node_attrs CG i = Some d
                 ∧ d !! "graph" = Some (BGraph (subgraph two_blocks idxs))
                 ∧ d !! "nnodes"
                   = Some (BCount (number_of_nodes (subgraph two_blocks idxs)))
                 ∧ d !! "nedges"
                   = Some (BCount (number_of_edges (subgraph two_blocks idxs)))
                 ∧ d !! "density" = Some (density (subgraph two_blocks idxs))
                 ∧ ∀ k vals, NoDup [("name", ["first"; "second"])].*1 →
                     (k, vals) ∈ [("name", ["first"; "second"])] →
                     k ∉ ["nnodes"; "nedges"; "density"] →
                     ∃ x, vals !! i = Some x ∧ d !! k = Some (BUser x).
Proof.
  eexists. split; [vm_compute; reflexivity|].
  apply (blockmodel_node_attributes two_blocks f64_add f64_one).
  vm_compute. reflexivity.
Defined.

Lemma add_element_attr_raise_witness :
  ∃ molecule' done_ p rest done',
    add_element_attr first_character nameless_atoms = (molecule', Raise ValueError)
    ∧ g_node nameless_atoms = done_ ++ p :: rest
    ∧ g_node molecule' = done' ++ p :: rest
    ∧ g_edge molecule' = g_edge nameless_atoms
    ∧ Forall (guessable first_character) done_.*2
    ∧ stops_at first_character p.2 ValueError
    ∧ Forall2 (λ q q', q'.1 = q.1 ∧ with_element first_character q.2 q'.2)
              done_ done'
    ∧ ((∀ atomname e0, first_character atomname = Raise e0 →
          e0 = ValueError ∨ e0 = KeyError) →
       ValueError = ValueError).
Proof.
  exists (add_element_attr first_character nameless_atoms).1.
  destruct (add_element_attr_raise first_character nameless_atoms
              (add_element_attr first_character nameless_atoms).1 ValueError)
    as (d & p & rest & d' & Hw); [vm_compute; reflexivity|].
  exists d, p, rest, d'. split; [vm_compute; reflexivity|exact Hw].
Defined.

Lemma add_element_attr_idempotent_witness :
  ∃ molecule',
    add_element_attr first_character named_atoms = (molecule', Ok ())
    ∧ add_element_attr first_character molecule' = (molecule', Ok ()).
Proof.
  eexists. split; [vm_compute; reflexivity|].
  apply (add_element_attr_idempotent first_character named_atoms).
  vm_compute. reflexivity.
Defined.

Lemma nat_ltb_order : strict_total Nat.ltb.
Proof.
  split.
  - intros k. apply Nat.ltb_irrefl.
  - intros k1 k2 k3. rewrite !Nat.ltb_lt. lia.
  - intros k1 k2. rewrite !Nat.ltb_lt. lia.
Qed.

Lemma make_residue_graph_missing_witness :
  make_residue_graph Nat.ltb Nat.add 1 unnamed_residue = Raise KeyError.
Proof.
  apply (make_residue_graph_missing Nat.ltb Nat.add 1 unnamed_residue 2 "resname").
  - apply list_elem_of_In. vm_compute. tauto.
  - apply list_elem_of_In. simpl. tauto.
  - vm_compute. reflexivity.
Defined.

Lemma make_residue_graph_spec_witness :
  ∃ res_graph groups,
    make_residue_graph Nat.ltb Nat.add 1 two_residues = Ok res_graph
    ∧ nodes res_graph = seq 0 (length groups)
    ∧ StronglySorted (λ k1 k2, key_lt Nat.ltb k1 k2 = true) groups.*1
    ∧ (∀ idx, idx ∈ nodes two_residues →
         ∃ i key grp, groups !! i = Some (key, grp) ∧ idx ∈ grp)
    ∧ (∀ i j key key' grp grp' idx,
         groups !! i = Some (key, grp) → groups !! j = Some (key', grp') →
         idx ∈ grp → idx ∈ grp' → i = j)
    ∧ (∀ i key grp, groups !! i = Some (key, grp) →
         grp ≠ []
         ∧ (∀ idx, idx ∈ grp →
              idx ∈ nodes two_residues ∧ keyfunc two_residues idx = Ok key)
         ∧ ∃ d, node_attrs res_graph i = Some d
                ∧ d !! "graph" = Some (BGraph (subgraph two_residues grp))
                ∧ d !! "chain" = Some (BUser key.1.1)
                ∧ d !! "resid" = Some (BUser key.1.2)
                ∧ d !! "resname" = Some (BUser key.2)
                ∧ d !! "atomname" = Some (BUser key.2)).
Proof.
  apply (make_residue_graph_spec Nat.ltb Nat.add 1 two_residues nat_ltb_order);
    vm_compute; reflexivity.
Defined.
